(** * Ball Mixer: the simulation core of [logic.py], and its GUI caller

    A shallow embedding of [src/logic.py]: vectors, rectangles, colors and
    their HSV blend, the world of live balls and inventory, [update], and
    the suck and spit mechanics; and of [src/gui.py]: the decision it takes
    before it calls [spit_from_inventory], and the state, the handlers
    and the tick of the application, the drawing apart.

    Numbers.  Python's [float] is modelled by the real numbers [R]: every
    arithmetic operation is the exact one, so rounding, infinities and NaN
    are outside the model.  [int] is [Z].  [math] and [colorsys] are those
    of the Python standard library, read on the reals.  Two consequences
    are kept out of the statements.  Rounding can put a result on the end
    of its range: [a % w] adds [w] to a negative remainder and the sum of
    a tiny one rounds to [w] itself, so the wrap and the hues are stated
    with closed ranges.  And a position that overflowed is NaN after the
    wrap, where [int()] raises [ValueError]: what is said of the result
    of [update] in general is said of the calls that return.

    Objects.  A [Ball] object lives in the [_balls] dict or in the
    [inventory] list, and nothing in [logic.py] changes a [ball_id]; a
    reference to a live ball is therefore modelled by its key in [_balls],
    and the mixing pass, which mutates balls in place through such
    references, reads and writes the store by key.  The dict is an
    association list in insertion order, the order Python iterates it in.
    The lists [suck] and [spit] return hold the balls as they are at the
    return.

    Errors.  The only exception the arithmetic of [logic.py] can raise on
    real numbers is [ZeroDivisionError] (the wrap of [update] and the
    saturation of [rgb_to_hsv]); code that can raise returns a [result], and
    so do [__init__] and [create_ball].  A division whose divisor the source
    has just made non-zero is the total division of [R].

    Randomness.  [random.Random(seed)] is a sequence of draws in [[0, 1)]
    and a cursor into it. *)

From Stdlib Require Import Reals Lra Lia ZArith List Bool Permutation Sorted.
Import ListNotations.
Open Scope R_scope.

(** ** Errors *)

Inductive exn : Type := ZeroDivisionError.

Inductive result (A : Type) : Type :=
| Ok (a : A)
| Raise (e : exn).
Arguments Ok {A} a.
Arguments Raise {A} e.

Definition bind {A B : Type} (m : result A) (k : A -> result B) : result B :=
  match m with
  | Ok a => k a
  | Raise e => Raise e
  end.

Notation "x <- m ;; k" := (bind m (fun x => k))
  (at level 61, m at next level, right associativity).
Notation "' p <- m ;; k" := (bind m (fun x => match x with p => k end))
  (at level 61, p pattern, m at next level, right associativity).

(** ** Python's arithmetic on floats, read on the reals *)

Definition Rleb (a b : R) : bool := if Rle_dec a b then true else false.
Definition Rltb (a b : R) : bool := if Rlt_dec a b then true else false.
Definition Reqb (a b : R) : bool := if Req_dec_T a b then true else false.

(** [math.floor]. *)
Definition floor (a : R) : Z := Int_part a.

(** [int(a)] on a float: truncation towards zero. *)
Definition int_of_float (a : R) : Z :=
  if Rleb 0 a then floor a else (- floor (- a))%Z.

(** [a % w] and [a // w] for [w <> 0]: the result of [%] has the sign of
    the divisor.  On the reals it is strictly inside [[0, w)] for
    [w > 0]; on floats the remainder of a tiny negative [a] plus [w]
    rounds to [w], so the code is only known to stay in [[0, w]]. *)
Definition pymod (a w : R) : R := a - w * IZR (floor (a / w)).
Definition pyfloordiv (a w : R) : R := IZR (floor (a / w)).

(** [a % w] and [a / w] where the source does not guard the divisor. *)
Definition float_mod (a w : R) : result R :=
  if Reqb w 0 then Raise ZeroDivisionError else Ok (pymod a w).

Definition float_div (a w : R) : result R :=
  if Reqb w 0 then Raise ZeroDivisionError else Ok (a / w).

(** Built-in [sum]: left to right from [0]. *)
Definition sum (l : list R) : R := fold_left Rplus l 0.

(** [math.hypot], [math.radians] and [math.atan2] (range [(-PI, PI]],
    [atan2(0, 0) = 0]). *)
Definition hypot (a b : R) : R := sqrt (a * a + b * b).

Definition radians (d : R) : R := d * (PI / 180).

Definition atan2 (b a : R) : R :=
  if Rltb 0 a then atan (b / a)
  else if Rltb a 0 then
    (if Rleb 0 b then atan (b / a) + PI else atan (b / a) - PI)
  else if Rltb 0 b then PI / 2
  else if Rltb b 0 then - (PI / 2)
  else 0.

(** ** [random.Random]

    The generator is a fixed sequence of draws, each in [[0, 1)], and a
    cursor into it; the seed chooses the sequence. *)

Module Rng.

Record t : Type := mk { draws : nat -> R; cursor : nat }.

(** [Random.random()]. *)
Definition random (g : t) : R * t :=
  (draws g (cursor g), mk (draws g) (S (cursor g))).

(** [Random.uniform(a, b)] is [a + (b - a) * self.random()]. *)
Definition uniform (g : t) (a b : R) : R * t :=
  let '(u, g') := random g in (a + (b - a) * u, g').

(** Every draw lies in [[0, 1)]. *)
Definition well_formed (g : t) : Prop := forall n, 0 <= draws g n < 1.

End Rng.

(** ** Geometry *)

Module Vector2.

Record t : Type := mk { x : R; y : R }.

Definition add (self other : t) : t := mk (x self + x other) (y self + y other).
Definition sub (self other : t) : t := mk (x self - x other) (y self - y other).
Definition mul (self : t) (scalar : R) : t := mk (x self * scalar) (y self * scalar).
Definition length (self : t) : R := hypot (x self) (y self).

Definition normalized (self : t) : t :=
  let length := length self in
  if Reqb length 0 then mk 0 0
  else mk (x self / length) (y self / length).

End Vector2.

Module Rect.

Record t : Type := mk { x : R; y : R; width : R; height : R }.

Definition contains (self : t) (p : Vector2.t) : bool :=
  Rleb (x self) (Vector2.x p) && Rleb (Vector2.x p) (x self + width self)
  && Rleb (y self) (Vector2.y p) && Rleb (Vector2.y p) (y self + height self).

End Rect.

(** ** Colors *)

(** [colorsys.rgb_to_hsv] of the Python standard library.  [rangec] is not
    zero where it divides; [maxc] can be (for a color with a negative
    component). *)
Definition rgb_to_hsv (r g b : R) : result (R * R * R) :=
  let maxc := Rmax (Rmax r g) b in
  let minc := Rmin (Rmin r g) b in
  let rangec := maxc - minc in
  let v := maxc in
  if Reqb minc maxc then Ok (0, 0, v)
  else
    s <- float_div rangec maxc ;;
    let rc := (maxc - r) / rangec in
    let gc := (maxc - g) / rangec in
    let bc := (maxc - b) / rangec in
    let h :=
      if Reqb r maxc then bc - gc
      else if Reqb g maxc then 2 + rc - bc
      else 4 + gc - rc in
    let h := pymod (h / 6) 1 in
    Ok (h, s, v).

(** [colorsys.hsv_to_rgb].  [i % 6] is one of [0 .. 5], so the last branch
    is the case [5]. *)
Definition hsv_to_rgb (h s v : R) : R * R * R :=
  if Reqb s 0 then (v, v, v)
  else
    let i := int_of_float (h * 6) in
    let f := h * 6 - IZR i in
    let p := v * (1 - s) in
    let q := v * (1 - s * f) in
    let t := v * (1 - s * (1 - f)) in
    let i := (i mod 6)%Z in
    if (i =? 0)%Z then (v, t, p)
    else if (i =? 1)%Z then (q, v, p)
    else if (i =? 2)%Z then (p, v, t)
    else if (i =? 3)%Z then (p, q, v)
    else if (i =? 4)%Z then (t, p, v)
    else (v, p, q).

Module Color.

Record t : Type := mk { r : R; g : R; b : R }.

Definition clamp (self : t) : t :=
  mk (Rmin 1 (Rmax 0 (r self)))
     (Rmin 1 (Rmax 0 (g self)))
     (Rmin 1 (Rmax 0 (b self))).

Definition to_hsv (self : t) : result (R * R * R) :=
  rgb_to_hsv (r self) (g self) (b self).

Definition from_hsv (h s v : R) : t :=
  let '(r, g, b) := hsv_to_rgb h s v in mk r g b.

(** Components in [[0, 1]]. *)
Definition valid (self : t) : Prop :=
  0 <= r self <= 1 /\ 0 <= g self <= 1 /\ 0 <= b self <= 1.

End Color.

(** The weighted circular mean of hues.  On the reals opposite hues of
    equal weight cancel and the angle of the zero vector is 0; on floats
    [sin(math.pi)] is not zero, so the code returns the hue between them,
    and a tiny negative angle plus [2 * pi] rounds to [2 * pi], so the
    code can return 1.0: the value at cancelling hues is not stated
    below, and the range is stated closed. *)
Definition _circular_mean_hue (hues weights : list R) : R :=
  match hues with
  | [] => 0
  | _ =>
    let tw := Rmax 1e-9 (sum weights) in
    let angles := map (fun h => h * 2 * PI) hues in
    let x := sum (map (fun '(a, w) => cos a * w) (combine angles weights)) / tw in
    let y := sum (map (fun '(a, w) => sin a * w) (combine angles weights)) / tw in
    let angle := atan2 y x in
    let angle := if Rltb angle 0 then angle + 2 * PI else angle in
    angle / (2 * PI)
  end.

(** The saturation and the value [mix_colors] gives the blend. *)
Definition mix_saturation (s1 s2 : R) : R :=
  let s := 1 - (1 - s1) * (1 - s2) in
  Rmin 1 (Rmax 0 (s * 1.05)).

Definition mix_value (v1 v2 : R) : R := sqrt (Rmax 0 v1 * Rmax 0 v2).

Definition mix_colors (c1 c2 : Color.t) : result Color.t :=
  ' (h1, s1, v1) <- Color.to_hsv c1 ;;
  ' (h2, s2, v2) <- Color.to_hsv c2 ;;
  let chroma1 := s1 * v1 in
  let chroma2 := s2 * v2 in
  let h := _circular_mean_hue [h1; h2] [chroma1 + 1e-6; chroma2 + 1e-6] in
  let s := mix_saturation s1 s2 in
  let v := mix_value v1 v2 in
  Ok (Color.clamp (Color.from_hsv h s v)).

(** ** Balls *)

Module Ball.

Record t : Type := mk {
  ball_id : Z;
  position : Vector2.t;
  velocity : Vector2.t;
  radius : R;
  color : Color.t
}.

(** Assignments to one attribute. *)
Definition set_position (self : t) (p : Vector2.t) : t :=
  mk (ball_id self) p (velocity self) (radius self) (color self).
Definition set_velocity (self : t) (v : Vector2.t) : t :=
  mk (ball_id self) (position self) v (radius self) (color self).
Definition set_color (self : t) (c : Color.t) : t :=
  mk (ball_id self) (position self) (velocity self) (radius self) c.

End Ball.

(** ** Python's [dict], in insertion order *)

Section Dict.

Variables K V : Type.
Variable eqb : K -> K -> bool.

Definition dict : Type := list (K * V).

Fixpoint dict_get (d : dict) (k : K) : option V :=
  match d with
  | [] => None
  | (k', v) :: d' => if eqb k k' then Some v else dict_get d' k
  end.

Definition dict_mem (d : dict) (k : K) : bool :=
  match dict_get d k with Some _ => true | None => false end.

(** [d[k] = v]: an existing key keeps its place. *)
Fixpoint dict_set (d : dict) (k : K) (v : V) : dict :=
  match d with
  | [] => [(k, v)]
  | (k', v') :: d' =>
    if eqb k k' then (k, v) :: d' else (k', v') :: dict_set d' k v
  end.

(** [d.pop(k, None)], the value dropped. *)
Fixpoint dict_pop (d : dict) (k : K) : dict :=
  match d with
  | [] => []
  | (k', v') :: d' => if eqb k k' then d' else (k', v') :: dict_pop d' k
  end.

Definition dict_keys (d : dict) : list K := map fst d.
Definition dict_values (d : dict) : list V := map snd d.

End Dict.

Arguments dict_get {K V} eqb d k.
Arguments dict_mem {K V} eqb d k.
Arguments dict_set {K V} eqb d k v.
Arguments dict_pop {K V} eqb d k.
Arguments dict_keys {K V} d.
Arguments dict_values {K V} d.

(** [list.pop()]: the last element and the rest, [None] on an empty list. *)
Definition list_pop {A : Type} (l : list A) : option (A * list A) :=
  match rev l with
  | [] => None
  | a :: r => Some (a, rev r)
  end.

(** [list.sort(key=...)] on pairs whose first component is the key: stable,
    ascending. *)
Fixpoint insert_by_key {A : Type} (t : R * A) (l : list (R * A)) : list (R * A) :=
  match l with
  | [] => [t]
  | u :: l' => if Rltb (fst t) (fst u) then t :: l else u :: insert_by_key t l'
  end.

Definition sort_by_key {A : Type} (l : list (R * A)) : list (R * A) :=
  fold_left (fun acc t => insert_by_key t acc) l [].

Definition cell_eqb (c1 c2 : Z * Z) : bool :=
  ((fst c1 =? fst c2) && (snd c1 =? snd c2))%Z.

(** ** The world *)

Module GameLogic.

Record t : Type := mk {
  width : R;
  height : R;
  _balls : dict Z Ball.t;
  _next_id : Z;
  inventory_capacity : option Z;
  inventory : list Ball.t;
  deletion_zone : option Rect.t;
  _rng : Rng.t
}.

Definition set_balls (self : t) (d : dict Z Ball.t) : t :=
  mk (width self) (height self) d (_next_id self) (inventory_capacity self)
     (inventory self) (deletion_zone self) (_rng self).

(** [GameLogic(width, height, initial_balls=, inventory_capacity=,
    random_seed=)]; the generator the seed gives stands for the seed.
    There is no [raise] on any path. *)
Definition __init__ (width height : R) (initial_balls : option (list Ball.t))
    (inventory_capacity : option Z) (rng : Rng.t) : result t :=
  let '(balls, next_id) :=
    fold_left
      (fun '(d, n) b =>
         (dict_set Z.eqb d (Ball.ball_id b) b, Z.max n (Ball.ball_id b + 1)))
      (match initial_balls with Some l => l | None => [] end)
      ([], 1%Z) in
  Ok (mk width height balls next_id inventory_capacity [] None rng).

(** *** Ball lifecycle *)

Definition create_ball (self : t) (position velocity : Vector2.t) (radius : R)
    (color : Color.t) : result (Ball.t * t) :=
  let ball := Ball.mk (_next_id self) position velocity radius color in
  Ok (ball,
      mk (width self) (height self)
         (dict_set Z.eqb (_balls self) (Ball.ball_id ball) ball)
         (_next_id self + 1) (inventory_capacity self) (inventory self)
         (deletion_zone self) (_rng self)).

Definition remove_ball (self : t) (ball_id : Z) : t :=
  if dict_mem Z.eqb (_balls self) ball_id
  then set_balls self (dict_pop Z.eqb (_balls self) ball_id)
  else self.

Definition list_balls (self : t) : list Ball.t := dict_values (_balls self).

Definition set_deletion_zone (self : t) (rect : option Rect.t) : t :=
  mk (width self) (height self) (_balls self) (_next_id self)
     (inventory_capacity self) (inventory self) rect (_rng self).

(** *** Internals *)

Definition _estimate_cell_size (self : t) : R :=
  match list_balls self with
  | [] => 64
  | balls =>
    let avg_r := sum (map Ball.radius balls) / INR (length balls) in
    Rmax 16 (Rmin 128 (avg_r * 2.5))
  end.

(** The local [cell_size] of [_apply_color_mixing]. *)
Definition cell_size (self : t) : R := Rmax 32 (_estimate_cell_size self).

(** The cell of a ball: [int(position // cell_size)] on both coordinates.
    [int()] raises [ValueError] on NaN, the value an overflowed position
    has after the wrap; a real number stands for no such position. *)
Definition cell_of (cell_size : R) (ball : Ball.t) : Z * Z :=
  (int_of_float (pyfloordiv (Vector2.x (Ball.position ball)) cell_size),
   int_of_float (pyfloordiv (Vector2.y (Ball.position ball)) cell_size)).

(** [grid.setdefault(key, []).append(ball)]: a bucket holds references,
    that is, keys of [_balls]. *)
Definition grid_add (grid : dict (Z * Z) (list Z)) (key : Z * Z) (ref : Z)
    : dict (Z * Z) (list Z) :=
  match dict_get cell_eqb grid key with
  | Some bucket => dict_set cell_eqb grid key (bucket ++ [ref])
  | None => dict_set cell_eqb grid key [ref]
  end.

Definition build_grid (cell_size : R) (balls : dict Z Ball.t)
    : dict (Z * Z) (list Z) :=
  fold_left (fun grid '(k, ball) => grid_add grid (cell_of cell_size ball) k)
            balls [].

(** The 3x3 block around a cell, rows first as the two loops run. *)
Definition neighbors (grid : dict (Z * Z) (list Z)) (c : Z * Z) : list Z :=
  flat_map
    (fun ny =>
       flat_map
         (fun nx =>
            match dict_get cell_eqb grid (fst c + nx, snd c + ny)%Z with
            | Some bucket => bucket
            | None => []
            end)
         [(-1)%Z; 0%Z; 1%Z])
    [(-1)%Z; 0%Z; 1%Z].

(** [_maybe_mix(a, b)] on the references of [a] and [b]: the colors read
    are the current ones. *)
Definition _maybe_mix (balls : dict Z Ball.t) (ka kb : Z)
    : result (dict Z Ball.t) :=
  match dict_get Z.eqb balls ka, dict_get Z.eqb balls kb with
  | Some a, Some b =>
    let dx := Vector2.x (Ball.position b) - Vector2.x (Ball.position a) in
    let dy := Vector2.y (Ball.position b) - Vector2.y (Ball.position a) in
    let dist2 := dx * dx + dy * dy in
    let r := Ball.radius a + Ball.radius b in
    if Rleb dist2 (r * r) then
      mixed <- mix_colors (Ball.color a) (Ball.color b) ;;
      Ok (dict_set Z.eqb
            (dict_set Z.eqb balls ka (Ball.set_color a mixed))
            kb (Ball.set_color b mixed))
    else Ok balls
  | _, _ => Ok balls
  end.

(** One turn of the inner loop, [for b in neighbors]. *)
Definition mix_pair (ka : Z) (acc : result (dict Z Ball.t)) (kb : Z)
    : result (dict Z Ball.t) :=
  balls <- acc ;;
  match dict_get Z.eqb balls ka, dict_get Z.eqb balls kb with
  | Some a, Some b =>
    if (Ball.ball_id b <=? Ball.ball_id a)%Z then Ok balls
    else _maybe_mix balls ka kb
  | _, _ => Ok balls
  end.

(** One turn of the outer loop, [for (cx, cy), bucket in grid.items()]. *)
Definition mix_cell (grid : dict (Z * Z) (list Z))
    (acc : result (dict Z Ball.t)) (entry : (Z * Z) * list Z)
    : result (dict Z Ball.t) :=
  let nbrs := neighbors grid (fst entry) in
  fold_left (fun acc ka => fold_left (mix_pair ka) nbrs acc) (snd entry) acc.

Definition _apply_color_mixing (self : t) : result t :=
  let grid := build_grid (cell_size self) (_balls self) in
  balls <- fold_left (mix_cell grid) grid (Ok (_balls self)) ;;
  Ok (set_balls self balls).

(** *** Update loop *)

(** The body of the integration loop. *)
Definition integrate (self : t) (dt : R) (ball : Ball.t) : result Ball.t :=
  let p := Vector2.add (Ball.position ball) (Vector2.mul (Ball.velocity ball) dt) in
  x <- float_mod (Vector2.x p) (width self) ;;
  y <- float_mod (Vector2.y p) (height self) ;;
  Ok (Ball.set_position ball (Vector2.mk x y)).

Fixpoint integrate_all (self : t) (dt : R) (balls : dict Z Ball.t)
    : result (dict Z Ball.t) :=
  match balls with
  | [] => Ok []
  | (k, ball) :: rest =>
    ball' <- integrate self dt ball ;;
    rest' <- integrate_all self dt rest ;;
    Ok ((k, ball') :: rest')
  end.

Definition cull (self : t) : t :=
  match deletion_zone self with
  | None => self
  | Some zone =>
    let to_delete :=
      map Ball.ball_id
          (filter (fun ball => Rect.contains zone (Ball.position ball))
                  (dict_values (_balls self))) in
    fold_left remove_ball to_delete self
  end.

(** [update(dt)]: nothing for [dt <= 0]; else the integration loop, the
    deletion zone, the mixing pass.  When a step raises, the exception is
    all that is kept of the call. *)
Definition update (self : t) (dt : R) : result t :=
  if Rleb dt 0 then Ok self
  else
    balls <- integrate_all self dt (_balls self) ;;
    _apply_color_mixing (cull (set_balls self balls)).

(** *** Inventory mechanics *)

Definition candidates (self : t) (point : Vector2.t) (radius : R)
    : list (R * Ball.t) :=
  let r2 := radius * radius in
  flat_map
    (fun ball =>
       let dx := Vector2.x (Ball.position ball) - Vector2.x point in
       let dy := Vector2.y (Ball.position ball) - Vector2.y point in
       if Rleb (dx * dx + dy * dy) r2 then [(hypot dx dy, ball)] else [])
    (dict_values (_balls self)).

(** The capture loop: [self] and [sucked] as they stand when the loop
    ends or breaks. *)
Fixpoint suck_loop (max_count : option Z) (cands : list (R * Ball.t))
    (self : t) (sucked : list Ball.t) : list Ball.t * t :=
  match cands with
  | [] => (sucked, self)
  | (_, ball) :: rest =>
    if match max_count with
       | Some m => (m <=? Z.of_nat (length sucked))%Z
       | None => false
       end
    then (sucked, self)
    else if match inventory_capacity self with
            | Some c => (c <=? Z.of_nat (length (inventory self)))%Z
            | None => false
            end
    then (sucked, self)
    else
      suck_loop max_count rest
        (mk (width self) (height self)
            (dict_pop Z.eqb (_balls self) (Ball.ball_id ball))
            (_next_id self) (inventory_capacity self)
            (inventory self ++ [ball]) (deletion_zone self) (_rng self))
        (sucked ++ [ball])
  end.

Definition suck_into_inventory (self : t) (point : Vector2.t) (radius : R)
    (max_count : option Z) : list Ball.t * t :=
  suck_loop max_count (sort_by_key (candidates self point radius)) self [].

(** The emission angle of one ball, and the generator after the draw. *)
Definition spit_angle (direction_norm : option Vector2.t) (spread_degrees : R)
    (rng : Rng.t) : R * Rng.t :=
  match direction_norm with
  | None => Rng.uniform rng 0 (2 * PI)
  | Some d =>
    let base_angle := atan2 (Vector2.y d) (Vector2.x d) in
    let spread := radians spread_degrees in
    let '(u, rng') := Rng.uniform rng (- spread * 0.5) (spread * 0.5) in
    (base_angle + u, rng')
  end.

(** The release loop, [n] turns.  [inventory.pop()] cannot fail: [n] is
    at most the length of the inventory. *)
Fixpoint spit_loop (n : nat) (point : Vector2.t)
    (direction_norm : option Vector2.t) (base_speed spread_degrees : R)
    (self : t) (emitted : list Ball.t) : list Ball.t * t :=
  match n with
  | O => (emitted, self)
  | S n' =>
    match list_pop (inventory self) with
    | None => (emitted, self)
    | Some (ball, inventory') =>
      let ball := Ball.set_position ball (Vector2.mk (Vector2.x point) (Vector2.y point)) in
      let '(angle, rng) := spit_angle direction_norm spread_degrees (_rng self) in
      let '(u, rng) := Rng.random rng in
      let speed := base_speed * (0.85 + 0.30 * u) in
      let ball := Ball.set_velocity ball (Vector2.mk (cos angle * speed) (sin angle * speed)) in
      spit_loop n' point direction_norm base_speed spread_degrees
        (mk (width self) (height self)
            (dict_set Z.eqb (_balls self) (Ball.ball_id ball) ball)
            (_next_id self) (inventory_capacity self) inventory'
            (deletion_zone self) rng)
        (emitted ++ [ball])
    end
  end.

(** [direction], [count], [base_speed] and [spread_degrees] default to
    [None], [1], [200.0] and [20.0]. *)
Definition spit_from_inventory (self : t) (point : Vector2.t)
    (direction : option Vector2.t) (count : Z) (base_speed spread_degrees : R)
    : list Ball.t * t :=
  let direction_norm :=
    match direction with
    | None => None
    | Some d => Some (Vector2.normalized d)
    end in
  spit_loop (Z.to_nat (Z.min count (Z.of_nat (length (inventory self)))))
            point direction_norm base_speed spread_degrees self [].

End GameLogic.

(** ** The caller in [gui.py] *)

Module BallGameApp.

(** The direction [_on_mouse_down_right] passes to [spit_from_inventory]:
    the last mouse position, if any, and the position of the click. *)
Definition spit_direction (mouse_pos : option (R * R)) (event_x event_y : R)
    : option Vector2.t :=
  match mouse_pos with
  | None => None
  | Some (mx, my) =>
    let dx := event_x - mx in
    let dy := event_y - my in
    if Rltb 0.01 (Rabs dx + Rabs dy) then Some (Vector2.mk dx dy) else None
  end.

End BallGameApp.

(** * Vocabulary of the properties *)

(** A position inside the world: [0 <= x < width] and [0 <= y < height]. *)
Definition in_bounds (g : GameLogic.t) (b : Ball.t) : Prop :=
  0 <= Vector2.x (Ball.position b) < GameLogic.width g
  /\ 0 <= Vector2.y (Ball.position b) < GameLogic.height g.

(** A position the wrap can give: the bounds of [in_bounds], the upper
    ones closed, since the float [%] can return the divisor itself
    ([(-1e-20) % 100.0] is [100.0]). *)
Definition wrapped (g : GameLogic.t) (b : Ball.t) : Prop :=
  0 <= Vector2.x (Ball.position b) <= GameLogic.width g
  /\ 0 <= Vector2.y (Ball.position b) <= GameLogic.height g.

(** [b'] is [b] with, possibly, another color. *)
Definition recolored (b b' : Ball.t) : Prop :=
  Ball.set_color b (Ball.color b') = b'.

(** Two stores with the same keys in the same order, whose balls differ in
    color at most. *)
Definition same_but_colors (balls balls' : dict Z Ball.t) : Prop :=
  Forall2 (fun kb kb' => fst kb = fst kb' /\ recolored (snd kb) (snd kb'))
          balls balls'.

(** What is known of the store a loop of the mixing pass has reached: [P]
    of the store when nothing raised, [E] when something did. *)
Definition holds (P : dict Z Ball.t -> Prop) (E : Prop)
    (acc : result (dict Z Ball.t)) : Prop :=
  match acc with
  | Ok balls => P balls
  | Raise _ => E
  end.

(** What a renderer sees of a ball, its color apart. *)
Definition shape (b : Ball.t) : Z * Vector2.t * Vector2.t * R :=
  (Ball.ball_id b, Ball.position b, Ball.velocity b, Ball.radius b).

(** Where the integration step of [update] puts a ball. *)
Definition moved (g : GameLogic.t) (dt : R) (b : Ball.t) : Ball.t :=
  Ball.set_position b
    (Vector2.mk
       (pymod (Vector2.x (Ball.position b) + Vector2.x (Ball.velocity b) * dt)
              (GameLogic.width g))
       (pymod (Vector2.y (Ball.position b) + Vector2.y (Ball.velocity b) * dt)
              (GameLogic.height g))).

(** The world between the integration step and the mixing pass. *)
Definition integrated (g : GameLogic.t) (dt : R) : GameLogic.t :=
  GameLogic.cull
    (GameLogic.set_balls g
       (map (fun kb => (fst kb, moved g dt (snd kb))) (GameLogic._balls g))).

(** [clamp(x, lo, hi)], and the cell size as the specification words it:
    [clamp(average_radius * 2.5, 16, 128)], and 64 when there is no ball. *)
Definition clamp (x lo hi : R) : R := Rmax lo (Rmin hi x).

Definition average_radius (balls : list Ball.t) : R :=
  sum (map Ball.radius balls) / INR (length balls).

Definition spec_cell_size (balls : list Ball.t) : R :=
  match balls with
  | [] => 64
  | _ => clamp (average_radius balls * 2.5) 16 128
  end.

(** The number of turns of the release loop:
    [range(min(count, len(inventory)))]. *)
Definition spit_turns (g : GameLogic.t) (count : Z) : nat :=
  Z.to_nat (Z.min count (Z.of_nat (length (GameLogic.inventory g)))).

(** [e] is the ball [b] released at [point]: a new position and velocity,
    the identity, the radius and the color kept. *)
Definition released_at (point : Vector2.t) (e b : Ball.t) : Prop :=
  Ball.ball_id e = Ball.ball_id b
  /\ Ball.radius e = Ball.radius b
  /\ Ball.color e = Ball.color b
  /\ Ball.position e = Vector2.mk (Vector2.x point) (Vector2.y point).

(** Everything of a world but its balls, its inventory and its generator. *)
Definition same_settings (g g' : GameLogic.t) : Prop :=
  GameLogic.width g' = GameLogic.width g
  /\ GameLogic.height g' = GameLogic.height g
  /\ GameLogic._next_id g' = GameLogic._next_id g
  /\ GameLogic.inventory_capacity g' = GameLogic.inventory_capacity g
  /\ GameLogic.deletion_zone g' = GameLogic.deletion_zone g.

(** The world after the balls [new] were captured from [g], in that
    order. *)
Definition captured (g : GameLogic.t) (new : list Ball.t) : GameLogic.t :=
  GameLogic.mk (GameLogic.width g) (GameLogic.height g)
    (fold_left (fun d b => dict_pop Z.eqb d (Ball.ball_id b)) new (GameLogic._balls g))
    (GameLogic._next_id g) (GameLogic.inventory_capacity g)
    (GameLogic.inventory g ++ new) (GameLogic.deletion_zone g) (GameLogic._rng g).

(** The inventory is within the capacity, when one is configured. *)
Definition within_capacity (g : GameLogic.t) : Prop :=
  match GameLogic.inventory_capacity g with
  | Some c => (Z.of_nat (length (GameLogic.inventory g)) <= c)%Z
  | None => True
  end.

(** A call of [suck_into_inventory] or of [spit_from_inventory], by its
    arguments, and the world after a sequence of such calls. *)
Inductive call : Type :=
| Suck (point : Vector2.t) (radius : R) (max_count : option Z)
| Spit (point : Vector2.t) (direction : option Vector2.t) (count : Z)
       (base_speed spread_degrees : R).

Definition run_call (g : GameLogic.t) (c : call) : GameLogic.t :=
  match c with
  | Suck point radius max_count =>
    snd (GameLogic.suck_into_inventory g point radius max_count)
  | Spit point direction count base_speed spread_degrees =>
    snd (GameLogic.spit_from_inventory g point direction count base_speed
           spread_degrees)
  end.

Definition run_calls (g : GameLogic.t) (calls : list call) : GameLogic.t :=
  fold_left run_call calls g.

Definition is_suck (c : call) : bool :=
  match c with Suck _ _ _ => true | Spit _ _ _ _ _ => false end.

Definition live_count (g : GameLogic.t) : nat := length (GameLogic._balls g).
Definition inventory_count (g : GameLogic.t) : nat := length (GameLogic.inventory g).

(** The ids of the balls of a world, live ones first. *)
Definition all_ids (g : GameLogic.t) : list Z :=
  dict_keys (GameLogic._balls g) ++ map Ball.ball_id (GameLogic.inventory g).

(** Ball ids are unique across the live map and the inventory, and a live
    ball is stored under its id. *)
Definition ids_unique (g : GameLogic.t) : Prop :=
  NoDup (all_ids g)
  /\ Forall (fun kb => fst kb = Ball.ball_id (snd kb)) (GameLogic._balls g).

(** Every id in use is below the next id to be assigned. *)
Definition ids_below_next (g : GameLogic.t) : Prop :=
  forall id, In id (all_ids g) -> (id < GameLogic._next_id g)%Z.

(** The worlds the operations of [GameLogic] produce. *)
Inductive reachable : GameLogic.t -> Prop :=
| reach_init width height initial_balls capacity rng g :
    GameLogic.__init__ width height initial_balls capacity rng = Ok g ->
    reachable g
| reach_create_ball g position velocity radius color ball g' :
    reachable g ->
    GameLogic.create_ball g position velocity radius color = Ok (ball, g') ->
    reachable g'
| reach_remove_ball g ball_id :
    reachable g -> reachable (GameLogic.remove_ball g ball_id)
| reach_set_deletion_zone g rect :
    reachable g -> reachable (GameLogic.set_deletion_zone g rect)
| reach_update g dt g' :
    reachable g -> GameLogic.update g dt = Ok g' -> reachable g'
| reach_call g c :
    reachable g -> reachable (run_call g c).

(** Two stores with the same keys and the same ball ids, in the same
    order. *)
Definition same_ids (balls balls' : dict Z Ball.t) : Prop :=
  Forall2
    (fun kb kb' => fst kb' = fst kb /\ Ball.ball_id (snd kb') = Ball.ball_id (snd kb))
    balls balls'.

(** The generator after [n] more draws. *)
Definition rng_skip (n : nat) (rng : Rng.t) : Rng.t :=
  Rng.mk (Rng.draws rng) (n + Rng.cursor rng).

(** The velocity a turn of the release loop gives its ball, from the
    generator at the start of the turn: two draws, the angle then the
    speed. *)
Definition emission (direction_norm : option Vector2.t)
    (base_speed spread_degrees : R) (rng : Rng.t) : Vector2.t :=
  let '(angle, rng) := GameLogic.spit_angle direction_norm spread_degrees rng in
  let '(u, _) := Rng.random rng in
  let speed := base_speed * (0.85 + 0.30 * u) in
  Vector2.mk (cos angle * speed) (sin angle * speed).

(** [direction_norm] of [spit_from_inventory]. *)
Definition direction_norm (direction : option Vector2.t) : option Vector2.t :=
  match direction with
  | None => None
  | Some d => Some (Vector2.normalized d)
  end.

(** A direction of negligible combined magnitude, as [gui.py] tests it. *)
Definition negligible (d : Vector2.t) : Prop :=
  Rabs (Vector2.x d) + Rabs (Vector2.y d) <= 0.01.

(** ** Sample worlds *)

Definition rng_half : Rng.t := Rng.mk (fun _ => 1 / 2) 0.

Definition red : Color.t := Color.mk 1 0 0.

Definition ball_at (id : Z) (px py vx vy : R) : Ball.t :=
  Ball.mk id (Vector2.mk px py) (Vector2.mk vx vy) 10 red.

Definition world_of (width height : R) (balls : dict Z Ball.t) (next_id : Z)
    : GameLogic.t :=
  GameLogic.mk width height balls next_id None [] None rng_half.

(** A 100 x 100 world, one ball at (99, 0) moving at (50, 0). *)
Definition wrap_world : GameLogic.t :=
  world_of 100 100 [(1%Z, ball_at 1 99 0 50 0)] 2.

(** A 100 x 100 world in which a ball was created at (150, 50). *)
Definition stray_ball : Ball.t := ball_at 1 150 50 0 0.
Definition stray_world : GameLogic.t := world_of 100 100 [(1%Z, stray_ball)] 2.

(** A world whose only ball has radius 8. *)
Definition small_ball : Ball.t :=
  Ball.mk 1 (Vector2.mk 10 10) (Vector2.mk 0 0) 8 red.
Definition small_world : GameLogic.t := world_of 100 100 [(1%Z, small_ball)] 2.

(** A world holding three balls in its inventory, captured in the order
    1, 2, 3, and one live ball. *)
Definition loaded_world : GameLogic.t :=
  GameLogic.mk 100 100 [(4%Z, ball_at 4 50 50 0 0)] 5 (Some 3%Z)
    [ball_at 1 10 10 0 0; ball_at 2 20 20 0 0; ball_at 3 30 30 0 0]
    None rng_half.

(** A world of capacity 2 holding one ball, with three live balls around
    (50, 50). *)
Definition crowded_world : GameLogic.t :=
  GameLogic.mk 100 100
    [(2%Z, ball_at 2 50 53 0 0); (3%Z, ball_at 3 51 50 0 0); (4%Z, ball_at 4 48 50 0 0)]
    5 (Some 2%Z) [ball_at 1 10 10 0 0] None rng_half.

(** The ball [loaded_world] releases first, with no direction given. *)
Definition spat_ball : Ball.t :=
  Ball.mk 3 (Vector2.mk 5 5) (emission None 200 20 rng_half) 10 red.

(** A half-saturated red. *)
Definition pink : Color.t := Color.mk 1 0.5 0.5.

(** A 100 x 100 world with the deletion zone [Rect(50, 50, 10, 10)], one
    ball inside it and one outside. *)
Definition zone_world : GameLogic.t :=
  GameLogic.mk 100 100
    [(1%Z, ball_at 1 55 55 0 0); (2%Z, ball_at 2 40 40 0 0)]
    3 None [] (Some (Rect.mk 50 50 10 10)) rng_half.

(** Two balls of radius 10 whose centers are 15 apart, one red, one
    blue. *)
Definition blue : Color.t := Color.mk 0 0 1.

Definition touching_world : GameLogic.t :=
  world_of 100 100
    [(1%Z, Ball.mk 1 (Vector2.mk 20 20) (Vector2.mk 0 0) 10 red);
     (2%Z, Ball.mk 2 (Vector2.mk 35 20) (Vector2.mk 0 0) 10 blue)]
    3.

(** The world [__init__] builds from three balls, with capacity 3. *)
Definition started_world : GameLogic.t :=
  GameLogic.mk 100 100
    [(1%Z, ball_at 1 10 10 0 0); (2%Z, ball_at 2 20 20 0 0); (3%Z, ball_at 3 30 30 0 0)]
    4 (Some 3%Z) [] None rng_half.

(** * Vocabulary of the further properties *)

(** The point lies in the deletion zone of the world, when it has one. *)
Definition in_zone (g : GameLogic.t) (p : Vector2.t) : bool :=
  match GameLogic.deletion_zone g with
  | Some zone => Rect.contains zone p
  | None => false
  end.

(** Two balls overlap, as [_maybe_mix] tests it. *)
Definition overlap (a b : Ball.t) : Prop :=
  let dx := Vector2.x (Ball.position b) - Vector2.x (Ball.position a) in
  let dy := Vector2.y (Ball.position b) - Vector2.y (Ball.position a) in
  dx * dx + dy * dy <= (Ball.radius a + Ball.radius b) * (Ball.radius a + Ball.radius b).

(** The settings of a world, [_next_id] apart. *)
Definition same_settings_but_next (g g' : GameLogic.t) : Prop :=
  GameLogic.width g' = GameLogic.width g
  /\ GameLogic.height g' = GameLogic.height g
  /\ GameLogic.inventory_capacity g' = GameLogic.inventory_capacity g
  /\ GameLogic.deletion_zone g' = GameLogic.deletion_zone g
  /\ GameLogic._rng g' = GameLogic._rng g.

(** The largest and the smallest component of a color, the [maxc] and
    [minc] of [rgb_to_hsv]. *)
Definition max_component (c : Color.t) : R :=
  Rmax (Rmax (Color.r c) (Color.g c)) (Color.b c).
Definition min_component (c : Color.t) : R :=
  Rmin (Rmin (Color.r c) (Color.g c)) (Color.b c).

(** The distance from [point] to the center of a ball, and the test
    [suck_into_inventory] selects its candidates by. *)
Definition distance (point : Vector2.t) (b : Ball.t) : R :=
  hypot (Vector2.x (Ball.position b) - Vector2.x point)
        (Vector2.y (Ball.position b) - Vector2.y point).

Definition in_reach (point : Vector2.t) (radius : R) (b : Ball.t) : bool :=
  Rleb ((Vector2.x (Ball.position b) - Vector2.x point)
        * (Vector2.x (Ball.position b) - Vector2.x point)
        + (Vector2.y (Ball.position b) - Vector2.y point)
          * (Vector2.y (Ball.position b) - Vector2.y point))
       (radius * radius).

(** How many of [n] items a limit leaves room for, [used] of it being
    taken already; no limit leaves room for all. *)
Definition quota (limit : option Z) (used n : nat) : nat :=
  match limit with
  | Some m => Nat.min n (Z.to_nat (m - Z.of_nat used))
  | None => n
  end.

(** What the mixing pass keeps of the store [balls0] when the ball [b0]
    under [k0] touches no other: the balls, their colors apart, and [b0]
    with its color. *)
Definition spared (balls0 : dict Z Ball.t) (k0 : Z) (b0 : Ball.t)
    (balls : dict Z Ball.t) : Prop :=
  same_but_colors balls0 balls /\ dict_get Z.eqb balls k0 = Some b0.

(** ** The application of [gui.py]

    What the handlers of [BallGameApp] read and write: the world, the
    last mouse position and the suck flag.  [last_spit_dir] stays [None]
    and decides nothing; [_render] and the drawing helpers write to the
    canvas and change nothing of the world; the Tk event loop is the list
    of the events it delivers, the timer of [_tick] among them. *)

Module Gui.

Definition WINDOW_WIDTH : R := 900.
Definition WINDOW_HEIGHT : R := 600.
Definition TARGET_FPS : R := 60.
Definition INITIAL_BALLS : Z := 50.

Definition DELETION_ZONE : Rect.t := Rect.mk (WINDOW_WIDTH - 180) 40 140 90.

Record t : Type := mk {
  logic : GameLogic.t;
  mouse_pos : option (R * R);
  is_sucking : bool
}.

(** The body of the loop of [_spawn_initial_balls], on the generator of
    seed 7: eight draws, then [create_ball]. *)
Definition spawn_ball (rng : Rng.t) (logic : GameLogic.t)
    : result (Rng.t * GameLogic.t) :=
  let '(x, rng) := Rng.uniform rng 30 (WINDOW_WIDTH - 30) in
  let '(y, rng) := Rng.uniform rng 30 (WINDOW_HEIGHT - 30) in
  let '(speed, rng) := Rng.uniform rng 30 120 in
  let '(angle, rng) := Rng.uniform rng 0 (2 * PI) in
  let vx := cos angle * speed in
  let vy := sin angle * speed in
  let '(radius, rng) := Rng.uniform rng 7 14 in
  let '(h, rng) := Rng.random rng in
  let '(u, rng) := Rng.random rng in
  let s := 0.7 + 0.3 * u in
  let '(u, rng) := Rng.random rng in
  let v := 0.8 + 0.2 * u in
  let color := Color.from_hsv h s v in
  ' (_, logic) <-
    GameLogic.create_ball logic (Vector2.mk x y) (Vector2.mk vx vy) radius color ;;
  Ok (rng, logic).

Fixpoint spawn_loop (n : nat) (rng : Rng.t) (logic : GameLogic.t)
    : result (Rng.t * GameLogic.t) :=
  match n with
  | O => Ok (rng, logic)
  | S n' =>
    ' (rng, logic) <- spawn_ball rng logic ;;
    spawn_loop n' rng logic
  end.

(** [_spawn_initial_balls(count)], with the generator [random.Random(7)]
    gives. *)
Definition _spawn_initial_balls (logic : GameLogic.t) (count : Z) (rng : Rng.t)
    : result GameLogic.t :=
  ' (_, logic) <- spawn_loop (Z.to_nat count) rng logic ;;
  Ok logic.

Definition _on_mouse_move (self : t) (x y : R) : t :=
  mk (logic self) (Some (x, y)) (is_sucking self).

Definition _on_mouse_down_left (self : t) (x y : R) : t :=
  mk (logic self) (Some (x, y)) true.

Definition _on_mouse_up_left (self : t) : t :=
  mk (logic self) (mouse_pos self) false.

(** [count=3]; [base_speed] and [spread_degrees] are the defaults. *)
Definition _on_mouse_down_right (self : t) (x y : R) : t :=
  let point := Vector2.mk x y in
  let direction := BallGameApp.spit_direction (mouse_pos self) x y in
  mk (snd (GameLogic.spit_from_inventory (logic self) point direction 3 200 20))
     (mouse_pos self) (is_sucking self).

(** The world after the suck of [_tick], if there is one. *)
Definition tick_suck (self : t) : GameLogic.t :=
  if is_sucking self then
    match mouse_pos self with
    | Some (mx, my) =>
      snd (GameLogic.suck_into_inventory (logic self) (Vector2.mk mx my) 60 (Some 4%Z))
    | None => logic self
    end
  else logic self.

Definition _tick (self : t) : result t :=
  let dt := 1 / TARGET_FPS in
  logic <- GameLogic.update (tick_suck self) dt ;;
  Ok (mk logic (mouse_pos self) (is_sucking self)).

(** [BallGameApp(root)]: the world of seed 42, the deletion zone, the
    initial balls, the mouse state, and the first [_tick]. *)
Definition __init__ (rng42 rng7 : Rng.t) : result t :=
  logic <- GameLogic.__init__ WINDOW_WIDTH WINDOW_HEIGHT None None rng42 ;;
  let logic := GameLogic.set_deletion_zone logic (Some DELETION_ZONE) in
  logic <- _spawn_initial_balls logic INITIAL_BALLS rng7 ;;
  _tick (mk logic None false).

(** What the event loop delivers. *)
Inductive event : Type :=
| Motion (x y : R)
| ButtonPress1 (x y : R)
| ButtonRelease1
| ButtonPress3 (x y : R)
| Timer.

Definition handle (self : t) (e : event) : result t :=
  match e with
  | Motion x y => Ok (_on_mouse_move self x y)
  | ButtonPress1 x y => Ok (_on_mouse_down_left self x y)
  | ButtonRelease1 => Ok (_on_mouse_up_left self)
  | ButtonPress3 x y => Ok (_on_mouse_down_right self x y)
  | Timer => _tick self
  end.

Fixpoint run (self : t) (events : list event) : result t :=
  match events with
  | [] => Ok self
  | e :: events' =>
    self' <- handle self e ;;
    run self' events'
  end.

End Gui.

(** A ball as [_spawn_initial_balls] makes it: 30 inside the window,
    slower than 120, of radius below 14, of a color with components in
    [0, 1]. *)
Definition spawned (b : Ball.t) : Prop :=
  30 <= Vector2.x (Ball.position b) < Gui.WINDOW_WIDTH - 30
  /\ 30 <= Vector2.y (Ball.position b) < Gui.WINDOW_HEIGHT - 30
  /\ 30 <= Vector2.length (Ball.velocity b) < 120
  /\ 7 <= Ball.radius b < 14
  /\ Color.valid (Ball.color b).

(** What stays true of a ball of the application, wherever it is. *)
Definition app_ball (b : Ball.t) : Prop :=
  7 <= Ball.radius b < 14 /\ Color.valid (Ball.color b).

(** What stays true of the world of the application between two
    events. *)
Definition app_world (g : GameLogic.t) : Prop :=
  reachable g
  /\ GameLogic.width g = Gui.WINDOW_WIDTH
  /\ GameLogic.height g = Gui.WINDOW_HEIGHT
  /\ GameLogic.deletion_zone g = Some Gui.DELETION_ZONE
  /\ GameLogic.inventory_capacity g = None
  /\ (forall b,
        In b (GameLogic.list_balls g) \/ In b (GameLogic.inventory g) -> app_ball b)
  /\ (live_count g + inventory_count g <= Z.to_nat Gui.INITIAL_BALLS)%nat.

(** A world of the application with a ball under a cursor at (100, 100),
    a ball one step from the deletion zone and a ball one step from the
    right edge of the window; and the same world after a suck at the
    cursor. *)
Definition app_sample : GameLogic.t :=
  GameLogic.mk Gui.WINDOW_WIDTH Gui.WINDOW_HEIGHT
    [(1%Z, ball_at 1 100 100 60 0); (2%Z, ball_at 2 719 50 120 0);
     (3%Z, ball_at 3 899 300 120 0)]
    4 None [] (Some Gui.DELETION_ZONE) rng_half.

Definition app_loaded : GameLogic.t :=
  GameLogic.mk Gui.WINDOW_WIDTH Gui.WINDOW_HEIGHT
    [(2%Z, ball_at 2 719 50 120 0); (3%Z, ball_at 3 899 300 120 0)]
    4 None [ball_at 1 100 100 60 0] (Some Gui.DELETION_ZONE) rng_half.

(** * Properties *)

(** ** Deciding comparisons *)

Lemma Rleb_true (a b : R) : a <= b -> Rleb a b = true.
Proof. unfold Rleb; destruct (Rle_dec a b); tauto. Qed.

Lemma Rleb_false (a b : R) : b < a -> Rleb a b = false.
Proof. unfold Rleb; destruct (Rle_dec a b); [lra | reflexivity]. Qed.

Lemma Rltb_true (a b : R) : a < b -> Rltb a b = true.
Proof. unfold Rltb; destruct (Rlt_dec a b); tauto. Qed.

Lemma Rltb_false (a b : R) : b <= a -> Rltb a b = false.
Proof. unfold Rltb; destruct (Rlt_dec a b); [lra | reflexivity]. Qed.

Lemma Reqb_true (a b : R) : a = b -> Reqb a b = true.
Proof. unfold Reqb; destruct (Req_dec_T a b); tauto. Qed.

Lemma Reqb_false (a b : R) : a <> b -> Reqb a b = false.
Proof. unfold Reqb; destruct (Req_dec_T a b); tauto. Qed.

(** Settles the comparisons, maxima and minima of a goal whose operands are
    known numbers, innermost first. *)
Ltac rdecide :=
  repeat
    match goal with
    | |- context [Rleb ?a ?b] =>
      first [rewrite (Rleb_true a b) by lra | rewrite (Rleb_false a b) by lra]
    | |- context [Rltb ?a ?b] =>
      first [rewrite (Rltb_true a b) by lra | rewrite (Rltb_false a b) by lra]
    | |- context [Reqb ?a ?b] =>
      first [rewrite (Reqb_true a b) by lra | rewrite (Reqb_false a b) by lra]
    | |- context [Rmax ?a ?b] =>
      first [rewrite (Rmax_left a b) by lra | rewrite (Rmax_right a b) by lra]
    | |- context [Rmin ?a ?b] =>
      first [rewrite (Rmin_left a b) by lra | rewrite (Rmin_right a b) by lra]
    end.

(** ** Floor and modulo *)

Lemma floor_unique (a : R) (z : Z) : IZR z <= a < IZR z + 1 -> floor a = z.
Proof.
  intros H. unfold floor. symmetry. apply Int_part_spec. lra.
Qed.

Lemma floor_bounds (a : R) : IZR (floor a) <= a < IZR (floor a) + 1.
Proof.
  unfold floor. destruct (base_Int_part a). lra.
Qed.

Lemma pymod_bounds (a w : R) : 0 < w -> 0 <= pymod a w < w.
Proof.
  intros Hw. unfold pymod.
  pose proof (floor_bounds (a / w)) as [Hlo Hhi].
  assert (Ha : a = a / w * w) by (field; lra).
  split.
  - assert (IZR (floor (a / w)) * w <= a / w * w) by (apply Rmult_le_compat_r; lra).
    lra.
  - assert (a / w * w < (IZR (floor (a / w)) + 1) * w) by (apply Rmult_lt_compat_r; lra).
    lra.
Qed.

Lemma pymod_small (a w : R) : 0 <= a < w -> pymod a w = a.
Proof.
  intros H. unfold pymod.
  rewrite (floor_unique (a / w) 0).
  - lra.
  - assert (0 < w) by lra. split.
    + apply Rmult_le_reg_r with w; [lra|]. unfold Rdiv.
      rewrite Rmult_assoc, Rinv_l by lra. lra.
    + apply Rmult_lt_reg_r with w; [lra|]. unfold Rdiv.
      rewrite Rmult_assoc, Rinv_l by lra. lra.
Qed.

(** ** Dictionaries *)

Section DictFacts.

Context {K V : Type}.
Variable eqb : K -> K -> bool.

Lemma dict_get_In (d : dict K V) (k : K) (v : V) :
  dict_get eqb d k = Some v -> In v (dict_values d).
Proof.
  induction d as [|[k' v'] d IH]; simpl; [discriminate|].
  destruct (eqb k k'); intros H.
  - injection H as ->. now left.
  - right. now apply IH.
Qed.

Lemma dict_set_values (d : dict K V) (k : K) (v u : V) :
  In u (dict_values (dict_set eqb d k v)) -> u = v \/ In u (dict_values d).
Proof.
  induction d as [|[k' v'] d IH]; simpl.
  - intros [H|[]]; auto.
  - destruct (eqb k k'); simpl; intros [H|H]; auto.
    destruct (IH H); auto.
Qed.

Lemma dict_pop_values (d : dict K V) (k : K) (u : V) :
  In u (dict_values (dict_pop eqb d k)) -> In u (dict_values d).
Proof.
  induction d as [|[k' v'] d IH]; simpl; [tauto|].
  destruct (eqb k k'); simpl; intros H; auto.
  destruct H; auto.
Qed.

End DictFacts.

(** ** Colors stay in range *)

Lemma clamp_valid (c : Color.t) : Color.valid (Color.clamp c).
Proof.
  unfold Color.valid, Color.clamp; simpl.
  repeat split;
    (apply Rmin_glb; [lra | apply Rmax_l]) || apply Rmin_l.
Qed.

Lemma clamp_id (c : Color.t) : Color.valid c -> Color.clamp c = c.
Proof.
  destruct c as [r g b]. unfold Color.valid, Color.clamp; simpl.
  intros (Hr & Hg & Hb).
  rewrite !(Rmax_right 0) by lra. rewrite !Rmin_right by lra. reflexivity.
Qed.

Lemma mix_colors_valid (c1 c2 m : Color.t) :
  mix_colors c1 c2 = Ok m -> Color.valid m.
Proof.
  unfold mix_colors.
  destruct (Color.to_hsv c1) as [[[h1 s1] v1]|]; simpl; [|discriminate].
  destruct (Color.to_hsv c2) as [[[h2 s2] v2]|]; simpl; [|discriminate].
  intros H. injection H as <-. apply clamp_valid.
Qed.

(** On a color in range [to_hsv] does not divide by zero, and each of the
    hue, the saturation and the value is in range. *)
Lemma to_hsv_valid (c : Color.t) :
  Color.valid c ->
  exists h s v, Color.to_hsv c = Ok (h, s, v)
                /\ 0 <= h < 1 /\ 0 <= s <= 1 /\ 0 <= v <= 1.
Proof.
  destruct c as [r g b]. unfold Color.valid, Color.to_hsv, rgb_to_hsv; simpl.
  intros (Hr & Hg & Hb).
  set (maxc := Rmax (Rmax r g) b). set (minc := Rmin (Rmin r g) b).
  assert (Hmax : 0 <= maxc <= 1).
  { unfold maxc. split.
    - apply Rle_trans with b; [lra | apply Rmax_r].
    - apply Rmax_lub; [apply Rmax_lub|]; lra. }
  assert (Hmin : 0 <= minc <= maxc).
  { unfold minc, maxc. split.
    - apply Rmin_glb; [apply Rmin_glb|]; lra.
    - apply Rle_trans with b; [apply Rmin_r | apply Rmax_r]. }
  unfold Reqb at 1. destruct (Req_dec_T minc maxc) as [E|NE].
  - exists 0, 0, maxc. repeat split; lra.
  - assert (Hpos : 0 < maxc) by lra.
    unfold float_div. rewrite Reqb_false by lra. simpl.
    eexists _, _, _. split; [reflexivity|]. split; [|split].
    + apply pymod_bounds. lra.
    + split.
      * apply Rmult_le_reg_r with maxc; [lra|]. unfold Rdiv.
        rewrite Rmult_assoc, Rinv_l by lra. lra.
      * apply Rmult_le_reg_r with maxc; [lra|]. unfold Rdiv.
        rewrite Rmult_assoc, Rinv_l by lra. lra.
    + lra.
Qed.

Lemma mix_colors_ok (c1 c2 : Color.t) :
  Color.valid c1 -> Color.valid c2 ->
  exists m, mix_colors c1 c2 = Ok m /\ Color.valid m.
Proof.
  intros H1 H2.
  destruct (to_hsv_valid c1 H1) as (h1 & s1 & v1 & E1 & _).
  destruct (to_hsv_valid c2 H2) as (h2 & s2 & v2 & E2 & _).
  unfold mix_colors. rewrite E1, E2. simpl.
  eexists. split; [reflexivity | apply clamp_valid].
Qed.

Lemma dict_get_set (d : dict Z Ball.t) (k k' : Z) (v : Ball.t) :
  dict_get Z.eqb (dict_set Z.eqb d k v) k'
  = if (k' =? k)%Z then Some v else dict_get Z.eqb d k'.
Proof.
  induction d as [|[k0 v0] d IH]; simpl.
  - destruct (Z.eqb_spec k' k); reflexivity.
  - destruct (Z.eqb_spec k k0) as [->|Hk]; simpl.
    + destruct (Z.eqb_spec k' k0); reflexivity.
    + destruct (Z.eqb_spec k' k0) as [->|Hk'].
      * destruct (Z.eqb_spec k0 k); [congruence | reflexivity].
      * exact IH.
Qed.

(** ** The color-mixing pass changes colors only

    [P] is a property of the store that survives a change of color of one
    of its balls; [E] is what is known when the pass raised.  With
    [E := True] this says what a pass that returns keeps; with
    [E := False], and [P] implying colors in range, that the pass does
    return. *)

Section MixingInvariant.

Variable P : dict Z Ball.t -> Prop.
Variable E : Prop.
Hypothesis P_recolor :
  forall balls k a m,
    P balls -> dict_get Z.eqb balls k = Some a -> Color.valid m ->
    P (dict_set Z.eqb balls k (Ball.set_color a m)).
Hypothesis P_valid :
  forall balls k a,
    P balls -> dict_get Z.eqb balls k = Some a ->
    Color.valid (Ball.color a) \/ E.

Lemma _maybe_mix_holds (balls : dict Z Ball.t) (ka kb : Z) :
  P balls -> holds P E (GameLogic._maybe_mix balls ka kb).
Proof.
  intros H. unfold GameLogic._maybe_mix.
  destruct (dict_get Z.eqb balls ka) as [a|] eqn:Ea; [|exact H].
  destruct (dict_get Z.eqb balls kb) as [b|] eqn:Eb; [|exact H].
  destruct (Rleb _ _); [|exact H].
  destruct (mix_colors (Ball.color a) (Ball.color b)) as [m|e] eqn:Em; simpl.
  - pose proof (mix_colors_valid _ _ _ Em) as Hm.
    pose proof (P_recolor _ _ _ m H Ea Hm) as H1.
    destruct (Z.eqb_spec kb ka) as [->|Hk].
    + assert (b = a) by congruence. subst b.
      replace (Ball.set_color a m) with (Ball.set_color (Ball.set_color a m) m) at 2
        by reflexivity.
      apply P_recolor; [exact H1 | | exact Hm].
      rewrite dict_get_set, Z.eqb_refl. reflexivity.
    + apply P_recolor; [exact H1 | | exact Hm].
      rewrite dict_get_set. destruct (Z.eqb_spec kb ka); [contradiction | exact Eb].
  - destruct (P_valid _ _ _ H Ea) as [Va|]; [|assumption].
    destruct (P_valid _ _ _ H Eb) as [Vb|]; [|assumption].
    destruct (mix_colors_ok _ _ Va Vb) as (m & Hm & _). congruence.
Qed.

Lemma mix_pair_holds (ka kb : Z) (acc : result (dict Z Ball.t)) :
  holds P E acc -> holds P E (GameLogic.mix_pair ka acc kb).
Proof.
  destruct acc as [balls|e]; simpl; [|tauto].
  intros H.
  destruct (dict_get Z.eqb balls ka) as [a|]; [|exact H].
  destruct (dict_get Z.eqb balls kb) as [b|]; [|exact H].
  destruct (Ball.ball_id b <=? Ball.ball_id a)%Z; [exact H|].
  now apply _maybe_mix_holds.
Qed.

Lemma mix_bucket_holds (nbrs bucket : list Z) (acc : result (dict Z Ball.t)) :
  holds P E acc ->
  holds P E
    (fold_left (fun acc ka => fold_left (GameLogic.mix_pair ka) nbrs acc)
               bucket acc).
Proof.
  revert acc. induction bucket as [|ka bucket IH]; simpl; intros acc H; [exact H|].
  apply IH. clear IH. revert acc H.
  induction nbrs as [|kb nbrs IH]; simpl; intros acc H; [exact H|].
  apply IH. now apply mix_pair_holds.
Qed.

Lemma mix_cells_holds (grid cells : dict (Z * Z) (list Z))
    (acc : result (dict Z Ball.t)) :
  holds P E acc -> holds P E (fold_left (GameLogic.mix_cell grid) cells acc).
Proof.
  revert acc. induction cells as [|entry cells IH]; simpl; intros acc H; [exact H|].
  apply IH. unfold GameLogic.mix_cell. now apply mix_bucket_holds.
Qed.

End MixingInvariant.

Lemma Forall2_In_r {A B : Type} (R : A -> B -> Prop) (l : list A) (l' : list B)
    (y : B) :
  Forall2 R l l' -> In y l' -> exists x, In x l /\ R x y.
Proof.
  induction 1 as [|x0 y0 l l' HR _ IH]; simpl; [tauto|].
  intros [<-|Hy].
  - exists x0. auto.
  - destruct (IH Hy) as (x & Hx & Hxy). exists x. auto.
Qed.

Lemma same_but_colors_refl (balls : dict Z Ball.t) : same_but_colors balls balls.
Proof.
  induction balls as [|[k b] balls IH]; constructor; [|exact IH].
  split; [reflexivity|]. now destruct b.
Qed.

Lemma same_but_colors_set (balls0 balls : dict Z Ball.t) (k : Z) (a : Ball.t)
    (m : Color.t) :
  same_but_colors balls0 balls -> dict_get Z.eqb balls k = Some a ->
  same_but_colors balls0 (dict_set Z.eqb balls k (Ball.set_color a m)).
Proof.
  unfold same_but_colors. intros H. revert a.
  induction H as [|[k0 b0] [k1 b1] l l' [Hk Hb] H IH]; simpl; intros a Ha;
    [discriminate|].
  simpl in Hk, Hb. subst k1.
  destruct (Z.eqb_spec k k0) as [->|Hne].
  - injection Ha as <-. constructor; [|exact H]. split; [reflexivity|].
    simpl. unfold recolored in *. rewrite <- Hb. reflexivity.
  - constructor; [now split | now apply IH].
Qed.

Lemma same_but_colors_In (balls balls' : dict Z Ball.t) (b' : Ball.t) :
  same_but_colors balls balls' -> In b' (dict_values balls') ->
  exists b, In b (dict_values balls) /\ recolored b b'.
Proof.
  intros H Hin. apply in_map_iff in Hin as (kb' & <- & Hin).
  destruct (Forall2_In_r _ _ _ _ H Hin) as (kb & Hkb & _ & Hb).
  exists (snd kb). split; [now apply in_map | exact Hb].
Qed.

Lemma _apply_color_mixing_frame (E : Prop) (g : GameLogic.t) :
  (forall b, In b (GameLogic.list_balls g) -> Color.valid (Ball.color b) \/ E) ->
  match GameLogic._apply_color_mixing g with
  | Ok g' =>
    exists balls',
      g' = GameLogic.set_balls g balls'
      /\ same_but_colors (GameLogic._balls g) balls'
  | Raise _ => E
  end.
Proof.
  intros Hcol. unfold GameLogic._apply_color_mixing.
  set (P := fun balls =>
              same_but_colors (GameLogic._balls g) balls
              /\ forall b, In b (dict_values balls) -> Color.valid (Ball.color b) \/ E).
  assert (H : holds P E
                (fold_left
                   (GameLogic.mix_cell
                      (GameLogic.build_grid (GameLogic.cell_size g) (GameLogic._balls g)))
                   (GameLogic.build_grid (GameLogic.cell_size g) (GameLogic._balls g))
                   (Ok (GameLogic._balls g)))).
  { apply mix_cells_holds.
    - intros balls k a m [Hs Hv] Ha Hm. split.
      + now apply same_but_colors_set.
      + intros b Hb. apply dict_set_values in Hb as [->|Hb]; [now left | now apply Hv].
    - intros balls k a [_ Hv] Ha. apply Hv. eapply dict_get_In. exact Ha.
    - split; [apply same_but_colors_refl | exact Hcol]. }
  destruct (fold_left _ _ _) as [balls'|e]; simpl in *; [|exact H].
  exists balls'. split; [reflexivity | apply H].
Qed.

(** ** C1: the wrap *)

Lemma integrate_all_ok (g : GameLogic.t) (dt : R) (balls : dict Z Ball.t) :
  GameLogic.width g <> 0 -> GameLogic.height g <> 0 ->
  GameLogic.integrate_all g dt balls
  = Ok (map (fun kb => (fst kb, moved g dt (snd kb))) balls).
Proof.
  intros Hw Hh. induction balls as [|[k b] balls IH]; simpl; [reflexivity|].
  unfold GameLogic.integrate, float_mod.
  rewrite !Reqb_false by assumption. simpl. rewrite IH. reflexivity.
Qed.

Lemma remove_ball_values (g : GameLogic.t) (k : Z) (b : Ball.t) :
  In b (GameLogic.list_balls (GameLogic.remove_ball g k)) ->
  In b (GameLogic.list_balls g).
Proof.
  unfold GameLogic.remove_ball, GameLogic.list_balls.
  destruct (dict_mem _ _ _); simpl; [apply dict_pop_values | tauto].
Qed.

Lemma remove_ball_dims (g : GameLogic.t) (k : Z) :
  GameLogic.width (GameLogic.remove_ball g k) = GameLogic.width g
  /\ GameLogic.height (GameLogic.remove_ball g k) = GameLogic.height g.
Proof.
  unfold GameLogic.remove_ball. destruct (dict_mem _ _ _); simpl; tauto.
Qed.

Lemma cull_values (g : GameLogic.t) (b : Ball.t) :
  In b (GameLogic.list_balls (GameLogic.cull g)) -> In b (GameLogic.list_balls g).
Proof.
  unfold GameLogic.cull. destruct (GameLogic.deletion_zone g) as [zone|]; [|tauto].
  generalize (map Ball.ball_id
    (filter (fun ball => Rect.contains zone (Ball.position ball))
       (dict_values (GameLogic._balls g)))).
  intros ids. revert g. induction ids as [|k ids IH]; simpl; intros g H; [exact H|].
  apply remove_ball_values with k. now apply IH.
Qed.

Lemma cull_dims (g : GameLogic.t) :
  GameLogic.width (GameLogic.cull g) = GameLogic.width g
  /\ GameLogic.height (GameLogic.cull g) = GameLogic.height g.
Proof.
  unfold GameLogic.cull. destruct (GameLogic.deletion_zone g) as [zone|]; [|tauto].
  generalize (map Ball.ball_id
    (filter (fun ball => Rect.contains zone (Ball.position ball))
       (dict_values (GameLogic._balls g)))).
  intros ids. revert g. induction ids as [|k ids IH]; simpl; intros g; [tauto|].
  destruct (IH (GameLogic.remove_ball g k)) as [-> ->]. apply remove_ball_dims.
Qed.

Lemma integrated_values (g : GameLogic.t) (dt : R) (b' : Ball.t) :
  In b' (GameLogic.list_balls (integrated g dt)) ->
  exists b, In b (GameLogic.list_balls g) /\ b' = moved g dt b.
Proof.
  intros H. apply cull_values in H. unfold GameLogic.list_balls in *. simpl in H.
  unfold dict_values in *. rewrite map_map in H. simpl in H.
  apply in_map_iff in H as (kb & <- & Hin). exists (snd kb).
  split; [now apply in_map | reflexivity].
Qed.

(** For [dt > 0], [update] is the mixing pass on the integrated world: it
    returns that world with, at most, other colors. *)
Lemma update_frame (E : Prop) (g : GameLogic.t) (dt : R) :
  0 < dt -> GameLogic.width g <> 0 -> GameLogic.height g <> 0 ->
  (forall b, In b (GameLogic.list_balls g) -> Color.valid (Ball.color b) \/ E) ->
  match GameLogic.update g dt with
  | Ok g' =>
    exists balls',
      g' = GameLogic.set_balls (integrated g dt) balls'
      /\ same_but_colors (GameLogic._balls (integrated g dt)) balls'
  | Raise _ => E
  end.
Proof.
  intros Hdt Hw Hh Hcol. unfold GameLogic.update.
  rewrite Rleb_false by lra. rewrite integrate_all_ok by assumption. simpl.
  apply _apply_color_mixing_frame.
  intros b' Hb'. apply integrated_values in Hb' as (b & Hb & ->).
  exact (Hcol b Hb).
Qed.

(** [update] on a world of non-zero size whose colors are in range
    returns. *)
Lemma update_returns (g : GameLogic.t) (dt : R) :
  GameLogic.width g <> 0 -> GameLogic.height g <> 0 ->
  (forall b, In b (GameLogic.list_balls g) -> Color.valid (Ball.color b)) ->
  exists g', GameLogic.update g dt = Ok g'.
Proof.
  intros Hw Hh Hcol. destruct (Rlt_dec 0 dt) as [Hdt|Hdt].
  - pose proof (update_frame False g dt Hdt Hw Hh
                  (fun b Hb => or_introl (Hcol b Hb))) as H.
    destruct (GameLogic.update g dt) as [g'|e]; [now exists g' | destruct H].
  - exists g. unfold GameLogic.update. now rewrite Rleb_true by lra.
Qed.

(** C1, as amended: [update(dt)] with [dt <= 0] is a no-op; for [dt > 0],
    in a world of positive width and height, every live ball's position
    after an [update(dt)] that returns satisfies [0 <= x <= width] and
    [0 <= y <= height]. *)
Theorem update_wraps_positions (g : GameLogic.t) (dt : R) :
  (dt <= 0 -> GameLogic.update g dt = Ok g)
  /\ (0 < dt -> 0 < GameLogic.width g -> 0 < GameLogic.height g ->
      forall g', GameLogic.update g dt = Ok g' ->
      forall b, In b (GameLogic.list_balls g') -> wrapped g' b).
Proof.
  split.
  - intros Hdt. unfold GameLogic.update. now rewrite Rleb_true.
  - intros Hdt Hw Hh g' Hg' b' Hb'.
    pose proof (update_frame True g dt Hdt) as H.
    rewrite Hg' in H.
    destruct H as (balls' & -> & Hsame); try lra; [now right|].
    destruct (same_but_colors_In _ _ _ Hsame Hb') as (b1 & Hb1 & Hrec).
    apply integrated_values in Hb1 as (b & _ & ->).
    destruct (cull_dims
                (GameLogic.set_balls g
                   (map (fun kb => (fst kb, moved g dt (snd kb))) (GameLogic._balls g))))
      as [Ew Eh].
    unfold wrapped, integrated. simpl. rewrite Ew, Eh. simpl.
    rewrite <- Hrec. simpl.
    pose proof (pymod_bounds
                  (Vector2.x (Ball.position b) + Vector2.x (Ball.velocity b) * dt)
                  (GameLogic.width g) Hw).
    pose proof (pymod_bounds
                  (Vector2.y (Ball.position b) + Vector2.y (Ball.velocity b) * dt)
                  (GameLogic.height g) Hh).
    lra.
Qed.

(** The theorem at the world of the wrap scenario, for [dt = 1]: the call
    returns, and the ball that left at (99, 0) with velocity (50, 0) is
    back inside. *)
Lemma update_wraps_positions_witness :
  0 < 1 /\ 0 < GameLogic.width wrap_world /\ 0 < GameLogic.height wrap_world
  /\ exists g',
       GameLogic.update wrap_world 1 = Ok g'
       /\ forall b, In b (GameLogic.list_balls g') -> wrapped g' b.
Proof.
  assert (H1 : 0 < 1) by lra.
  assert (Hw : 0 < GameLogic.width wrap_world) by (simpl; lra).
  assert (Hh : 0 < GameLogic.height wrap_world) by (simpl; lra).
  repeat (split; [assumption|]).
  destruct (update_returns wrap_world 1) as [g' E]; [simpl; lra | simpl; lra | |].
  { intros b [<-|[]]. unfold Color.valid. simpl. lra. }
  exists g'. split; [exact E|].
  exact (proj2 (update_wraps_positions wrap_world 1) H1 Hw Hh g' E).
Defined.

(** C1 as stated fails at [dt = 0]: [update(0)] returns at once, and a ball
    created at (150, 50) in a 100 x 100 world stays there. *)
Lemma update_zero_dt_leaves_ball_outside :
  0 <= 0
  /\ GameLogic.create_ball (world_of 100 100 [] 1) (Vector2.mk 150 50) (Vector2.mk 0 0)
       10 red
     = Ok (stray_ball, stray_world)
  /\ GameLogic.update stray_world 0 = Ok stray_world
  /\ In stray_ball (GameLogic.list_balls stray_world)
  /\ ~ in_bounds stray_world stray_ball.
Proof.
  split; [lra|]. split; [reflexivity|]. split; [|split].
  - unfold GameLogic.update. rewrite Rleb_true by lra. reflexivity.
  - simpl. now left.
  - unfold in_bounds. simpl. lra.
Qed.

(** ** C2: the cell size of the mixing pass *)

Lemma _estimate_cell_size_spec (g : GameLogic.t) :
  GameLogic._estimate_cell_size g = spec_cell_size (GameLogic.list_balls g).
Proof.
  unfold GameLogic._estimate_cell_size, spec_cell_size, clamp, average_radius.
  destruct (GameLogic.list_balls g); reflexivity.
Qed.

Lemma build_grid_buckets (cs : R) (balls : dict Z Ball.t) (c : Z * Z)
    (bucket : list Z) (k : Z) :
  In (c, bucket) (GameLogic.build_grid cs balls) -> In k bucket ->
  exists ball, In (k, ball) balls /\ GameLogic.cell_of cs ball = c.
Proof.
  unfold GameLogic.build_grid.
  assert (Hset : forall (grid : dict (Z * Z) (list Z)) key l c0 b0,
            In (c0, b0) (dict_set cell_eqb grid key l) ->
            (c0 = key /\ b0 = l) \/ In (c0, b0) grid).
  { induction grid as [|[k0 v0] grid IH]; simpl; intros key l c0 b0.
    - intros [H|[]]. injection H as <- <-. now left.
    - destruct (cell_eqb key k0); simpl.
      + intros [H|H]; [injection H as <- <-; now left | now right; right].
      + intros [H|H]; [now right; left|].
        destruct (IH _ _ _ _ H); [now left | now right; right]. }
  assert (Hget : forall (grid : dict (Z * Z) (list Z)) key l,
            dict_get cell_eqb grid key = Some l -> exists key', In (key', l) grid
              /\ cell_eqb key key' = true).
  { induction grid as [|[k0 v0] grid IH]; simpl; intros key l; [discriminate|].
    destruct (cell_eqb key k0) eqn:Ek.
    - intros H. injection H as <-. exists k0. split; [now left | exact Ek].
    - intros H. destruct (IH _ _ H) as (key' & Hin & Hk). exists key'. auto. }
  assert (Heq : forall c1 c2, cell_eqb c1 c2 = true -> c1 = c2).
  { intros [a1 b1] [a2 b2]. unfold cell_eqb. simpl. intros H.
    apply andb_true_iff in H as [Ha Hb].
    apply Z.eqb_eq in Ha, Hb. now subst. }
  intros Hin Hk.
  enough (G : forall (grid : dict (Z * Z) (list Z)),
             (forall c bucket k, In (c, bucket) grid -> In k bucket ->
                exists ball, In (k, ball) balls /\ GameLogic.cell_of cs ball = c) ->
             forall rest, (forall kb, In kb rest -> In kb balls) ->
             forall c bucket k,
               In (c, bucket)
                  (fold_left
                     (fun grid '(k, ball) =>
                        GameLogic.grid_add grid (GameLogic.cell_of cs ball) k)
                     rest grid) ->
               In k bucket ->
               exists ball, In (k, ball) balls /\ GameLogic.cell_of cs ball = c).
  { apply (G [] ltac:(intros ? ? ? []) balls ltac:(auto) c bucket k Hin Hk). }
  clear c bucket k Hin Hk.
  intros grid Hgrid rest. revert grid Hgrid.
  induction rest as [|[k0 b0] rest IH]; simpl; intros grid Hgrid Hsub c bucket k.
  - apply Hgrid.
  - apply IH; [|auto].
    intros c1 bucket1 k1 Hin1 Hk1. unfold GameLogic.grid_add in Hin1.
    destruct (dict_get cell_eqb grid (GameLogic.cell_of cs b0)) as [l|] eqn:El.
    + apply Hset in Hin1 as [[-> ->]|Hin1]; [|eauto].
      apply in_app_iff in Hk1 as [Hk1|[<-|[]]].
      * destruct (Hget _ _ _ El) as (key' & Hin' & Hkey).
        apply Heq in Hkey. rewrite Hkey. eauto.
      * exists b0. split; [apply Hsub; now left | reflexivity].
    + apply Hset in Hin1 as [[-> ->]|Hin1]; [|eauto].
      destruct Hk1 as [<-|[]].
      exists b0. split; [apply Hsub; now left | reflexivity].
Qed.

(** C2, as amended: the cell size of the mixing pass is
    [max(32, clamp(average_radius * 2.5, 16, 128))], that is
    [clamp(average_radius * 2.5, 32, 128)], over the live balls, and 64 when
    there is none; it is the size every ball of the grid is bucketed by. *)
Theorem mixing_cell_size (g : GameLogic.t) :
  GameLogic.cell_size g = Rmax 32 (spec_cell_size (GameLogic.list_balls g))
  /\ GameLogic.cell_size g
     = match GameLogic.list_balls g with
       | [] => 64
       | balls => clamp (average_radius balls * 2.5) 32 128
       end
  /\ (forall c bucket k,
        In (c, bucket)
           (GameLogic.build_grid (GameLogic.cell_size g) (GameLogic._balls g)) ->
        In k bucket ->
        exists ball,
          In (k, ball) (GameLogic._balls g)
          /\ c = GameLogic.cell_of (GameLogic.cell_size g) ball).
Proof.
  split; [|split].
  - unfold GameLogic.cell_size. now rewrite _estimate_cell_size_spec.
  - unfold GameLogic.cell_size. rewrite _estimate_cell_size_spec.
    unfold spec_cell_size.
    destruct (GameLogic.list_balls g) as [|b balls].
    + apply Rmax_right. lra.
    + generalize (average_radius (b :: balls) * 2.5). intros a.
      unfold clamp, Rmax, Rmin.
      repeat destruct (Rle_dec _ _); lra.
  - intros c bucket k Hin Hk.
    destruct (build_grid_buckets _ _ _ _ _ Hin Hk) as (ball & Hb & <-).
    now exists ball.
Qed.

(** C2 as stated fails for small balls: with one ball of radius 8 the
    claimed size is [clamp(20, 16, 128) = 20], and the pass uses 32. *)
Lemma cell_size_of_small_balls :
  spec_cell_size (GameLogic.list_balls small_world) = 20
  /\ GameLogic.cell_size small_world = 32
  /\ GameLogic.cell_size small_world
     <> spec_cell_size (GameLogic.list_balls small_world).
Proof.
  assert (E : spec_cell_size (GameLogic.list_balls small_world) = 20).
  { unfold spec_cell_size, clamp, average_radius, sum. simpl.
    replace ((0 + 8) / 1 * 2.5) with 20 by lra. now rdecide. }
  assert (E' : GameLogic.cell_size small_world = 32).
  { unfold GameLogic.cell_size. rewrite _estimate_cell_size_spec, E.
    apply Rmax_left. lra. }
  rewrite E, E'. repeat split. lra.
Qed.

(** ** The release loop *)

Lemma spit_angle_cursor (dn : option Vector2.t) (sd : R) (rng : Rng.t) :
  snd (GameLogic.spit_angle dn sd rng)
  = Rng.mk (Rng.draws rng) (S (Rng.cursor rng)).
Proof. destruct dn; reflexivity. Qed.

Lemma spit_loop_spec (point : Vector2.t) (dn : option Vector2.t) (bs sd : R)
    (n : nat) :
  forall (g : GameLogic.t) (emitted : list Ball.t),
    (n <= length (GameLogic.inventory g))%nat ->
    exists new g',
      GameLogic.spit_loop n point dn bs sd g emitted = (emitted ++ new, g')
      /\ Forall2 (released_at point) new (firstn n (rev (GameLogic.inventory g)))
      /\ rev (GameLogic.inventory g') = skipn n (rev (GameLogic.inventory g))
      /\ same_settings g g'.
Proof.
  induction n as [|n IH]; intros g emitted Hn.
  - exists [], g. simpl. rewrite app_nil_r.
    repeat split; constructor.
  - simpl. unfold list_pop.
    destruct (rev (GameLogic.inventory g)) as [|b r] eqn:Er.
    + apply (f_equal (@length _)) in Er. rewrite length_rev in Er. simpl in Er. lia.
    + destruct (GameLogic.spit_angle dn sd (GameLogic._rng g)) as [angle rng1].
      simpl.
      match goal with
      | |- context [GameLogic.spit_loop n point dn bs sd ?g1 ?em] =>
        destruct (IH g1 em) as (new & g' & E & Hnew & Hinv & Hset)
      end.
      { simpl. rewrite length_rev.
        apply (f_equal (@length _)) in Er. rewrite length_rev in Er. simpl in Er. lia. }
      simpl in Hnew, Hinv. rewrite rev_involutive in Hnew, Hinv.
      eexists (_ :: new), g'. rewrite E, <- app_assoc. simpl.
      split; [reflexivity|]. split; [|split; [exact Hinv|]].
      * constructor; [|exact Hnew]. repeat split.
      * destruct Hset as (? & ? & ? & ? & ?). simpl in *. now repeat split.
Qed.

Lemma released_ids (point : Vector2.t) (emitted originals : list Ball.t) :
  Forall2 (released_at point) emitted originals ->
  map Ball.ball_id emitted = map Ball.ball_id originals.
Proof.
  induction 1 as [|e b emitted originals (Hid & _) _ IH]; simpl; [reflexivity|].
  now rewrite Hid, IH.
Qed.

(** ** C10: a spit of no ball *)

(** C10: for every [count <= 0], [spit_from_inventory] returns the empty
    list and the world it was given: live balls, inventory and generator
    are those of before the call. *)
Theorem spit_nonpositive_count (g : GameLogic.t) (point : Vector2.t)
    (direction : option Vector2.t) (count : Z) (base_speed spread_degrees : R) :
  (count <= 0)%Z ->
  GameLogic.spit_from_inventory g point direction count base_speed spread_degrees
  = ([], g).
Proof.
  intros Hc. unfold GameLogic.spit_from_inventory.
  replace (Z.to_nat (Z.min count (Z.of_nat (length (GameLogic.inventory g)))))
    with O by lia.
  reflexivity.
Qed.

(** The theorem at a world with three balls to release, for [count = -3]. *)
Lemma spit_nonpositive_count_witness :
  (-3 <= 0)%Z
  /\ GameLogic.spit_from_inventory loaded_world (Vector2.mk 5 5)
       (Some (Vector2.mk 1 0)) (-3) 200 20
     = ([], loaded_world).
Proof.
  assert (H : (-3 <= 0)%Z) by lia.
  split; [exact H|].
  exact (spit_nonpositive_count loaded_world (Vector2.mk 5 5)
           (Some (Vector2.mk 1 0)) (-3) 200 20 H).
Defined.

(** ** The capture loop *)

Lemma captured_nil (g : GameLogic.t) : captured g [] = g.
Proof. destruct g. unfold captured. simpl. now rewrite app_nil_r. Qed.

Lemma suck_loop_spec (max_count : option Z) (cands : list (R * Ball.t)) :
  forall (g : GameLogic.t) (sucked : list Ball.t),
    exists new rest,
      GameLogic.suck_loop max_count cands g sucked = (sucked ++ new, captured g new)
      /\ map snd cands = new ++ rest
      /\ (within_capacity g -> within_capacity (captured g new))
      /\ (forall m, max_count = Some m -> new <> [] ->
            (Z.of_nat (length (sucked ++ new)) <= m)%Z).
Proof.
  induction cands as [|[d ball] cands IH]; intros g sucked.
  - exists [], []. simpl. rewrite app_nil_r, captured_nil.
    split; [reflexivity|]. split; [reflexivity|]. split; [tauto|].
    intros m _ H. now contradiction H.
  - simpl.
    assert (Hstop : exists new rest,
               (sucked, g) = (sucked ++ new, captured g new)
               /\ ball :: map snd cands = new ++ rest
               /\ (within_capacity g -> within_capacity (captured g new))
               /\ (forall m, max_count = Some m -> new <> [] ->
                     (Z.of_nat (length (sucked ++ new)) <= m)%Z)).
    { exists [], (ball :: map snd cands). rewrite app_nil_r, captured_nil.
      split; [reflexivity|]. split; [reflexivity|]. split; [tauto|].
      intros m _ H. now contradiction H. }
    destruct (match max_count with
              | Some m => (m <=? Z.of_nat (length sucked))%Z
              | None => false
              end) eqn:Emax; [exact Hstop|].
    destruct (match GameLogic.inventory_capacity g with
              | Some c => (c <=? Z.of_nat (length (GameLogic.inventory g)))%Z
              | None => false
              end) eqn:Ecap; [exact Hstop|].
    clear Hstop.
    match goal with
    | |- context [GameLogic.suck_loop max_count cands ?g1 ?s1] =>
      destruct (IH g1 s1) as (new & rest & E & Hpre & Hcap & Hmax)
    end.
    exists (ball :: new), rest. rewrite E, <- app_assoc. simpl.
    unfold captured at 1. simpl. rewrite <- app_assoc. simpl.
    split; [reflexivity|]. split; [now rewrite Hpre|]. split.
    + intros _. unfold within_capacity in *. simpl in *.
      rewrite <- app_assoc in Hcap. simpl in Hcap. apply Hcap.
      destruct (GameLogic.inventory_capacity g) as [c|]; [|exact I].
      apply Z.leb_gt in Ecap. rewrite length_app. simpl. lia.
    + intros m Hm _. destruct new as [|b new].
      * subst max_count. apply Z.leb_gt in Emax.
        rewrite length_app. simpl. lia.
      * rewrite <- app_assoc in Hmax. simpl in Hmax.
        apply (Hmax m Hm). discriminate.
Qed.

Lemma suck_into_inventory_spec (g : GameLogic.t) (point : Vector2.t) (radius : R)
    (max_count : option Z) :
  exists rest,
    snd (GameLogic.suck_into_inventory g point radius max_count)
    = captured g (fst (GameLogic.suck_into_inventory g point radius max_count))
    /\ map snd (sort_by_key (GameLogic.candidates g point radius))
       = fst (GameLogic.suck_into_inventory g point radius max_count) ++ rest
    /\ (within_capacity g ->
        within_capacity (snd (GameLogic.suck_into_inventory g point radius max_count))).
Proof.
  unfold GameLogic.suck_into_inventory.
  destruct (suck_loop_spec max_count
              (sort_by_key (GameLogic.candidates g point radius)) g [])
    as (new & rest & E & Hpre & Hcap & _).
  rewrite E. simpl. exists rest. auto.
Qed.

(** ** C6: the capacity bound *)

(** C6: with a capacity configured and an inventory within it, the
    inventory stays within it after any sequence of [suck] calls; a single
    call appends what it captured to the inventory, and captures no more
    than the capacity leaves room for. *)
Theorem suck_keeps_capacity (g : GameLogic.t) (c : Z) (calls : list call) :
  GameLogic.inventory_capacity g = Some c ->
  (Z.of_nat (length (GameLogic.inventory g)) <= c)%Z ->
  forallb is_suck calls = true ->
  GameLogic.inventory_capacity (run_calls g calls) = Some c
  /\ (Z.of_nat (length (GameLogic.inventory (run_calls g calls))) <= c)%Z
  /\ (forall point radius max_count,
        let out := GameLogic.suck_into_inventory g point radius max_count in
        GameLogic.inventory (snd out) = GameLogic.inventory g ++ fst out
        /\ (Z.of_nat (length (GameLogic.inventory g) + length (fst out)) <= c)%Z).
Proof.
  intros Hc Hlen Hs.
  assert (Hone : forall g0 point radius max_count,
            GameLogic.inventory_capacity g0 = Some c ->
            (Z.of_nat (length (GameLogic.inventory g0)) <= c)%Z ->
            let out := GameLogic.suck_into_inventory g0 point radius max_count in
            GameLogic.inventory_capacity (snd out) = Some c
            /\ GameLogic.inventory (snd out) = GameLogic.inventory g0 ++ fst out
            /\ (Z.of_nat (length (GameLogic.inventory g0) + length (fst out)) <= c)%Z).
  { intros g0 point radius max_count Hc0 Hlen0. simpl.
    destruct (suck_into_inventory_spec g0 point radius max_count)
      as (rest & E & _ & Hcap).
    assert (Hw : within_capacity g0) by (unfold within_capacity; now rewrite Hc0).
    specialize (Hcap Hw). rewrite E in Hcap |- *.
    unfold within_capacity, captured in Hcap. simpl in Hcap |- *.
    rewrite Hc0, length_app in Hcap. auto. }
  split; [|split].
  - revert g Hc Hlen Hs. induction calls as [|call calls IH]; intros g Hc Hlen Hs; simpl.
    + exact Hc.
    + simpl in Hs. apply andb_true_iff in Hs as [Hcall Hs].
      destruct call as [point radius max_count|]; [|discriminate]. simpl.
      destruct (Hone g point radius max_count Hc Hlen) as (Hc' & Hinv & Hlen').
      apply IH; [exact Hc' | | exact Hs]. rewrite Hinv, length_app. exact Hlen'.
  - revert g Hc Hlen Hs. induction calls as [|call calls IH]; intros g Hc Hlen Hs; simpl.
    + exact Hlen.
    + simpl in Hs. apply andb_true_iff in Hs as [Hcall Hs].
      destruct call as [point radius max_count|]; [|discriminate]. simpl.
      destruct (Hone g point radius max_count Hc Hlen) as (Hc' & Hinv & Hlen').
      apply IH; [exact Hc' | | exact Hs]. rewrite Hinv, length_app. exact Hlen'.
  - intros point radius max_count.
    destruct (Hone g point radius max_count Hc Hlen) as (_ & Hinv & Hlen').
    split; assumption.
Qed.

(** The theorem at a world of capacity 2 holding one ball, for two sucks. *)
Lemma suck_keeps_capacity_witness :
  GameLogic.inventory_capacity crowded_world = Some 2%Z
  /\ (Z.of_nat (length (GameLogic.inventory crowded_world)) <= 2)%Z
  /\ forallb is_suck
       [Suck (Vector2.mk 50 50) 60 (Some 4%Z); Suck (Vector2.mk 50 50) 60 None]
     = true
  /\ GameLogic.inventory_capacity
       (run_calls crowded_world
          [Suck (Vector2.mk 50 50) 60 (Some 4%Z); Suck (Vector2.mk 50 50) 60 None])
     = Some 2%Z
  /\ (Z.of_nat
        (length
           (GameLogic.inventory
              (run_calls crowded_world
                 [Suck (Vector2.mk 50 50) 60 (Some 4%Z);
                  Suck (Vector2.mk 50 50) 60 None])))
      <= 2)%Z.
Proof.
  assert (Hc : GameLogic.inventory_capacity crowded_world = Some 2%Z) by reflexivity.
  assert (Hl : (Z.of_nat (length (GameLogic.inventory crowded_world)) <= 2)%Z)
    by (simpl; lia).
  assert (Hs : forallb is_suck
                 [Suck (Vector2.mk 50 50) 60 (Some 4%Z);
                  Suck (Vector2.mk 50 50) 60 None] = true) by reflexivity.
  repeat (split; [assumption|]).
  pose proof (suck_keeps_capacity crowded_world 2 _ Hc Hl Hs) as (H1 & H2 & _).
  split; assumption.
Defined.

(** ** Sorting keeps the candidates *)

Lemma insert_by_key_perm {A : Type} (t : R * A) (l : list (R * A)) :
  Permutation (insert_by_key t l) (t :: l).
Proof.
  induction l as [|u l IH]; simpl; [reflexivity|].
  destruct (Rltb (fst t) (fst u)); [reflexivity|].
  rewrite IH. apply perm_swap.
Qed.

Lemma sort_by_key_perm {A : Type} (l : list (R * A)) :
  Permutation (sort_by_key l) l.
Proof.
  unfold sort_by_key.
  enough (H : forall acc, Permutation (fold_left (fun acc t => insert_by_key t acc) l acc)
                                      (l ++ acc)).
  { rewrite H. now rewrite app_nil_r. }
  induction l as [|t l IH]; intros acc; simpl; [reflexivity|].
  rewrite IH, insert_by_key_perm. symmetry. apply Permutation_middle.
Qed.

Lemma candidates_balls (g : GameLogic.t) (point : Vector2.t) (radius : R) :
  exists keep,
    map snd (GameLogic.candidates g point radius)
    = filter keep (dict_values (GameLogic._balls g)).
Proof.
  unfold GameLogic.candidates.
  exists (fun ball =>
            Rleb ((Vector2.x (Ball.position ball) - Vector2.x point)
                  * (Vector2.x (Ball.position ball) - Vector2.x point)
                  + (Vector2.y (Ball.position ball) - Vector2.y point)
                    * (Vector2.y (Ball.position ball) - Vector2.y point))
                 (radius * radius)).
  induction (dict_values (GameLogic._balls g)) as [|b l IH]; simpl; [reflexivity|].
  destruct (Rleb _ _); simpl; now rewrite IH.
Qed.

(** ** Ids stay unique, and counts add up *)

Lemma keys_are_ids (d : dict Z Ball.t) :
  Forall (fun kb => fst kb = Ball.ball_id (snd kb)) d ->
  dict_keys d = map Ball.ball_id (dict_values d).
Proof.
  induction 1 as [|[k b] d Hk _ IH]; simpl; [reflexivity|].
  simpl in Hk. now rewrite Hk, IH.
Qed.

Lemma NoDup_map_filter {A B : Type} (f : A -> B) (keep : A -> bool) (l : list A) :
  NoDup (map f l) -> NoDup (map f (filter keep l)).
Proof.
  induction l as [|a l IH]; simpl; intros H; [constructor|].
  inversion H as [|? ? Hnotin Hnd]; subst.
  destruct (keep a); simpl; [|now apply IH].
  constructor; [|now apply IH].
  intros Hin. apply Hnotin. apply in_map_iff in Hin as (a' & <- & Ha').
  apply filter_In in Ha' as [Ha' _]. now apply in_map.
Qed.

Lemma dict_pop_keys (d : dict Z Ball.t) (k : Z) :
  In k (dict_keys d) ->
  Permutation (dict_keys d) (k :: dict_keys (dict_pop Z.eqb d k)).
Proof.
  induction d as [|[k0 b0] d IH]; simpl; [tauto|].
  destruct (Z.eqb_spec k k0) as [->|Hne]; [reflexivity|].
  intros [H|H]; [congruence|]. simpl.
  rewrite (IH H) at 1. apply perm_swap.
Qed.

Lemma dict_pop_Forall (Q : Z * Ball.t -> Prop) (d : dict Z Ball.t) (k : Z) :
  Forall Q d -> Forall Q (dict_pop Z.eqb d k).
Proof.
  induction 1 as [|[k0 b0] d H0 H IH]; simpl; [constructor|].
  destruct (Z.eqb k k0); [exact H | now constructor].
Qed.

Lemma fold_pop_keys (new : list Ball.t) :
  forall d : dict Z Ball.t,
    NoDup (map Ball.ball_id new) ->
    (forall b, In b new -> In (Ball.ball_id b) (dict_keys d)) ->
    Permutation (dict_keys d)
      (map Ball.ball_id new
       ++ dict_keys (fold_left (fun d b => dict_pop Z.eqb d (Ball.ball_id b)) new d)).
Proof.
  induction new as [|b new IH]; intros d Hnd Hin; simpl; [reflexivity|].
  inversion Hnd as [|? ? Hb Hnd']; subst.
  pose proof (dict_pop_keys d (Ball.ball_id b) (Hin b (or_introl eq_refl))) as Hp.
  rewrite Hp at 1. apply perm_skip. apply IH; [exact Hnd'|].
  intros b' Hb'.
  pose proof (Hin b' (or_intror Hb')) as H.
  apply (Permutation_in _ Hp) in H as [H|H]; [|exact H].
  exfalso. apply Hb. rewrite H. now apply in_map.
Qed.

Lemma fold_pop_Forall (Q : Z * Ball.t -> Prop) (new : list Ball.t) :
  forall d : dict Z Ball.t,
    Forall Q d ->
    Forall Q (fold_left (fun d b => dict_pop Z.eqb d (Ball.ball_id b)) new d).
Proof.
  induction new as [|b new IH]; intros d H; simpl; [exact H|].
  apply IH. now apply dict_pop_Forall.
Qed.

Lemma suck_conserves (g : GameLogic.t) (point : Vector2.t) (radius : R)
    (max_count : option Z) :
  ids_unique g ->
  let g' := snd (GameLogic.suck_into_inventory g point radius max_count) in
  Permutation (all_ids g) (all_ids g')
  /\ Forall (fun kb => fst kb = Ball.ball_id (snd kb)) (GameLogic._balls g').
Proof.
  intros [Hnd Hkey]. simpl.
  destruct (suck_into_inventory_spec g point radius max_count)
    as (rest & -> & Hpre & _).
  set (new := fst (GameLogic.suck_into_inventory g point radius max_count)) in *.
  destruct (candidates_balls g point radius) as (keep & Hc).
  assert (Hperm : Permutation (new ++ rest)
                    (filter keep (dict_values (GameLogic._balls g)))).
  { rewrite <- Hpre, <- Hc. apply Permutation_map. apply sort_by_key_perm. }
  assert (Hkeys : NoDup (dict_keys (GameLogic._balls g))).
  { now apply NoDup_app_remove_r in Hnd. }
  assert (Hnew : NoDup (map Ball.ball_id new)).
  { assert (H : NoDup (map Ball.ball_id (new ++ rest))).
    { apply (Permutation_NoDup (Permutation_map _ (Permutation_sym Hperm))).
      apply NoDup_map_filter. now rewrite <- keys_are_ids. }
    rewrite map_app in H. now apply NoDup_app_remove_r in H. }
  assert (Hin : forall b, In b new -> In (Ball.ball_id b) (dict_keys (GameLogic._balls g))).
  { intros b Hb. rewrite keys_are_ids by assumption. apply in_map.
    assert (H : In b (new ++ rest)) by (apply in_or_app; now left).
    apply (Permutation_in _ Hperm) in H. now apply filter_In in H. }
  pose proof (fold_pop_keys new _ Hnew Hin) as Hp.
  split.
  - unfold all_ids, captured. simpl. rewrite map_app.
    rewrite Hp at 1. rewrite <- app_assoc.
    etransitivity; [apply Permutation_app_comm|].
    rewrite <- app_assoc. reflexivity.
  - unfold captured. simpl. now apply fold_pop_Forall.
Qed.

Lemma dict_set_fresh (d : dict Z Ball.t) (k : Z) (v : Ball.t) :
  ~ In k (dict_keys d) -> dict_set Z.eqb d k v = d ++ [(k, v)].
Proof.
  induction d as [|[k0 v0] d IH]; simpl; intros H; [reflexivity|].
  destruct (Z.eqb_spec k k0) as [->|Hne]; [tauto|].
  rewrite IH; tauto.
Qed.

Lemma list_pop_spec {A : Type} (l r : list A) (a : A) :
  list_pop l = Some (a, r) -> l = r ++ [a].
Proof.
  unfold list_pop. destruct (rev l) as [|a' r'] eqn:E; [discriminate|].
  intros H. injection H as <- <-.
  rewrite <- (rev_involutive l), E. reflexivity.
Qed.

(** One turn of the release loop: the ball popped is not live, and goes
    live under its id. *)
Lemma spit_step_conserves (g : GameLogic.t) (b b' : Ball.t) (inv' : list Ball.t)
    (rng : Rng.t) :
  ids_unique g ->
  GameLogic.inventory g = inv' ++ [b] ->
  Ball.ball_id b' = Ball.ball_id b ->
  let g1 :=
    GameLogic.mk (GameLogic.width g) (GameLogic.height g)
      (dict_set Z.eqb (GameLogic._balls g) (Ball.ball_id b') b')
      (GameLogic._next_id g) (GameLogic.inventory_capacity g) inv'
      (GameLogic.deletion_zone g) rng in
  ~ In (Ball.ball_id b) (dict_keys (GameLogic._balls g))
  /\ GameLogic._balls g1 = GameLogic._balls g ++ [(Ball.ball_id b, b')]
  /\ Permutation (all_ids g) (all_ids g1)
  /\ ids_unique g1.
Proof.
  intros [Hnd Hkey] Ep Hid. simpl. rewrite Hid.
  unfold all_ids in *. rewrite Ep in *.
  assert (Hfresh : ~ In (Ball.ball_id b) (dict_keys (GameLogic._balls g))).
  { intros Hin. rewrite map_app, app_assoc in Hnd. simpl in Hnd.
    apply NoDup_remove_2 in Hnd. apply Hnd. rewrite app_nil_r.
    apply in_or_app. now left. }
  rewrite dict_set_fresh by exact Hfresh.
  assert (Hperm : Permutation
                    (dict_keys (GameLogic._balls g) ++ map Ball.ball_id (inv' ++ [b]))
                    (dict_keys (GameLogic._balls g ++ [(Ball.ball_id b, b')])
                     ++ map Ball.ball_id inv')).
  { unfold dict_keys. rewrite !map_app. simpl. rewrite <- app_assoc.
    apply Permutation_app_head. apply Permutation_app_comm. }
  split; [exact Hfresh|]. split; [reflexivity|]. split; [exact Hperm|].
  split; simpl.
  - apply (Permutation_NoDup Hperm). exact Hnd.
  - apply Forall_app. split; [exact Hkey|]. constructor; [|constructor].
    simpl. now symmetry.
Qed.

Lemma spit_loop_conserves (point : Vector2.t) (dn : option Vector2.t) (bs sd : R)
    (n : nat) :
  forall (g : GameLogic.t) (emitted : list Ball.t),
    ids_unique g ->
    let g' := snd (GameLogic.spit_loop n point dn bs sd g emitted) in
    Permutation (all_ids g) (all_ids g')
    /\ Forall (fun kb => fst kb = Ball.ball_id (snd kb)) (GameLogic._balls g').
Proof.
  induction n as [|n IH]; intros g emitted Hu; simpl; [split; [reflexivity | apply Hu]|].
  destruct (list_pop (GameLogic.inventory g)) as [[b inv']|] eqn:Ep;
    [|split; [reflexivity | apply Hu]].
  apply list_pop_spec in Ep.
  destruct (GameLogic.spit_angle dn sd (GameLogic._rng g)) as [angle rng1]. simpl.
  match goal with
  | |- context [GameLogic.spit_loop n point dn bs sd
                  (GameLogic.mk _ _ (dict_set _ _ _ ?b1) _ _ _ _ ?r1) ?em] =>
    destruct (spit_step_conserves g b b1 inv' r1 Hu Ep eq_refl)
      as (_ & _ & Hperm & Hu1);
      destruct (IH _ em Hu1) as [Hperm' Hkey']
  end.
  split; [|exact Hkey']. now rewrite Hperm.
Qed.

Lemma dict_get_None (d : dict Z Ball.t) (k : Z) :
  ~ In k (dict_keys d) -> dict_get Z.eqb d k = None.
Proof.
  induction d as [|[k0 v0] d IH]; simpl; [reflexivity|].
  intros H. destruct (Z.eqb_spec k k0) as [->|Hne]; [tauto|].
  apply IH. tauto.
Qed.

Lemma dict_get_Some_key (d : dict Z Ball.t) (k : Z) (v : Ball.t) :
  dict_get Z.eqb d k = Some v -> In k (dict_keys d).
Proof.
  induction d as [|[k0 v0] d IH]; simpl; [discriminate|].
  destruct (Z.eqb_spec k k0) as [->|Hne]; [now left|].
  intros H. right. now apply IH.
Qed.

Lemma dict_get_app_fresh (d : dict Z Ball.t) (k k' : Z) (v v' : Ball.t) :
  dict_get Z.eqb d k = Some v -> dict_get Z.eqb (d ++ [(k', v')]) k = Some v.
Proof.
  induction d as [|[k0 v0] d IH]; simpl; [discriminate|].
  destruct (Z.eqb k k0); [tauto | exact IH].
Qed.

Lemma dict_get_app_last (d : dict Z Ball.t) (k : Z) (v : Ball.t) :
  ~ In k (dict_keys d) -> dict_get Z.eqb (d ++ [(k, v)]) k = Some v.
Proof.
  induction d as [|[k0 v0] d IH]; simpl; intros H.
  - now rewrite Z.eqb_refl.
  - destruct (Z.eqb_spec k k0) as [->|Hne]; [tauto|]. apply IH. tauto.
Qed.

(** Every ball the release loop emits is live, under its id, when the
    loop ends. *)
Lemma spit_loop_emitted_live (point : Vector2.t) (dn : option Vector2.t) (bs sd : R)
    (n : nat) :
  forall (g : GameLogic.t) (emitted : list Ball.t),
    ids_unique g ->
    (forall e, In e emitted ->
       dict_get Z.eqb (GameLogic._balls g) (Ball.ball_id e) = Some e) ->
    forall e,
      In e (fst (GameLogic.spit_loop n point dn bs sd g emitted)) ->
      dict_get Z.eqb
        (GameLogic._balls (snd (GameLogic.spit_loop n point dn bs sd g emitted)))
        (Ball.ball_id e) = Some e.
Proof.
  induction n as [|n IH]; intros g emitted Hu Hlive e; simpl; [apply Hlive|].
  destruct (list_pop (GameLogic.inventory g)) as [[b inv']|] eqn:Ep; [|apply Hlive].
  apply list_pop_spec in Ep.
  destruct (GameLogic.spit_angle dn sd (GameLogic._rng g)) as [angle rng1]. simpl.
  match goal with
  | |- context [GameLogic.spit_loop n point dn bs sd
                  (GameLogic.mk _ _ (dict_set _ _ _ ?b1) _ _ _ _ ?r1) ?em] =>
    destruct (spit_step_conserves g b b1 inv' r1 Hu Ep eq_refl)
      as (Hfresh & Hballs & _ & Hu1);
      apply (IH _ em Hu1)
  end.
  simpl in Hballs |- *. rewrite Hballs.
  intros e' He'. apply in_app_iff in He' as [He'|[<-|[]]].
  - apply dict_get_app_fresh. now apply Hlive.
  - simpl. now apply dict_get_app_last.
Qed.

Lemma all_ids_length (g : GameLogic.t) :
  length (all_ids g) = (live_count g + inventory_count g)%nat.
Proof.
  unfold all_ids, live_count, inventory_count, dict_keys.
  now rewrite length_app, !length_map.
Qed.

Lemma run_call_conserves (g : GameLogic.t) (c : call) :
  ids_unique g ->
  Permutation (all_ids g) (all_ids (run_call g c)) /\ ids_unique (run_call g c).
Proof.
  intros Hu.
  assert (H : Permutation (all_ids g) (all_ids (run_call g c))
              /\ Forall (fun kb => fst kb = Ball.ball_id (snd kb))
                        (GameLogic._balls (run_call g c))).
  { destruct c as [point radius max_count|point direction count bs sd].
    - now apply suck_conserves.
    - now apply spit_loop_conserves. }
  destruct H as [Hperm Hkey]. split; [exact Hperm|].
  split; [|exact Hkey]. apply (Permutation_NoDup Hperm). apply Hu.
Qed.

(** ** Every reachable world has unique ids *)

Lemma dict_set_keys_in (d : dict Z Ball.t) (k : Z) (v : Ball.t) :
  In k (dict_keys d) -> dict_keys (dict_set Z.eqb d k v) = dict_keys d.
Proof.
  induction d as [|[k0 v0] d IH]; simpl; [tauto|].
  destruct (Z.eqb_spec k k0) as [->|Hne]; [reflexivity|].
  intros [H|H]; [congruence|]. simpl. now rewrite IH.
Qed.

Lemma dict_set_Forall (Q : Z * Ball.t -> Prop) (d : dict Z Ball.t) (k : Z)
    (v : Ball.t) :
  Forall Q d -> Q (k, v) -> Forall Q (dict_set Z.eqb d k v).
Proof.
  induction 1 as [|[k0 v0] d H0 H IH]; simpl; intros Hq; [now repeat constructor|].
  destruct (Z.eqb k k0); constructor; auto.
Qed.

Lemma dict_set_keys_perm (d : dict Z Ball.t) (k : Z) (v : Ball.t) :
  dict_keys (dict_set Z.eqb d k v) = dict_keys d
  \/ (~ In k (dict_keys d) /\ dict_keys (dict_set Z.eqb d k v) = dict_keys d ++ [k]).
Proof.
  destruct (in_dec Z.eq_dec k (dict_keys d)) as [Hin|Hout].
  - left. now apply dict_set_keys_in.
  - right. split; [exact Hout|]. rewrite dict_set_fresh by exact Hout.
    unfold dict_keys. now rewrite map_app.
Qed.

Lemma NoDup_snoc {A : Type} (l : list A) (a : A) :
  NoDup l -> ~ In a l -> NoDup (l ++ [a]).
Proof.
  intros Hl Ha. apply (Permutation_NoDup (l := a :: l)).
  - apply Permutation_cons_append.
  - now constructor.
Qed.

Lemma init_well_identified (width height : R) (initial_balls : option (list Ball.t))
    (capacity : option Z) (rng : Rng.t) (g : GameLogic.t) :
  GameLogic.__init__ width height initial_balls capacity rng = Ok g ->
  ids_unique g /\ ids_below_next g.
Proof.
  unfold GameLogic.__init__.
  set (step := fun '(d, n) b =>
                 (dict_set Z.eqb d (Ball.ball_id b) b, Z.max n (Ball.ball_id b + 1))).
  assert (H : forall l d n,
            NoDup (dict_keys d) ->
            Forall (fun kb => fst kb = Ball.ball_id (snd kb)) d ->
            (forall k, In k (dict_keys d) -> (k < n)%Z) ->
            let '(d', n') := fold_left step l (d, n) in
            NoDup (dict_keys d')
            /\ Forall (fun kb => fst kb = Ball.ball_id (snd kb)) d'
            /\ (forall k, In k (dict_keys d') -> (k < n')%Z)).
  { induction l as [|b l IH]; intros d n Hnd Hkey Hlt; simpl; [auto|].
    apply IH.
    - destruct (dict_set_keys_perm d (Ball.ball_id b) b) as [->|[Hout ->]];
        [exact Hnd | now apply NoDup_snoc].
    - now apply dict_set_Forall.
    - intros k Hk.
      destruct (dict_set_keys_perm d (Ball.ball_id b) b) as [E|[_ E]];
        rewrite E in Hk.
      + specialize (Hlt k Hk). lia.
      + apply in_app_iff in Hk as [Hk|[<-|[]]]; [specialize (Hlt k Hk)|]; lia. }
  specialize (H (match initial_balls with Some l => l | None => [] end) [] 1%Z
                (NoDup_nil _) (Forall_nil _) ltac:(intros k [])).
  destruct (fold_left step _ _) as [balls next_id].
  destruct H as (Hnd & Hkey & Hlt).
  intros E. injection E as <-.
  unfold ids_unique, ids_below_next, all_ids. simpl. rewrite app_nil_r. auto.
Qed.

Lemma create_ball_well_identified (g : GameLogic.t) (position velocity : Vector2.t)
    (radius : R) (color : Color.t) (ball : Ball.t) (g' : GameLogic.t) :
  ids_unique g /\ ids_below_next g ->
  GameLogic.create_ball g position velocity radius color = Ok (ball, g') ->
  ids_unique g' /\ ids_below_next g'.
Proof.
  intros [[Hnd Hkey] Hlt] E. unfold GameLogic.create_ball in E.
  injection E as <- <-.
  assert (Hfresh : ~ In (GameLogic._next_id g) (all_ids g)).
  { intros Hin. specialize (Hlt _ Hin). lia. }
  assert (Hout : ~ In (GameLogic._next_id g) (dict_keys (GameLogic._balls g))).
  { intros Hin. apply Hfresh. unfold all_ids. apply in_or_app. now left. }
  unfold ids_unique, ids_below_next, all_ids in *. simpl.
  rewrite dict_set_fresh by exact Hout.
  unfold dict_keys in *. rewrite map_app. simpl. repeat split.
  - apply (Permutation_NoDup
             (l := GameLogic._next_id g
                   :: map fst (GameLogic._balls g)
                      ++ map Ball.ball_id (GameLogic.inventory g))).
    + rewrite <- app_assoc. simpl. apply Permutation_middle.
    + now constructor.
  - apply Forall_app. split; [exact Hkey|]. now constructor.
  - intros id Hid. rewrite <- app_assoc in Hid. simpl in Hid.
    apply in_app_iff in Hid as [Hid|[<-|Hid]]; [| lia |].
    + assert (id < GameLogic._next_id g)%Z
        by (apply Hlt; apply in_or_app; now left). lia.
    + assert (id < GameLogic._next_id g)%Z
        by (apply Hlt; apply in_or_app; now right). lia.
Qed.

Lemma dict_pop_keys_incl (d : dict Z Ball.t) (k id : Z) :
  In id (dict_keys (dict_pop Z.eqb d k)) -> In id (dict_keys d).
Proof.
  induction d as [|[k0 v0] d IH]; simpl; [tauto|].
  destruct (Z.eqb k k0); simpl; [tauto|]. intros [H|H]; auto.
Qed.

Lemma dict_pop_keys_NoDup (d : dict Z Ball.t) (k : Z) (l : list Z) :
  NoDup (dict_keys d ++ l) -> NoDup (dict_keys (dict_pop Z.eqb d k) ++ l).
Proof.
  induction d as [|[k0 v0] d IH]; simpl; [tauto|].
  intros H. inversion H as [|? ? Hout Hnd]; subst.
  destruct (Z.eqb k k0); simpl; [exact Hnd|].
  constructor; [|now apply IH].
  intros Hin. apply Hout. apply in_app_iff in Hin as [Hin|Hin]; apply in_or_app.
  - left. eapply dict_pop_keys_incl. exact Hin.
  - now right.
Qed.

Lemma remove_ball_well_identified (g : GameLogic.t) (k : Z) :
  ids_unique g /\ ids_below_next g ->
  ids_unique (GameLogic.remove_ball g k) /\ ids_below_next (GameLogic.remove_ball g k).
Proof.
  intros [[Hnd Hkey] Hlt]. unfold GameLogic.remove_ball.
  destruct (dict_mem _ _ _); [|now repeat split].
  unfold ids_unique, ids_below_next, all_ids in *. simpl. repeat split.
  - now apply dict_pop_keys_NoDup.
  - now apply dict_pop_Forall.
  - intros id Hid. apply Hlt. apply in_app_iff in Hid as [Hid|Hid]; apply in_or_app.
    + left. eapply dict_pop_keys_incl. exact Hid.
    + now right.
Qed.

Lemma same_ids_keys (balls balls' : dict Z Ball.t) :
  same_ids balls balls' ->
  dict_keys balls' = dict_keys balls
  /\ (Forall (fun kb => fst kb = Ball.ball_id (snd kb)) balls ->
      Forall (fun kb => fst kb = Ball.ball_id (snd kb)) balls').
Proof.
  induction 1 as [|kb kb' l l' [Hk Hid] _ [IHk IHf]]; simpl; [auto|].
  split; [now rewrite Hk, IHk|].
  intros Hf. inversion Hf; subst. constructor; [congruence | auto].
Qed.

Lemma integrate_all_same_ids (g : GameLogic.t) (dt : R) (balls balls' : dict Z Ball.t) :
  GameLogic.integrate_all g dt balls = Ok balls' -> same_ids balls balls'.
Proof.
  revert balls'. induction balls as [|[k b] balls IH]; simpl; intros balls' E.
  - injection E as <-. constructor.
  - unfold GameLogic.integrate in E.
    destruct (float_mod _ (GameLogic.width g)) as [x|]; [|discriminate].
    destruct (float_mod _ (GameLogic.height g)) as [y|]; [|discriminate].
    cbn [bind] in E.
    destruct (GameLogic.integrate_all g dt balls) as [rest|]; [|discriminate].
    cbn [bind] in E. injection E as <-.
    constructor; [now split | now apply IH].
Qed.

Lemma same_but_colors_same_ids (balls balls' : dict Z Ball.t) :
  same_but_colors balls balls' -> same_ids balls balls'.
Proof.
  induction 1 as [|kb kb' l l' [Hk Hrec] _ IH]; constructor; [|exact IH].
  split; [now symmetry|]. unfold recolored in Hrec. now rewrite <- Hrec.
Qed.

Lemma set_balls_well_identified (g : GameLogic.t) (balls' : dict Z Ball.t) :
  same_ids (GameLogic._balls g) balls' ->
  ids_unique g /\ ids_below_next g ->
  ids_unique (GameLogic.set_balls g balls')
  /\ ids_below_next (GameLogic.set_balls g balls').
Proof.
  intros Hs [[Hnd Hkey] Hlt]. destruct (same_ids_keys _ _ Hs) as [Ek Hf].
  unfold ids_unique, ids_below_next, all_ids in *. simpl. rewrite Ek. auto.
Qed.

Lemma cull_well_identified (g : GameLogic.t) :
  ids_unique g /\ ids_below_next g ->
  ids_unique (GameLogic.cull g) /\ ids_below_next (GameLogic.cull g).
Proof.
  unfold GameLogic.cull. destruct (GameLogic.deletion_zone g) as [zone|]; [|tauto].
  generalize (map Ball.ball_id
    (filter (fun ball => Rect.contains zone (Ball.position ball))
       (dict_values (GameLogic._balls g)))).
  intros ids. revert g. induction ids as [|k ids IH]; simpl; intros g H; [exact H|].
  apply IH. now apply remove_ball_well_identified.
Qed.

Lemma update_well_identified (g g' : GameLogic.t) (dt : R) :
  ids_unique g /\ ids_below_next g ->
  GameLogic.update g dt = Ok g' ->
  ids_unique g' /\ ids_below_next g'.
Proof.
  intros H E. unfold GameLogic.update in E.
  destruct (Rleb dt 0); [now injection E as <-|].
  destruct (GameLogic.integrate_all g dt (GameLogic._balls g)) as [balls1|] eqn:E1;
    [|discriminate].
  cbn [bind] in E.
  pose proof (_apply_color_mixing_frame True
                (GameLogic.cull (GameLogic.set_balls g balls1))
                (fun _ _ => or_intror I)) as Hmix.
  rewrite E in Hmix. destruct Hmix as (balls' & -> & Hsame).
  apply set_balls_well_identified; [now apply same_but_colors_same_ids|].
  apply cull_well_identified.
  apply set_balls_well_identified; [|exact H].
  eapply integrate_all_same_ids. exact E1.
Qed.

Lemma run_call_next_id (g : GameLogic.t) (c : call) :
  GameLogic._next_id (run_call g c) = GameLogic._next_id g.
Proof.
  destruct c as [point radius max_count|point direction count bs sd]; simpl.
  - destruct (suck_into_inventory_spec g point radius max_count) as (rest & -> & _).
    reflexivity.
  - unfold GameLogic.spit_from_inventory.
    destruct (spit_loop_spec point (direction_norm direction) bs sd
                (spit_turns g count) g [])
      as (new & g1 & E & _ & _ & _ & _ & Hn & _).
    { unfold spit_turns. lia. }
    unfold direction_norm, spit_turns in E. rewrite E. exact Hn.
Qed.

(** In every world the operations of [GameLogic] produce, ball ids are
    unique across the live map and the inventory, each live ball is stored
    under its id, and every id is below the next one to be assigned. *)
Lemma reachable_ids_unique (g : GameLogic.t) :
  reachable g -> ids_unique g /\ ids_below_next g.
Proof.
  induction 1 as [width height initial_balls capacity rng g E
                 |g position velocity radius color ball g' _ IH E
                 |g ball_id _ IH
                 |g rect _ IH
                 |g dt g' _ IH E
                 |g c _ IH].
  - eapply init_well_identified. exact E.
  - eapply create_ball_well_identified; eassumption.
  - now apply remove_ball_well_identified.
  - exact IH.
  - eapply update_well_identified; eassumption.
  - destruct IH as [Hu Hlt].
    destruct (run_call_conserves g c Hu) as [Hperm Hu'].
    split; [exact Hu'|].
    intros id Hid. rewrite run_call_next_id. apply Hlt.
    now apply (Permutation_in _ (Permutation_sym Hperm)).
Qed.

(** ** C7: conservation *)

(** From a world whose ids are unique, any sequence of [suck] and [spit]
    calls keeps the balls of the world, by id. *)
Lemma run_calls_conserve (g : GameLogic.t) (calls : list call) :
  ids_unique g ->
  Permutation (all_ids g) (all_ids (run_calls g calls))
  /\ ids_unique (run_calls g calls).
Proof.
  revert g. induction calls as [|c calls IH]; intros g Hu; simpl.
  - split; [reflexivity | exact Hu].
  - destruct (run_call_conserves g c Hu) as [Hperm Hu'].
    destruct (IH _ Hu') as [Hperm' Hu''].
    split; [now rewrite Hperm | exact Hu''].
Qed.

Lemma NoDup_app_disjoint {A : Type} (l l' : list A) (a : A) :
  NoDup (l ++ l') -> In a l -> In a l' -> False.
Proof.
  induction l as [|x l IH]; simpl; [tauto|].
  intros H [->|Hl] Hl'; inversion H as [|? ? Hout Hnd]; subst.
  - apply Hout. apply in_or_app. now right.
  - now apply IH.
Qed.

(** A [suck] moves each ball it captures from the live map to the
    inventory. *)
Lemma suck_moves (g : GameLogic.t) (point : Vector2.t) (radius : R)
    (max_count : option Z) (b : Ball.t) :
  ids_unique g ->
  let out := GameLogic.suck_into_inventory g point radius max_count in
  In b (fst out) ->
  In b (GameLogic.list_balls g)
  /\ In b (GameLogic.inventory (snd out))
  /\ dict_get Z.eqb (GameLogic._balls (snd out)) (Ball.ball_id b) = None.
Proof.
  intros Hu. simpl. intros Hb.
  destruct (suck_conserves g point radius max_count Hu) as [Hperm Hkey].
  assert (Hnd : NoDup (all_ids (snd (GameLogic.suck_into_inventory g point radius
                                       max_count)))).
  { apply (Permutation_NoDup Hperm). apply Hu. }
  destruct (suck_into_inventory_spec g point radius max_count)
    as (rest & E & Hpre & _).
  destruct (candidates_balls g point radius) as (keep & Hc).
  assert (Hinv : In b (GameLogic.inventory
                         (snd (GameLogic.suck_into_inventory g point radius max_count)))).
  { rewrite E. simpl. apply in_or_app. now right. }
  split; [|split; [exact Hinv|]].
  - assert (H : In b (map snd (sort_by_key (GameLogic.candidates g point radius)))).
    { rewrite Hpre. apply in_or_app. now left. }
    apply (Permutation_in _ (Permutation_map snd (sort_by_key_perm _))) in H.
    rewrite Hc in H. now apply filter_In in H.
  - apply dict_get_None. intros Hin.
    apply (NoDup_app_disjoint _ _ (Ball.ball_id b) Hnd Hin). now apply in_map.
Qed.

(** A [spit] moves each ball it emits from the inventory to the live map,
    under the id it had. *)
Lemma spit_moves (g : GameLogic.t) (point : Vector2.t) (direction : option Vector2.t)
    (count : Z) (bs sd : R) (e : Ball.t) :
  ids_unique g ->
  let out := GameLogic.spit_from_inventory g point direction count bs sd in
  In e (fst out) ->
  In (Ball.ball_id e) (map Ball.ball_id (GameLogic.inventory g))
  /\ ~ In (Ball.ball_id e) (map Ball.ball_id (GameLogic.inventory (snd out)))
  /\ dict_get Z.eqb (GameLogic._balls (snd out)) (Ball.ball_id e) = Some e.
Proof.
  intros Hu. simpl. intros He.
  assert (Hlive : dict_get Z.eqb
                    (GameLogic._balls
                       (snd (GameLogic.spit_from_inventory g point direction count bs sd)))
                    (Ball.ball_id e) = Some e).
  { unfold GameLogic.spit_from_inventory in *.
    apply spit_loop_emitted_live; [exact Hu | intros ? [] | exact He]. }
  destruct (spit_loop_conserves point (direction_norm direction) bs sd
              (spit_turns g count) g [] Hu) as [Hperm _].
  assert (Hnd : NoDup (all_ids (snd (GameLogic.spit_from_inventory g point direction
                                       count bs sd)))).
  { apply (Permutation_NoDup Hperm). apply Hu. }
  split; [|split; [|exact Hlive]].
  - unfold GameLogic.spit_from_inventory in He.
    destruct (spit_loop_spec point (direction_norm direction) bs sd
                (spit_turns g count) g [])
      as (new & g' & E & Hnew & _).
    { unfold spit_turns. lia. }
    unfold direction_norm, spit_turns in E. rewrite E in He. simpl in He.
    apply released_ids in Hnew.
    assert (H : In (Ball.ball_id e) (map Ball.ball_id new)) by now apply in_map.
    rewrite Hnew in H. apply in_map_iff in H as (b & <- & Hb).
    apply in_map. apply in_rev.
    rewrite <- (firstn_skipn (spit_turns g count) (rev (GameLogic.inventory g))).
    apply in_or_app. now left.
  - intros Hin. apply dict_get_Some_key in Hlive.
    exact (NoDup_app_disjoint _ _ _ Hnd Hlive Hin).
Qed.

(** C7: from any world the operations of [GameLogic] produce, a sequence
    of [suck] and [spit] calls keeps [live_count + inventory_count]: the
    balls of the world, by id, are the same before and after, each of them
    either live or in the inventory.  A suck moves each ball it captures
    from the live map to the inventory, and a spit moves each ball it emits
    from the inventory to the live map, under the id it had. *)
Theorem suck_spit_conserve_count (g : GameLogic.t) (calls : list call) :
  reachable g ->
  (live_count (run_calls g calls) + inventory_count (run_calls g calls)
   = live_count g + inventory_count g)%nat
  /\ Permutation (all_ids g) (all_ids (run_calls g calls))
  /\ NoDup (all_ids (run_calls g calls))
  /\ (forall point radius max_count b,
        let out := GameLogic.suck_into_inventory g point radius max_count in
        In b (fst out) ->
        In b (GameLogic.list_balls g)
        /\ In b (GameLogic.inventory (snd out))
        /\ dict_get Z.eqb (GameLogic._balls (snd out)) (Ball.ball_id b) = None)
  /\ (forall point direction count base_speed spread_degrees e,
        let out :=
          GameLogic.spit_from_inventory g point direction count base_speed
            spread_degrees in
        In e (fst out) ->
        In (Ball.ball_id e) (map Ball.ball_id (GameLogic.inventory g))
        /\ ~ In (Ball.ball_id e) (map Ball.ball_id (GameLogic.inventory (snd out)))
        /\ dict_get Z.eqb (GameLogic._balls (snd out)) (Ball.ball_id e) = Some e).
Proof.
  intros Hr. destruct (reachable_ids_unique g Hr) as [Hu _].
  destruct (run_calls_conserve g calls Hu) as [Hperm [Hnd _]].
  split; [|split; [exact Hperm | split; [exact Hnd | split]]].
  - rewrite <- !all_ids_length. symmetry. now apply Permutation_length.
  - intros point radius max_count b. now apply suck_moves.
  - intros point direction count base_speed spread_degrees e. now apply spit_moves.
Qed.

Lemma started_world_reachable : reachable started_world.
Proof.
  apply (reach_init 100 100
           (Some [ball_at 1 10 10 0 0; ball_at 2 20 20 0 0; ball_at 3 30 30 0 0])
           (Some 3%Z) rng_half).
  reflexivity.
Qed.

(** The theorem at a world as [__init__] builds it, for a suck then a
    spit. *)
Lemma suck_spit_conserve_count_witness :
  reachable started_world
  /\ (live_count
        (run_calls started_world
           [Suck (Vector2.mk 15 15) 60 (Some 2%Z); Spit (Vector2.mk 5 5) None 1 200 20])
      + inventory_count
          (run_calls started_world
             [Suck (Vector2.mk 15 15) 60 (Some 2%Z); Spit (Vector2.mk 5 5) None 1 200 20])
      = live_count started_world + inventory_count started_world)%nat
  /\ Permutation (all_ids started_world)
       (all_ids
          (run_calls started_world
             [Suck (Vector2.mk 15 15) 60 (Some 2%Z); Spit (Vector2.mk 5 5) None 1 200 20])).
Proof.
  split; [exact started_world_reachable|].
  pose proof (suck_spit_conserve_count started_world
                [Suck (Vector2.mk 15 15) 60 (Some 2%Z);
                 Spit (Vector2.mk 5 5) None 1 200 20]
                started_world_reachable) as (H1 & H2 & _).
  split; assumption.
Defined.

(** ** C8: last in, first out *)

(** C8: [spit] releases the balls at the end of the inventory, the last one
    first: [max(0, min(count, len(inventory)))] of them, each at [point]
    with its id, radius and color, and the inventory keeps the rest in
    order.  After a [suck] that captured [sucked], the ids released are
    those of [sucked] from its last ball backwards, then those of the older
    inventory. *)
Theorem spit_is_lifo (g : GameLogic.t) (point : Vector2.t)
    (direction : option Vector2.t) (count : Z) (base_speed spread_degrees : R) :
  let n := spit_turns g count in
  let out :=
    GameLogic.spit_from_inventory g point direction count base_speed spread_degrees in
  n = Nat.min (Z.to_nat count) (length (GameLogic.inventory g))
  /\ Forall2 (released_at point) (fst out) (firstn n (rev (GameLogic.inventory g)))
  /\ GameLogic.inventory (snd out)
     = firstn (length (GameLogic.inventory g) - n) (GameLogic.inventory g)
  /\ (forall point' radius max_count,
        let sucked := fst (GameLogic.suck_into_inventory g point' radius max_count) in
        let g1 := snd (GameLogic.suck_into_inventory g point' radius max_count) in
        map Ball.ball_id
            (fst (GameLogic.spit_from_inventory g1 point direction count base_speed
                    spread_degrees))
        = firstn (spit_turns g1 count)
                 (rev (map Ball.ball_id sucked)
                  ++ rev (map Ball.ball_id (GameLogic.inventory g)))).
Proof.
  assert (Hspit : forall g0,
            let n0 := spit_turns g0 count in
            let out0 :=
              GameLogic.spit_from_inventory g0 point direction count base_speed
                spread_degrees in
            Forall2 (released_at point) (fst out0)
                    (firstn n0 (rev (GameLogic.inventory g0)))
            /\ rev (GameLogic.inventory (snd out0))
               = skipn n0 (rev (GameLogic.inventory g0))).
  { intros g0. simpl. unfold GameLogic.spit_from_inventory. fold (spit_turns g0 count).
    destruct (spit_loop_spec point
                (match direction with
                 | Some d => Some (Vector2.normalized d)
                 | None => None
                 end)
                base_speed spread_degrees (spit_turns g0 count) g0 [])
      as (new & g' & E & Hnew & Hinv & _).
    { unfold spit_turns. lia. }
    rewrite E. simpl. auto. }
  simpl. split; [unfold spit_turns; lia|].
  destruct (Hspit g) as [Hnew Hinv]. split; [exact Hnew|]. split.
  - rewrite <- (rev_involutive (GameLogic.inventory (snd _))), Hinv.
    rewrite skipn_rev, rev_involutive. reflexivity.
  - intros point' radius max_count.
    destruct (Hspit (snd (GameLogic.suck_into_inventory g point' radius max_count)))
      as [Hnew1 _].
    rewrite (released_ids _ _ _ Hnew1).
    destruct (suck_into_inventory_spec g point' radius max_count) as (rest & E & _).
    rewrite E at 2. simpl.
    rewrite <- firstn_map, map_rev, map_app, rev_app_distr.
    reflexivity.
Qed.

(** ** C5: creation does not validate *)

Lemma dict_set_In (d : dict Z Ball.t) (k : Z) (v : Ball.t) :
  In v (dict_values (dict_set Z.eqb d k v)).
Proof.
  induction d as [|[k0 v0] d IH]; simpl; [now left|].
  destruct (Z.eqb k k0); simpl; [now left | now right].
Qed.

(** C5, as amended: construction and ball creation never report an error,
    whatever the width, the height and the radius: the world is built with
    the width and height given, and the ball is created, live, with the
    radius given. *)
Theorem creation_accepts_any_parameters :
  (forall width height initial_balls capacity rng,
     exists g,
       GameLogic.__init__ width height initial_balls capacity rng = Ok g
       /\ GameLogic.width g = width /\ GameLogic.height g = height)
  /\ (forall g position velocity radius color,
        exists ball g',
          GameLogic.create_ball g position velocity radius color = Ok (ball, g')
          /\ Ball.radius ball = radius
          /\ In ball (GameLogic.list_balls g')).
Proof.
  split.
  - intros width height initial_balls capacity rng. unfold GameLogic.__init__.
    destruct (fold_left _ _ _) as [balls next_id].
    eexists. split; [reflexivity|]. simpl. auto.
  - intros g position velocity radius color. unfold GameLogic.create_ball.
    eexists _, _. split; [reflexivity|]. split; [reflexivity|].
    unfold GameLogic.list_balls. simpl. apply dict_set_In.
Qed.

(** C5 as stated fails: a world of width 0 and height -5 is built, and a
    ball of radius -1 is created in a world, neither with an error. *)
Lemma nonpositive_parameters_are_accepted :
  0 <= 0 /\ -5 <= 0 /\ -1 <= 0
  /\ GameLogic.__init__ 0 (-5) None None rng_half
     = Ok (GameLogic.mk 0 (-5) [] 1 None [] None rng_half)
  /\ GameLogic.create_ball wrap_world (Vector2.mk 1 1) (Vector2.mk 0 0) (-1) red
     = Ok (Ball.mk 2 (Vector2.mk 1 1) (Vector2.mk 0 0) (-1) red,
           world_of 100 100
             [(1%Z, ball_at 1 99 0 50 0);
              (2%Z, Ball.mk 2 (Vector2.mk 1 1) (Vector2.mk 0 0) (-1) red)]
             3).
Proof.
  repeat (split; [lra|]). split; reflexivity.
Qed.

(** The width 0 that [__init__] accepted surfaces in [update], as the
    division error of the wrap. *)
Lemma zero_width_raises_in_update (height : R) (ball : Ball.t) (dt : R) :
  0 < dt ->
  GameLogic.update (world_of 0 height [(Ball.ball_id ball, ball)] 2) dt
  = Raise ZeroDivisionError.
Proof.
  intros Hdt. unfold GameLogic.update. rewrite Rleb_false by lra.
  simpl. unfold GameLogic.integrate, float_mod. simpl.
  rewrite Reqb_true by reflexivity. reflexivity.
Qed.

(** ** C9: mixing is symmetric *)

Lemma _circular_mean_hue_swap (h1 h2 w1 w2 : R) :
  _circular_mean_hue [h1; h2] [w1; w2] = _circular_mean_hue [h2; h1] [w2; w1].
Proof.
  unfold _circular_mean_hue, sum. simpl.
  replace (0 + w2 + w1) with (0 + w1 + w2) by ring.
  replace (0 + cos (h2 * 2 * PI) * w2 + cos (h1 * 2 * PI) * w1)
    with (0 + cos (h1 * 2 * PI) * w1 + cos (h2 * 2 * PI) * w2) by ring.
  replace (0 + sin (h2 * 2 * PI) * w2 + sin (h1 * 2 * PI) * w1)
    with (0 + sin (h1 * 2 * PI) * w1 + sin (h2 * 2 * PI) * w2) by ring.
  reflexivity.
Qed.

(** C9: [mix_colors(c1, c2)] equals [mix_colors(c2, c1)], for all colors;
    for colors with components in [[0, 1]] it is a color, with components
    in [[0, 1]]. *)
Theorem mix_colors_symmetric (c1 c2 : Color.t) :
  mix_colors c1 c2 = mix_colors c2 c1
  /\ (Color.valid c1 -> Color.valid c2 ->
      exists m, mix_colors c1 c2 = Ok m /\ mix_colors c2 c1 = Ok m /\ Color.valid m).
Proof.
  assert (Hsym : mix_colors c1 c2 = mix_colors c2 c1).
  { unfold mix_colors.
    destruct (Color.to_hsv c1) as [[[h1 s1] v1]|[]];
      destruct (Color.to_hsv c2) as [[[h2 s2] v2]|[]]; cbn [bind]; try reflexivity.
    rewrite (_circular_mean_hue_swap h1 h2).
    unfold mix_saturation, mix_value.
    rewrite (Rmult_comm (1 - s1)), (Rmult_comm (Rmax 0 v1)). reflexivity. }
  split; [exact Hsym|].
  intros H1 H2. destruct (mix_colors_ok c1 c2 H1 H2) as (m & Hm & Hv).
  exists m. rewrite <- Hsym. auto.
Qed.

(** ** C3: the emission angle *)

Lemma spit_loop_prefix (point : Vector2.t) (dn : option Vector2.t) (bs sd : R)
    (n : nat) :
  forall (g : GameLogic.t) (emitted : list Ball.t),
    exists new,
      fst (GameLogic.spit_loop n point dn bs sd g emitted) = emitted ++ new.
Proof.
  induction n as [|n IH]; intros g emitted; simpl.
  - exists []. now rewrite app_nil_r.
  - destruct (list_pop (GameLogic.inventory g)) as [[b inv']|].
    + destruct (GameLogic.spit_angle dn sd (GameLogic._rng g)) as [angle rng1]. simpl.
      match goal with
      | |- context [GameLogic.spit_loop n point dn bs sd ?g1 (emitted ++ [?b1])] =>
        destruct (IH g1 (emitted ++ [b1])) as (new & ->)
      end.
      rewrite <- app_assoc. eauto.
    + exists []. now rewrite app_nil_r.
Qed.

Lemma rng_skip_0 (rng : Rng.t) : rng_skip 0 rng = rng.
Proof. now destruct rng. Qed.

Lemma spit_loop_velocity (point : Vector2.t) (dn : option Vector2.t) (bs sd : R)
    (n : nat) :
  forall (g : GameLogic.t) (emitted : list Ball.t) (i : nat) (e : Ball.t),
    nth_error (fst (GameLogic.spit_loop n point dn bs sd g emitted))
              (length emitted + i) = Some e ->
    Ball.velocity e = emission dn bs sd (rng_skip (2 * i) (GameLogic._rng g)).
Proof.
  induction n as [|n IH]; intros g emitted i e; simpl.
  - intros H. assert (Hlt : (length emitted + i < length emitted)%nat).
    { apply nth_error_Some. congruence. }
    lia.
  - destruct (list_pop (GameLogic.inventory g)) as [[b inv']|].
    + unfold emission.
      destruct i as [|i].
      * change (2 * 0)%nat with 0%nat. rewrite rng_skip_0.
        destruct (GameLogic.spit_angle dn sd (GameLogic._rng g)) as [angle rng1]. simpl.
        match goal with
        | |- context [GameLogic.spit_loop n point dn bs sd ?g1 (emitted ++ [?b1])] =>
          destruct (spit_loop_prefix point dn bs sd n g1 (emitted ++ [b1])) as (new & ->)
        end.
        rewrite <- app_assoc, Nat.add_0_r, nth_error_app2, Nat.sub_diag by lia.
        simpl. intros H. injection H as <-. reflexivity.
      * pose proof (spit_angle_cursor dn sd (GameLogic._rng g)) as Hcur.
        destruct (GameLogic.spit_angle dn sd (GameLogic._rng g)) as [angle rng1].
        simpl in Hcur. subst rng1. simpl.
        intros H.
        match type of H with
        | context [GameLogic.spit_loop n point dn bs sd ?g1 (emitted ++ [?b1])] =>
          specialize (IH g1 (emitted ++ [b1]) i e)
        end.
        rewrite length_app in IH. simpl in IH.
        replace (length emitted + 1 + i)%nat with (length emitted + S i)%nat in IH by lia.
        rewrite (IH H). unfold emission, rng_skip. simpl.
        replace (i + (i + 0) + S (S (Rng.cursor (GameLogic._rng g))))%nat
          with (S (i + S (i + 0) + Rng.cursor (GameLogic._rng g)))%nat by lia.
        reflexivity.
    + intros H. assert (Hlt : (length emitted + i < length emitted)%nat).
      { apply nth_error_Some. simpl in H. congruence. }
      lia.
Qed.

Lemma normalized_of_zero_length (d : Vector2.t) :
  Vector2.length d = 0 -> Vector2.normalized d = Vector2.mk 0 0.
Proof.
  intros H. unfold Vector2.normalized. rewrite H. now rewrite Reqb_true.
Qed.

Lemma length_of_zero : Vector2.length (Vector2.mk 0 0) = 0.
Proof.
  unfold Vector2.length, hypot. simpl.
  replace (0 * 0 + 0 * 0) with 0 by ring. apply sqrt_0.
Qed.

Lemma atan2_0_0 : atan2 0 0 = 0.
Proof. unfold atan2. now rewrite !Rltb_false by lra. Qed.

Lemma spit_direction_None (mouse_pos : option (R * R)) (event_x event_y : R) :
  BallGameApp.spit_direction mouse_pos event_x event_y = None
  <-> mouse_pos = None
      \/ exists mx my,
           mouse_pos = Some (mx, my)
           /\ negligible (Vector2.mk (event_x - mx) (event_y - my)).
Proof.
  unfold BallGameApp.spit_direction, negligible. destruct mouse_pos as [[mx my]|].
  - simpl. unfold Rltb.
    destruct (Rlt_dec 0.01 (Rabs (event_x - mx) + Rabs (event_y - my))) as [H|H].
    + split; [discriminate|]. intros [?|(mx' & my' & E & Hn)]; [discriminate|].
      injection E as <- <-. lra.
    + split; [|reflexivity]. intros _. right. exists mx, my. split; [reflexivity | lra].
  - split; auto.
Qed.

(** C3, as amended: when the direction is absent, the emission angle of
    each emitted ball is drawn uniformly from [[0, 2 PI)]; a direction that
    is present, however small, is the base of the angle, to which a uniform
    offset of at most half the spread is added, and the base of the zero
    vector is the angle 0.  It is the caller in [gui.py] that gives no
    direction when the combined magnitude is negligible. *)
Theorem spit_emission_angle (g : GameLogic.t) (point : Vector2.t)
    (direction : option Vector2.t) (count : Z) (base_speed spread_degrees : R)
    (i : nat) (e : Ball.t) :
  nth_error
    (fst (GameLogic.spit_from_inventory g point direction count base_speed
            spread_degrees)) i = Some e ->
  Rng.well_formed (GameLogic._rng g) ->
  let u := Rng.draws (GameLogic._rng g) (2 * i + Rng.cursor (GameLogic._rng g)) in
  let u' := Rng.draws (GameLogic._rng g) (S (2 * i + Rng.cursor (GameLogic._rng g))) in
  (exists angle,
     Ball.velocity e
     = Vector2.mk (cos angle * (base_speed * (0.85 + 0.30 * u')))
                  (sin angle * (base_speed * (0.85 + 0.30 * u')))
     /\ match direction with
        | None => angle = 2 * PI * u /\ 0 <= angle < 2 * PI
        | Some d =>
          let base :=
            atan2 (Vector2.y (Vector2.normalized d)) (Vector2.x (Vector2.normalized d)) in
          angle = base + radians spread_degrees * (u - 1 / 2)
          /\ (0 <= spread_degrees ->
              base - radians spread_degrees / 2 <= angle
              <= base + radians spread_degrees / 2)
          /\ (Vector2.length d = 0 -> base = 0)
        end)
  /\ (forall mouse_pos event_x event_y,
        BallGameApp.spit_direction mouse_pos event_x event_y = None
        <-> mouse_pos = None
            \/ exists mx my,
                 mouse_pos = Some (mx, my)
                 /\ negligible (Vector2.mk (event_x - mx) (event_y - my))).
Proof.
  intros He Hrng u u'. split; [|apply spit_direction_None].
  unfold GameLogic.spit_from_inventory in He.
  apply (spit_loop_velocity point _ base_speed spread_degrees _ g [] i e) in He.
  rewrite He. unfold emission, rng_skip.
  pose proof PI_RGT_0 as Hpi.
  destruct (Hrng (2 * i + Rng.cursor (GameLogic._rng g))%nat) as [Hu0 Hu1].
  fold u in Hu0, Hu1.
  destruct direction as [d|]; cbn -[Nat.mul atan2 Vector2.normalized PI cos sin].
  - eexists. split; [reflexivity|]. fold u. split; [|split].
    + lra.
    + intros Hsd.
      assert (Hs : 0 <= radians spread_degrees).
      { unfold radians. apply Rmult_le_pos; [exact Hsd | lra]. }
      split; nra.
    + intros Hlen. rewrite (normalized_of_zero_length d Hlen). simpl. apply atan2_0_0.
  - eexists. split; [reflexivity|]. fold u. split; [lra | nra].
Qed.

Lemma rng_half_well_formed : Rng.well_formed rng_half.
Proof. intros n. simpl. lra. Qed.

(** The theorem at the first ball a world releases with no direction. *)
Lemma spit_emission_angle_witness :
  nth_error
    (fst (GameLogic.spit_from_inventory loaded_world (Vector2.mk 5 5) None 1 200 20))
    0 = Some spat_ball
  /\ Rng.well_formed (GameLogic._rng loaded_world)
  /\ exists angle,
       Ball.velocity spat_ball
       = Vector2.mk (cos angle * (200 * (0.85 + 0.30 * (1 / 2))))
                    (sin angle * (200 * (0.85 + 0.30 * (1 / 2))))
       /\ angle = 2 * PI * (1 / 2) /\ 0 <= angle < 2 * PI.
Proof.
  assert (He : nth_error
                 (fst (GameLogic.spit_from_inventory loaded_world (Vector2.mk 5 5)
                         None 1 200 20)) 0 = Some spat_ball) by reflexivity.
  split; [exact He|]. split; [exact rng_half_well_formed|].
  exact (proj1 (spit_emission_angle loaded_world (Vector2.mk 5 5) None 1 200 20 0
                  spat_ball He rng_half_well_formed)).
Defined.

(** C3 as stated fails for the zero vector: it is a direction of negligible
    magnitude, and the ball is emitted at the angle 0, along +x, where a
    draw from [[0, 2 PI)] with the same generator gives the angle PI. *)
Lemma zero_direction_is_not_uniform :
  negligible (Vector2.mk 0 0)
  /\ fst (GameLogic.spit_angle (direction_norm (Some (Vector2.mk 0 0))) 20 rng_half) = 0
  /\ fst (Rng.uniform rng_half 0 (2 * PI)) = PI
  /\ 0 <> PI
  /\ map Ball.velocity
       (fst (GameLogic.spit_from_inventory loaded_world (Vector2.mk 5 5)
               (Some (Vector2.mk 0 0)) 1 200 20))
     = [Vector2.mk 200 0].
Proof.
  pose proof PI_RGT_0 as Hpi.
  assert (Hangle : GameLogic.spit_angle (direction_norm (Some (Vector2.mk 0 0))) 20
                     rng_half = (0, Rng.mk (fun _ => 1 / 2) 1)).
  { simpl. rewrite (normalized_of_zero_length _ length_of_zero). simpl.
    rewrite atan2_0_0. f_equal. lra. }
  split; [|split; [|split; [|split]]].
  - unfold negligible. simpl. rewrite Rabs_R0. lra.
  - now rewrite Hangle.
  - simpl. lra.
  - lra.
  - change (GameLogic.spit_from_inventory loaded_world (Vector2.mk 5 5)
              (Some (Vector2.mk 0 0)) 1 200 20)
      with (GameLogic.spit_loop 1 (Vector2.mk 5 5)
              (direction_norm (Some (Vector2.mk 0 0))) 200 20 loaded_world []).
    cbn [GameLogic.spit_loop]. unfold list_pop.
    cbn [loaded_world GameLogic.inventory GameLogic._rng rev app].
    rewrite Hangle. cbn [fst map Rng.random Rng.draws Rng.cursor app Ball.velocity
                         Ball.set_velocity].
    rewrite cos_0, sin_0. do 2 f_equal; lra.
Qed.

(** ** C4: mixing a color with itself *)

Lemma atan_tan_shift_PI (b : R) :
  - (PI / 2) < b < PI / 2 -> atan (sin (b + PI) / cos (b + PI)) = b.
Proof.
  intros Hb. rewrite neg_sin, neg_cos.
  assert (Hc : 0 < cos b) by (apply cos_gt_0; lra).
  replace (- sin b / - cos b) with (tan b) by (unfold tan; field; lra).
  now apply atan_tan.
Qed.

(** The angle [_circular_mean_hue] reads off a unit vector is the angle of
    that vector. *)
Lemma atan2_sin_cos (a : R) :
  0 <= a < 2 * PI ->
  (if Rltb (atan2 (sin a) (cos a)) 0
   then atan2 (sin a) (cos a) + 2 * PI
   else atan2 (sin a) (cos a)) = a.
Proof.
  intros Ha. pose proof PI_RGT_0 as Hpi. unfold atan2.
  destruct (Rlt_dec a (PI / 2)) as [H1|H1].
  { (* first quadrant *)
    assert (Hc : 0 < cos a) by (apply cos_gt_0; lra).
    rewrite (Rltb_true 0 (cos a)) by lra.
    change (sin a / cos a) with (tan a). rewrite atan_tan by lra.
    now rewrite Rltb_false by lra. }
  destruct (Req_dec_T a (PI / 2)) as [->|H2].
  { rewrite cos_PI2, sin_PI2. rewrite !(Rltb_false 0 0) by lra.
    rewrite (Rltb_true 0 1) by lra. now rewrite Rltb_false by lra. }
  destruct (Rle_dec a PI) as [H3|H3].
  { (* second quadrant *)
    assert (Hc : cos a < 0) by (apply cos_lt_0; lra).
    assert (Hs : 0 <= sin a) by (apply sin_ge_0; lra).
    rewrite (Rltb_false 0 (cos a)), (Rltb_true (cos a) 0), (Rleb_true 0 (sin a)) by lra.
    assert (Hat : atan (sin a / cos a) = a - PI).
    { replace a with (a - PI + PI) at 1 2 by ring. apply atan_tan_shift_PI. lra. }
    rewrite Hat. rewrite Rltb_false by lra. ring. }
  destruct (Rlt_dec a (3 * (PI / 2))) as [H4|H4].
  { (* third quadrant *)
    assert (Hc : cos a < 0) by (apply cos_lt_0; lra).
    assert (Hs : sin a < 0) by (apply sin_lt_0; lra).
    rewrite (Rltb_false 0 (cos a)), (Rltb_true (cos a) 0), (Rleb_false 0 (sin a)) by lra.
    assert (Hat : atan (sin a / cos a) = a - PI).
    { replace a with (a - PI + PI) at 1 2 by ring. apply atan_tan_shift_PI. lra. }
    rewrite Hat. rewrite Rltb_true by lra. ring. }
  destruct (Req_dec_T a (3 * (PI / 2))) as [->|H5].
  { rewrite cos_3PI2, sin_3PI2. rewrite !(Rltb_false 0 0) by lra.
    rewrite (Rltb_false 0 (-1)), (Rltb_true (-1) 0) by lra.
    rewrite Rltb_true by lra. lra. }
  (* fourth quadrant *)
  assert (Hs : sin a = sin (a - 2 * PI)).
  { replace a with (a - 2 * PI + PI + PI) at 1 by ring.
    rewrite !neg_sin. ring. }
  assert (Hc : cos a = cos (a - 2 * PI)).
  { replace a with (a - 2 * PI + PI + PI) at 1 by ring.
    rewrite !neg_cos. ring. }
  assert (Hpos : 0 < cos (a - 2 * PI)) by (apply cos_gt_0; lra).
  rewrite Hs, Hc. rewrite (Rltb_true 0 (cos (a - 2 * PI))) by lra.
  change (sin (a - 2 * PI) / cos (a - 2 * PI)) with (tan (a - 2 * PI)).
  rewrite atan_tan by lra.
  rewrite Rltb_true by lra. ring.
Qed.

Lemma _circular_mean_hue_same (h w : R) :
  0 <= h < 1 -> 1e-6 <= w -> _circular_mean_hue [h; h] [w; w] = h.
Proof.
  intros Hh Hw. pose proof PI_RGT_0 as Hpi.
  unfold _circular_mean_hue, sum. simpl.
  rewrite Rmax_right by lra.
  replace ((0 + cos (h * 2 * PI) * w + cos (h * 2 * PI) * w) / (0 + w + w))
    with (cos (h * 2 * PI)) by (field; lra).
  replace ((0 + sin (h * 2 * PI) * w + sin (h * 2 * PI) * w) / (0 + w + w))
    with (sin (h * 2 * PI)) by (field; lra).
  rewrite atan2_sin_cos by nra.
  field. lra.
Qed.

Lemma int_of_float_nonneg (a : R) :
  0 <= a -> IZR (int_of_float a) <= a < IZR (int_of_float a) + 1.
Proof.
  intros Ha. unfold int_of_float. rewrite Rleb_true by assumption.
  apply floor_bounds.
Qed.

Lemma from_hsv_valid (h s v : R) :
  0 <= h -> 0 <= s <= 1 -> 0 <= v <= 1 -> Color.valid (Color.from_hsv h s v).
Proof.
  intros Hh Hs Hv. unfold Color.from_hsv, hsv_to_rgb.
  destruct (Reqb s 0); [unfold Color.valid; simpl; lra|].
  pose proof (int_of_float_nonneg (h * 6) ltac:(lra)) as Hi.
  set (f := h * 6 - IZR (int_of_float (h * 6))).
  assert (Hf : 0 <= f < 1) by (unfold f; lra).
  assert (Hp : 0 <= v * (1 - s) <= 1) by nra.
  assert (Hq : 0 <= v * (1 - s * f) <= 1) by nra.
  assert (Ht : 0 <= v * (1 - s * (1 - f)) <= 1) by nra.
  repeat (destruct (_ =? _)%Z); unfold Color.valid; simpl; lra.
Qed.

Lemma mix_saturation_same (s : R) :
  0 <= s <= 1 -> s <= mix_saturation s s <= 1.
Proof.
  intros Hs. unfold mix_saturation. split.
  - apply Rmin_glb; [lra|].
    apply Rle_trans with ((1 - (1 - s) * (1 - s)) * 1.05); [nra | apply Rmax_r].
  - apply Rmin_l.
Qed.

Lemma mix_value_same (v : R) : 0 <= v -> mix_value v v = v.
Proof.
  intros Hv. unfold mix_value. rewrite Rmax_right by assumption.
  now apply sqrt_square.
Qed.

(** What [mix_colors] makes of a color and itself: the hue and the value
    are kept, the saturation goes to [mix_saturation s s]. *)
Lemma mix_colors_same (c : Color.t) (h s v : R) :
  Color.valid c -> Color.to_hsv c = Ok (h, s, v) ->
  mix_colors c c = Ok (Color.from_hsv h (mix_saturation s s) v).
Proof.
  intros Hc E.
  destruct (to_hsv_valid c Hc) as (h' & s' & v' & E' & Hh & Hs & Hv).
  rewrite E in E'. injection E' as <- <- <-.
  unfold mix_colors. rewrite E. cbn [bind].
  rewrite _circular_mean_hue_same; [|exact Hh|nra].
  rewrite mix_value_same by lra.
  rewrite clamp_id; [reflexivity|].
  apply from_hsv_valid; [lra | | lra].
  pose proof (mix_saturation_same s Hs). lra.
Qed.

(** ** From HSV and back *)

Lemma hsv_to_rgb_sector (h s v : R) (k : Z) :
  s <> 0 -> (0 <= k <= 5)%Z -> IZR k <= h * 6 < IZR k + 1 ->
  hsv_to_rgb h s v
  = let f := h * 6 - IZR k in
    let p := v * (1 - s) in
    let q := v * (1 - s * f) in
    let t := v * (1 - s * (1 - f)) in
    if (k =? 0)%Z then (v, t, p)
    else if (k =? 1)%Z then (q, v, p)
    else if (k =? 2)%Z then (p, v, t)
    else if (k =? 3)%Z then (p, q, v)
    else if (k =? 4)%Z then (t, p, v)
    else (v, p, q).
Proof.
  intros Hs Hk Hh. unfold hsv_to_rgb. rewrite Reqb_false by assumption.
  assert (Ei : int_of_float (h * 6) = k).
  { unfold int_of_float.
    assert (0 <= IZR k) by (apply IZR_le; lia).
    rewrite Rleb_true by lra. now apply floor_unique. }
  rewrite Ei, Z.mod_small by lia. reflexivity.
Qed.

Lemma pymod_unit_neg (a : R) : -1 <= a < 0 -> pymod a 1 = a + 1.
Proof.
  intros Ha. unfold pymod. rewrite (floor_unique (a / 1) (-1)); lra.
Qed.

Lemma quotient_bounds (x d lo hi : R) :
  0 < d -> lo * d <= x -> x < hi * d -> lo <= x / d < hi.
Proof.
  intros Hd Hlo Hhi. split.
  - apply Rmult_le_reg_r with d; [exact Hd|].
    unfold Rdiv. rewrite Rmult_assoc, Rinv_l by lra. lra.
  - apply Rmult_lt_reg_r with d; [exact Hd|].
    unfold Rdiv. rewrite Rmult_assoc, Rinv_l by lra. lra.
Qed.

(** The sector [k] and the hue [(k + x / d) / 6] of a color whose hue
    offset in the sector is [x / d]. *)
Ltac sector k :=
  rewrite (hsv_to_rgb_sector _ _ _ k);
  [ cbv zeta; cbn [Z.eqb Pos.eqb]; f_equal; field; lra
  | apply Rgt_not_eq; apply Rdiv_lt_0_compat; lra
  | lia
  | ].

Lemma from_hsv_to_hsv (c : Color.t) (h s v : R) :
  Color.valid c -> Color.to_hsv c = Ok (h, s, v) -> Color.from_hsv h s v = c.
Proof.
  destruct c as [r g b]. unfold Color.valid, Color.to_hsv, rgb_to_hsv, Color.from_hsv.
  cbn [Color.r Color.g Color.b]. intros (Hr & Hg & Hb).
  destruct (Rle_dec g r) as [Hgr|Hgr]; destruct (Rle_dec b r) as [Hbr|Hbr];
    destruct (Rle_dec b g) as [Hbg|Hbg]; try lra.
  - (* b <= g <= r *)
    rewrite (Rmax_left r g), (Rmax_left r b), (Rmin_right r g), (Rmin_right g b) by lra.
    destruct (Req_dec_T b r) as [E|NE].
    + rewrite Reqb_true by assumption. intros H. injection H as <- <- <-.
      unfold hsv_to_rgb. rewrite Reqb_true by reflexivity.
      f_equal; lra.
    + rewrite Reqb_false by assumption. unfold float_div.
      rewrite (Reqb_false r 0) by lra. cbn [bind].
      rewrite (Reqb_true r r) by reflexivity.
      intros H. injection H as <- <- <-.
      replace ((r - b) / (r - b) - (r - g) / (r - b)) with ((g - b) / (r - b))
        by (field; lra).
      destruct (Req_dec_T g r) as [E|NE'].
      * subst g. replace ((r - b) / (r - b)) with 1 by (field; lra).
        rewrite pymod_small by lra. sector 1%Z. simpl. lra.
      * pose proof (quotient_bounds (g - b) (r - b) 0 1 ltac:(lra) ltac:(lra) ltac:(lra)).
        rewrite pymod_small by lra. sector 0%Z. simpl. lra.
  - (* g < b <= r *)
    rewrite (Rmax_left r g), (Rmax_left r b), (Rmin_right r g), (Rmin_left g b) by lra.
    rewrite (Reqb_false g r) by lra. unfold float_div.
    rewrite (Reqb_false r 0) by lra. cbn [bind].
    rewrite (Reqb_true r r) by reflexivity.
    intros H. injection H as <- <- <-.
    replace ((r - b) / (r - g) - (r - g) / (r - g)) with ((g - b) / (r - g))
      by (field; lra).
    pose proof (quotient_bounds (g - b + (r - g)) (r - g) 0 1
                  ltac:(lra) ltac:(lra) ltac:(lra)) as Hq.
    replace ((g - b + (r - g)) / (r - g)) with ((g - b) / (r - g) + 1) in Hq
      by (field; lra).
    rewrite pymod_unit_neg by lra. sector 5%Z. simpl. lra.
  - (* g <= r < b *)
    rewrite (Rmax_left r g), (Rmax_right r b), (Rmin_right r g), (Rmin_left g b) by lra.
    rewrite (Reqb_false g b) by lra. unfold float_div.
    rewrite (Reqb_false b 0) by lra. cbn [bind].
    rewrite (Reqb_false r b) by lra.
    intros H. injection H as <- <- <-.
    replace (4 + (b - g) / (b - g) - (b - r) / (b - g)) with (4 + (r - g) / (b - g))
      by (field; lra).
    pose proof (quotient_bounds (r - g) (b - g) 0 1 ltac:(lra) ltac:(lra) ltac:(lra)).
    rewrite pymod_small by lra. sector 4%Z. simpl. lra.
  - (* b <= r < g *)
    rewrite (Rmax_right r g), (Rmax_left g b), (Rmin_left r g), (Rmin_right r b) by lra.
    rewrite (Reqb_false b g) by lra. unfold float_div.
    rewrite (Reqb_false g 0) by lra. cbn [bind].
    rewrite (Reqb_false r g), (Reqb_true g g) by lra.
    intros H. injection H as <- <- <-.
    replace (2 + (g - r) / (g - b) - (g - b) / (g - b)) with (1 + (g - r) / (g - b))
      by (field; lra).
    destruct (Req_dec_T b r) as [E|NE].
    + subst b. replace ((g - r) / (g - r)) with 1 by (field; lra).
      rewrite pymod_small by lra. sector 2%Z. simpl. lra.
    + pose proof (quotient_bounds (g - r) (g - b) 0 1 ltac:(lra) ltac:(lra) ltac:(lra)).
      rewrite pymod_small by lra. sector 1%Z. simpl. lra.
  - (* r < b <= g *)
    rewrite (Rmax_right r g), (Rmax_left g b), (Rmin_left r g), (Rmin_left r b) by lra.
    rewrite (Reqb_false r g) by lra. unfold float_div.
    rewrite (Reqb_false g 0) by lra. cbn [bind].
    rewrite (Reqb_true g g) by lra.
    intros H. injection H as <- <- <-.
    replace (2 + (g - r) / (g - r) - (g - b) / (g - r)) with (2 + (b - r) / (g - r))
      by (field; lra).
    destruct (Req_dec_T b g) as [E|NE].
    + subst b. replace ((g - r) / (g - r)) with 1 by (field; lra).
      rewrite pymod_small by lra. sector 3%Z. simpl. lra.
    + pose proof (quotient_bounds (b - r) (g - r) 0 1 ltac:(lra) ltac:(lra) ltac:(lra)).
      rewrite pymod_small by lra. sector 2%Z. simpl. lra.
  - (* r < g < b *)
    rewrite (Rmax_right r g), (Rmax_right g b), (Rmin_left r g), (Rmin_left r b) by lra.
    rewrite (Reqb_false r b) by lra. unfold float_div.
    rewrite (Reqb_false b 0) by lra. cbn [bind].
    rewrite (Reqb_false g b) by lra.
    intros H. injection H as <- <- <-.
    replace (4 + (b - g) / (b - r) - (b - r) / (b - r)) with (3 + (b - g) / (b - r))
      by (field; lra).
    pose proof (quotient_bounds (b - g) (b - r) 0 1 ltac:(lra) ltac:(lra) ltac:(lra)).
    rewrite pymod_small by lra. sector 3%Z. simpl. lra.
Qed.

Lemma to_hsv_value_pos (c : Color.t) (h s v : R) :
  Color.valid c -> Color.to_hsv c = Ok (h, s, v) -> s <> 0 -> 0 < v.
Proof.
  destruct c as [r g b]. unfold Color.valid, Color.to_hsv, rgb_to_hsv.
  cbn [Color.r Color.g Color.b]. intros (Hr & Hg & Hb).
  set (maxc := Rmax (Rmax r g) b). set (minc := Rmin (Rmin r g) b).
  assert (Hmin : 0 <= minc <= maxc).
  { unfold minc, maxc. split.
    - apply Rmin_glb; [apply Rmin_glb|]; lra.
    - apply Rle_trans with b; [apply Rmin_r | apply Rmax_r]. }
  unfold Reqb at 1. destruct (Req_dec_T minc maxc) as [E|NE].
  - intros H. injection H as <- <- <-. tauto.
  - unfold float_div. rewrite Reqb_false by lra. cbn [bind].
    intros H. injection H as <- <- <-. lra.
Qed.

(** The saturation decides the color, given the hue and a positive
    value. *)
Lemma from_hsv_saturation (h s s' v : R) :
  0 < v -> s <> 0 -> s' <> 0 ->
  Color.from_hsv h s v = Color.from_hsv h s' v -> s = s'.
Proof.
  intros Hv Hs Hs'. unfold Color.from_hsv, hsv_to_rgb.
  rewrite !Reqb_false by assumption.
  repeat (destruct (_ =? _)%Z); intros H; injection H; intros; nra.
Qed.

(** C4, as amended: mixing a color [c] of components in [[0, 1]] with
    itself keeps the hue and the value of [c] and raises its saturation
    [s] to [min(1, 1.05 * (1 - (1 - s)^2))], which is at least [s]; the
    result is [c] itself exactly when [c] is gray ([s = 0]) or fully
    saturated ([s = 1]). *)
Theorem mix_colors_with_itself (c : Color.t) :
  Color.valid c ->
  exists h s v,
    Color.to_hsv c = Ok (h, s, v)
    /\ c = Color.from_hsv h s v
    /\ mix_colors c c = Ok (Color.from_hsv h (Rmin 1 (1.05 * (1 - (1 - s) * (1 - s)))) v)
    /\ s <= Rmin 1 (1.05 * (1 - (1 - s) * (1 - s))) <= 1
    /\ (mix_colors c c = Ok c <-> s = 0 \/ s = 1).
Proof.
  intros Hc.
  destruct (to_hsv_valid c Hc) as (h & s & v & E & Hh & Hs & Hv).
  exists h, s, v. split; [exact E|].
  pose proof (from_hsv_to_hsv c h s v Hc E) as Hback.
  split; [now symmetry|].
  assert (Hsat : mix_saturation s s = Rmin 1 (1.05 * (1 - (1 - s) * (1 - s)))).
  { unfold mix_saturation. rewrite Rmax_right by nra. f_equal. ring. }
  rewrite <- Hsat. pose proof (mix_colors_same c h s v Hc E) as Hmix.
  split; [exact Hmix|]. split; [now apply mix_saturation_same|].
  rewrite Hmix. split.
  - intros H. injection H as H. rewrite <- Hback in H.
    destruct (Req_dec_T s 0) as [Hs0|Hs0]; [now left|]. right.
    assert (Hs' : mix_saturation s s <> 0)
      by (pose proof (mix_saturation_same s Hs); lra).
    pose proof (to_hsv_value_pos c h s v Hc E Hs0) as Hvpos.
    pose proof (from_hsv_saturation h _ _ v Hvpos Hs' Hs0 H) as Heq.
    rewrite Hsat in Heq. unfold Rmin in Heq.
    destruct (Rle_dec 1 (1.05 * (1 - (1 - s) * (1 - s)))); [lra | nra].
  - intros [->| ->]; rewrite Hsat.
    + replace (1.05 * (1 - (1 - 0) * (1 - 0))) with 0 by lra.
      rewrite Rmin_right by lra. now rewrite Hback.
    + replace (1.05 * (1 - (1 - 1) * (1 - 1))) with 1.05 by lra.
      rewrite Rmin_left by lra. now rewrite Hback.
Qed.

Lemma pink_is_valid : Color.valid pink.
Proof. unfold Color.valid, pink. cbn [Color.r Color.g Color.b]. lra. Qed.

(** The theorem at the color (1, 0.5, 0.5). *)
Lemma mix_colors_with_itself_witness :
  Color.valid pink
  /\ exists h s v,
       Color.to_hsv pink = Ok (h, s, v)
       /\ pink = Color.from_hsv h s v
       /\ mix_colors pink pink
          = Ok (Color.from_hsv h (Rmin 1 (1.05 * (1 - (1 - s) * (1 - s)))) v)
       /\ s <= Rmin 1 (1.05 * (1 - (1 - s) * (1 - s))) <= 1
       /\ (mix_colors pink pink = Ok pink <-> s = 0 \/ s = 1).
Proof.
  split; [exact pink_is_valid|].
  exact (mix_colors_with_itself pink pink_is_valid).
Defined.

Lemma to_hsv_pink : Color.to_hsv pink = Ok (0, 0.5, 1).
Proof.
  unfold Color.to_hsv, rgb_to_hsv, pink. cbn [Color.r Color.g Color.b].
  rewrite !(Rmax_left 1 0.5), (Rmin_right 1 0.5), (Rmin_left 0.5 0.5) by lra.
  rewrite (Reqb_false 0.5 1) by lra.
  unfold float_div. rewrite (Reqb_false 1 0) by lra. cbn [bind].
  rewrite (Reqb_true 1 1) by reflexivity.
  replace (((1 - 0.5) / (1 - 0.5) - (1 - 0.5) / (1 - 0.5)) / 6) with 0 by lra.
  rewrite pymod_small by lra.
  do 2 f_equal. f_equal. lra.
Qed.

(** C4 as stated fails for a half-saturated color: [mix_colors] of
    (1, 0.5, 0.5) with itself is (1, 0.2125, 0.2125), whose green and blue
    components are 0.2875 away from those of the color mixed. *)
Lemma mixing_pink_with_itself :
  Color.valid pink
  /\ mix_colors pink pink = Ok (Color.mk 1 0.2125 0.2125)
  /\ Color.g pink - Color.g (Color.mk 1 0.2125 0.2125) = 0.2875
  /\ Color.b pink - Color.b (Color.mk 1 0.2125 0.2125) = 0.2875.
Proof.
  split; [exact pink_is_valid|]. split; [|simpl; lra].
  rewrite (mix_colors_same pink 0 0.5 1 pink_is_valid to_hsv_pink).
  unfold mix_saturation.
  replace ((1 - (1 - 0.5) * (1 - 0.5)) * 1.05) with 0.7875 by lra.
  rewrite (Rmax_right 0 0.7875), (Rmin_right 1 0.7875) by lra.
  unfold Color.from_hsv, hsv_to_rgb.
  rewrite (Reqb_false 0.7875 0) by lra.
  assert (Ei : int_of_float (0 * 6) = 0%Z).
  { unfold int_of_float. rewrite Rleb_true by lra. apply floor_unique. lra. }
  rewrite Ei. cbn [Z.modulo Z.div_eucl Z.eqb snd].
  f_equal. f_equal; lra.
Qed.

(** ** The scenarios of the specification *)

Lemma same_but_colors_shapes (balls balls' : dict Z Ball.t) :
  same_but_colors balls balls' ->
  map shape (dict_values balls') = map shape (dict_values balls).
Proof.
  induction 1 as [|kb kb' l l' [_ Hrec] _ IH]; simpl; [reflexivity|].
  rewrite IH. f_equal. unfold recolored in Hrec. rewrite <- Hrec. reflexivity.
Qed.

(** [update] moves, wraps and culls; the mixing pass then leaves every
    ball where it is. *)
Lemma update_shapes (g : GameLogic.t) (dt : R) :
  0 < dt -> GameLogic.width g <> 0 -> GameLogic.height g <> 0 ->
  (forall b, In b (GameLogic.list_balls g) -> Color.valid (Ball.color b)) ->
  exists g',
    GameLogic.update g dt = Ok g'
    /\ map shape (GameLogic.list_balls g')
       = map shape (GameLogic.list_balls (integrated g dt)).
Proof.
  intros Hdt Hw Hh Hcol.
  pose proof (update_frame False g dt Hdt Hw Hh (fun b Hb => or_introl (Hcol b Hb))) as H.
  destruct (GameLogic.update g dt) as [g'|e]; [|destruct H].
  destruct H as (balls' & -> & Hsame). eexists. split; [reflexivity|].
  now apply same_but_colors_shapes.
Qed.

Lemma red_is_valid : Color.valid red.
Proof. unfold Color.valid, red. simpl. lra. Qed.

(** A ball at (99, 0) moving at (50, 0) in a 100 x 100 world is at (49, 0)
    after [update(1.0)]. *)
Example scenario_wrap :
  exists g',
    GameLogic.update wrap_world 1 = Ok g'
    /\ map Ball.position (GameLogic.list_balls g') = [Vector2.mk 49 0].
Proof.
  destruct (update_shapes wrap_world 1) as (g' & E & Hshape).
  - lra.
  - simpl. lra.
  - simpl. lra.
  - intros b [<-|[]]. exact red_is_valid.
  - exists g'. split; [exact E|].
    apply (f_equal (map (fun s => snd (fst (fst s))))) in Hshape.
    rewrite !map_map in Hshape. simpl in Hshape.
    rewrite (map_ext _ Ball.position) in Hshape by reflexivity.
    rewrite Hshape. unfold pymod.
    rewrite (floor_unique ((99 + 50 * 1) / 100) 1) by lra.
    rewrite (floor_unique ((0 + 0 * 1) / 100) 0) by lra.
    do 2 f_equal; lra.
Qed.

(** With the deletion zone [Rect(50, 50, 10, 10)], the ball at (55, 55) is
    removed by the next [update] and the ball at (40, 40) is not. *)
Example scenario_deletion_zone :
  exists g',
    GameLogic.update zone_world 1 = Ok g'
    /\ map shape (GameLogic.list_balls g') = [shape (ball_at 2 40 40 0 0)].
Proof.
  destruct (update_shapes zone_world 1) as (g' & E & Hshape).
  - lra.
  - simpl. lra.
  - simpl. lra.
  - intros b [<-|[<-|[]]]; exact red_is_valid.
  - exists g'. split; [exact E|]. rewrite Hshape. clear.
    assert (E1 : moved zone_world 1 (ball_at 1 55 55 0 0) = ball_at 1 55 55 0 0).
    { unfold moved, ball_at, Ball.set_position. simpl.
      replace (55 + 0 * 1) with 55 by lra. rewrite pymod_small by lra. reflexivity. }
    assert (E2 : moved zone_world 1 (ball_at 2 40 40 0 0) = ball_at 2 40 40 0 0).
    { unfold moved, ball_at, Ball.set_position. simpl.
      replace (40 + 0 * 1) with 40 by lra. rewrite pymod_small by lra. reflexivity. }
    unfold integrated. cbn [zone_world GameLogic._balls map fst snd].
    rewrite E1, E2. unfold GameLogic.cull, zone_world.
    cbn [GameLogic.set_balls GameLogic.deletion_zone GameLogic._balls dict_values map
         snd filter GameLogic.width GameLogic.height GameLogic._next_id
         GameLogic.inventory_capacity GameLogic.inventory GameLogic._rng].
    unfold Rect.contains. cbn [ball_at Ball.position Vector2.x Vector2.y Rect.x Rect.y
                               Rect.width Rect.height].
    rdecide. reflexivity.
Qed.

Lemma int_of_float_IZR (z : Z) : int_of_float (IZR z) = z.
Proof.
  unfold int_of_float. unfold Rleb. destruct (Rle_dec 0 (IZR z)) as [H|H].
  - apply floor_unique. lra.
  - rewrite <- opp_IZR. rewrite (floor_unique (IZR (- z)) (- z)) by lra. lia.
Qed.

Lemma blue_is_valid : Color.valid blue.
Proof. unfold Color.valid, blue. simpl. lra. Qed.

(** Two overlapping balls, one red and one blue, both have the color
    [mix_colors(red, blue)] after one [update]. *)
Example scenario_mixing :
  exists g' m,
    GameLogic.update touching_world 1 = Ok g'
    /\ mix_colors red blue = Ok m
    /\ map Ball.color (GameLogic.list_balls g') = [m; m]
    /\ map shape (GameLogic.list_balls g')
       = map shape (GameLogic.list_balls touching_world).
Proof.
  destruct (mix_colors_ok red blue red_is_valid blue_is_valid) as (m & Hm & _).
  unfold GameLogic.update. rewrite Rleb_false by lra.
  rewrite integrate_all_ok by (simpl; lra). cbn [bind].
  assert (E1 : forall id c, moved touching_world 1
                 (Ball.mk id (Vector2.mk 20 20) (Vector2.mk 0 0) 10 c)
               = Ball.mk id (Vector2.mk 20 20) (Vector2.mk 0 0) 10 c).
  { intros id c. unfold moved, Ball.set_position. simpl.
    replace (20 + 0 * 1) with 20 by lra. rewrite pymod_small by lra. reflexivity. }
  assert (E2 : forall id c, moved touching_world 1
                 (Ball.mk id (Vector2.mk 35 20) (Vector2.mk 0 0) 10 c)
               = Ball.mk id (Vector2.mk 35 20) (Vector2.mk 0 0) 10 c).
  { intros id c. unfold moved, Ball.set_position. simpl.
    replace (35 + 0 * 1) with 35 by lra. replace (20 + 0 * 1) with 20 by lra.
    rewrite !pymod_small by lra. reflexivity. }
  cbn [touching_world world_of GameLogic._balls map fst snd]. rewrite E1, E2.
  change (GameLogic.cull (GameLogic.set_balls _ _)) with touching_world.
  unfold GameLogic._apply_color_mixing.
  assert (Ecs : forall g, GameLogic.list_balls g
                  = [Ball.mk 1 (Vector2.mk 20 20) (Vector2.mk 0 0) 10 red;
                     Ball.mk 2 (Vector2.mk 35 20) (Vector2.mk 0 0) 10 blue] ->
                GameLogic.cell_size g = 32).
  { intros g Hg. unfold GameLogic.cell_size, GameLogic._estimate_cell_size.
    rewrite Hg. unfold sum. simpl.
    replace ((0 + 10 + 10) / (1 + 1) * 2.5) with 25 by lra. now rdecide. }
  rewrite Ecs by reflexivity.
  assert (Ec1 : forall id c, GameLogic.cell_of 32
                  (Ball.mk id (Vector2.mk 20 20) (Vector2.mk 0 0) 10 c) = (0, 0)%Z).
  { intros id c. unfold GameLogic.cell_of, pyfloordiv. simpl.
    rewrite (floor_unique (20 / 32) 0) by lra. now rewrite int_of_float_IZR. }
  assert (Ec2 : forall id c, GameLogic.cell_of 32
                  (Ball.mk id (Vector2.mk 35 20) (Vector2.mk 0 0) 10 c) = (1, 0)%Z).
  { intros id c. unfold GameLogic.cell_of, pyfloordiv. simpl.
    rewrite (floor_unique (35 / 32) 1), (floor_unique (20 / 32) 0) by lra.
    now rewrite !int_of_float_IZR. }
  unfold GameLogic.build_grid.
  cbn [touching_world world_of GameLogic._balls fold_left]. rewrite Ec1, Ec2.
  cbn [GameLogic.grid_add dict_get dict_set cell_eqb fst snd Z.eqb Pos.eqb andb app].
  cbn [fold_left GameLogic.mix_cell GameLogic.neighbors flat_map fst snd app dict_get
       cell_eqb Z.add Z.eqb Pos.eqb andb Z.pos_sub Pos.add Pos.succ Z.succ_double
       Z.pred_double Z.double Pos.pred_double].
  cbn [GameLogic.mix_pair bind dict_get Z.eqb Pos.eqb Ball.ball_id Z.leb Z.compare
       Pos.compare Pos.compare_cont].
  unfold GameLogic._maybe_mix.
  cbn [dict_get Z.eqb Pos.eqb Ball.position Ball.radius Ball.color Vector2.x Vector2.y].
  rewrite Rleb_true by lra. rewrite Hm.
  cbn [bind dict_set Z.eqb Pos.eqb GameLogic.mix_pair dict_get Ball.set_color
       Ball.ball_id Ball.position Ball.velocity Ball.radius Z.leb Z.compare Pos.compare
       Pos.compare_cont].
  exists (GameLogic.set_balls touching_world
            [(1%Z, Ball.mk 1 (Vector2.mk 20 20) (Vector2.mk 0 0) 10 m);
             (2%Z, Ball.mk 2 (Vector2.mk 35 20) (Vector2.mk 0 0) 10 m)]), m.
  repeat split.
Qed.

Lemma hypot_eq (a b c : R) : 0 <= c -> a * a + b * b = c * c -> hypot a b = c.
Proof.
  intros Hc E. unfold hypot. rewrite E. now apply sqrt_square.
Qed.

(** [suck] takes the closest candidates first and stops at the capacity:
    of three live balls at distances 3, 1 and 2, a world with one free slot
    captures the one at distance 1. *)
Example suck_takes_closest_up_to_capacity :
  GameLogic.suck_into_inventory crowded_world (Vector2.mk 50 50) 60 (Some 4%Z)
  = ([ball_at 3 51 50 0 0],
     GameLogic.mk 100 100
       [(2%Z, ball_at 2 50 53 0 0); (4%Z, ball_at 4 48 50 0 0)]
       5 (Some 2%Z) [ball_at 1 10 10 0 0; ball_at 3 51 50 0 0] None rng_half).
Proof.
  unfold GameLogic.suck_into_inventory.
  assert (Ec : GameLogic.candidates crowded_world (Vector2.mk 50 50) 60
               = [(3, ball_at 2 50 53 0 0); (1, ball_at 3 51 50 0 0);
                  (2, ball_at 4 48 50 0 0)]).
  { unfold GameLogic.candidates, crowded_world, ball_at.
    cbn [GameLogic._balls dict_values map snd flat_map Ball.position Vector2.x
         Vector2.y app].
    rewrite !Rleb_true by lra.
    rewrite (hypot_eq (50 - 50) (53 - 50) 3), (hypot_eq (51 - 50) (50 - 50) 1),
      (hypot_eq (48 - 50) (50 - 50) 2) by lra.
    reflexivity. }
  rewrite Ec. unfold sort_by_key. cbn [fold_left insert_by_key fst].
  rdecide. cbn [insert_by_key fst]. rdecide.
  reflexivity.
Qed.

(** With balls 1, 2, 3 captured in that order, a spit of two releases
    ball 3, then ball 2, and ball 1 stays. *)
Example spit_releases_last_first :
  map Ball.ball_id
      (fst (GameLogic.spit_from_inventory loaded_world (Vector2.mk 5 5) None 2 200 20))
  = [3%Z; 2%Z]
  /\ map Ball.ball_id
       (GameLogic.inventory
          (snd (GameLogic.spit_from_inventory loaded_world (Vector2.mk 5 5) None 2 200 20)))
     = [1%Z].
Proof. split; reflexivity. Qed.

(** * Further properties *)

(** ** The entity store *)

Lemma dict_get_In_pair (d : dict Z Ball.t) (k : Z) (v : Ball.t) :
  dict_get Z.eqb d k = Some v -> In (k, v) d.
Proof.
  induction d as [|[k0 v0] d IH]; simpl; [discriminate|].
  destruct (Z.eqb_spec k k0) as [->|Hne]; intros H.
  - injection H as ->. now left.
  - right. now apply IH.
Qed.

Lemma In_pair_dict_get (d : dict Z Ball.t) (k : Z) (v : Ball.t) :
  NoDup (dict_keys d) -> In (k, v) d -> dict_get Z.eqb d k = Some v.
Proof.
  induction d as [|[k0 v0] d IH]; simpl; [tauto|].
  intros Hnd [H|H]; inversion Hnd as [|? ? Hout Hnd']; subst.
  - injection H as -> ->. now rewrite Z.eqb_refl.
  - destruct (Z.eqb_spec k k0) as [->|Hne]; [|now apply IH].
    exfalso. apply Hout. change k0 with (fst (k0, v)). now apply in_map.
Qed.

(** X1: in every world the operations of [GameLogic] produce, ball ids are
    unique across the live map and the inventory, a live ball is found
    under its own id, no ball of the inventory is live, and every id in use
    is below the next id [create_ball] assigns. *)
Theorem reachable_world_ids (g : GameLogic.t) :
  reachable g ->
  NoDup (all_ids g)
  /\ (forall k b, dict_get Z.eqb (GameLogic._balls g) k = Some b -> Ball.ball_id b = k)
  /\ (forall b, In b (GameLogic.inventory g) ->
        dict_get Z.eqb (GameLogic._balls g) (Ball.ball_id b) = None)
  /\ (forall id, In id (all_ids g) -> (id < GameLogic._next_id g)%Z).
Proof.
  intros Hr. destruct (reachable_ids_unique g Hr) as [[Hnd Hkey] Hlt].
  split; [exact Hnd|]. split; [|split; [|exact Hlt]].
  - intros k b Hget. apply dict_get_In_pair in Hget.
    rewrite Forall_forall in Hkey. symmetry. exact (Hkey _ Hget).
  - intros b Hb. apply dict_get_None. intros Hin.
    apply (NoDup_app_disjoint _ _ (Ball.ball_id b) Hnd Hin). now apply in_map.
Qed.

(** The theorem at the world [__init__] builds from three balls. *)
Lemma reachable_world_ids_witness :
  reachable started_world
  /\ NoDup (all_ids started_world)
  /\ (forall id, In id (all_ids started_world) ->
        (id < GameLogic._next_id started_world)%Z).
Proof.
  split; [exact started_world_reachable|].
  pose proof (reachable_world_ids started_world started_world_reachable)
    as (H1 & _ & _ & H4).
  split; assumption.
Defined.

(** X2: in such a world [create_ball] gives the new ball the id [_next_id],
    which no ball has; the ball goes live at the end of the map, found under
    its id, with the attributes given; every other lookup, the inventory and
    the settings are as before, and [_next_id] grows by one. *)
Theorem create_ball_fresh (g : GameLogic.t) (position velocity : Vector2.t)
    (radius : R) (color : Color.t) :
  reachable g ->
  exists g',
    let ball := Ball.mk (GameLogic._next_id g) position velocity radius color in
    GameLogic.create_ball g position velocity radius color = Ok (ball, g')
    /\ ~ In (Ball.ball_id ball) (all_ids g)
    /\ GameLogic._balls g' = GameLogic._balls g ++ [(Ball.ball_id ball, ball)]
    /\ dict_get Z.eqb (GameLogic._balls g') (Ball.ball_id ball) = Some ball
    /\ (forall k, k <> Ball.ball_id ball ->
          dict_get Z.eqb (GameLogic._balls g') k = dict_get Z.eqb (GameLogic._balls g) k)
    /\ GameLogic._next_id g' = (GameLogic._next_id g + 1)%Z
    /\ GameLogic.inventory g' = GameLogic.inventory g
    /\ same_settings_but_next g g'.
Proof.
  intros Hr. destruct (reachable_ids_unique g Hr) as [_ Hlt].
  assert (Hfresh : ~ In (GameLogic._next_id g) (all_ids g)).
  { intros Hin. specialize (Hlt _ Hin). lia. }
  assert (Hout : ~ In (GameLogic._next_id g) (dict_keys (GameLogic._balls g))).
  { intros Hin. apply Hfresh. unfold all_ids. apply in_or_app. now left. }
  eexists. cbv zeta. unfold GameLogic.create_ball.
  split; [reflexivity|]. cbn [Ball.ball_id GameLogic._balls GameLogic._next_id
                              GameLogic.inventory].
  split; [exact Hfresh|]. split; [now apply dict_set_fresh|].
  split; [rewrite dict_get_set; now rewrite Z.eqb_refl|].
  split; [|split; [reflexivity|split; [reflexivity | now repeat split]]].
  intros k Hk. rewrite dict_get_set.
  destruct (Z.eqb_spec k (GameLogic._next_id g)); [contradiction | reflexivity].
Qed.

(** The theorem at the world [__init__] builds from three balls. *)
Lemma create_ball_fresh_witness :
  reachable started_world
  /\ exists g',
       GameLogic.create_ball started_world (Vector2.mk 1 2) (Vector2.mk 3 4) 5 red
       = Ok (Ball.mk 4 (Vector2.mk 1 2) (Vector2.mk 3 4) 5 red, g')
       /\ ~ In 4%Z (all_ids started_world).
Proof.
  split; [exact started_world_reachable|].
  destruct (create_ball_fresh started_world (Vector2.mk 1 2) (Vector2.mk 3 4) 5 red
              started_world_reachable) as (g' & H1 & H2 & _).
  exists g'. split; [exact H1 | exact H2].
Defined.

Lemma dict_pop_absent (d : dict Z Ball.t) (k : Z) :
  dict_get Z.eqb d k = None -> dict_pop Z.eqb d k = d.
Proof.
  induction d as [|[k0 v0] d IH]; simpl; [reflexivity|].
  destruct (Z.eqb k k0); [discriminate|]. intros H. now rewrite IH.
Qed.

Lemma remove_ball_balls (g : GameLogic.t) (k : Z) :
  GameLogic._balls (GameLogic.remove_ball g k) = dict_pop Z.eqb (GameLogic._balls g) k.
Proof.
  unfold GameLogic.remove_ball, dict_mem.
  destruct (dict_get Z.eqb (GameLogic._balls g) k) eqn:E; [reflexivity|].
  now rewrite dict_pop_absent.
Qed.

Lemma dict_pop_get_other (d : dict Z Ball.t) (k k' : Z) :
  k' <> k -> dict_get Z.eqb (dict_pop Z.eqb d k) k' = dict_get Z.eqb d k'.
Proof.
  intros Hne. induction d as [|[k0 v0] d IH]; simpl; [reflexivity|].
  destruct (Z.eqb_spec k k0) as [->|Hk].
  - destruct (Z.eqb_spec k' k0); [contradiction | reflexivity].
  - simpl. destruct (Z.eqb k' k0); [reflexivity | exact IH].
Qed.

(** On a dict, whose keys are unique, [pop] drops every entry of the
    key. *)
Lemma dict_pop_filter (d : dict Z Ball.t) (k : Z) :
  NoDup (dict_keys d) ->
  dict_pop Z.eqb d k = filter (fun kb => negb (fst kb =? k)%Z) d.
Proof.
  induction d as [|[k0 v0] d IH]; simpl; intros Hnd; [reflexivity|].
  inversion Hnd as [|? ? Hout Hnd']; subst.
  rewrite (Z.eqb_sym k0 k). destruct (Z.eqb_spec k k0) as [->|Hne]; simpl.
  - rewrite <- IH by exact Hnd'. symmetry. apply dict_pop_absent.
    now apply dict_get_None.
  - now rewrite IH.
Qed.

Lemma filter_keys_NoDup (f : Z * Ball.t -> bool) (d : dict Z Ball.t) :
  NoDup (dict_keys d) -> NoDup (dict_keys (filter f d)).
Proof. apply NoDup_map_filter. Qed.

(** X3: in a world the operations produce, [remove_ball(k)] removes the
    ball of id [k] and nothing else: [k] is no longer found, every other
    lookup and the order of the live balls are as before, the inventory is
    untouched; with no live ball of id [k] the world is unchanged, so a
    second removal changes nothing. *)
Theorem remove_ball_removes (g : GameLogic.t) (k : Z) :
  reachable g ->
  let g' := GameLogic.remove_ball g k in
  dict_get Z.eqb (GameLogic._balls g') k = None
  /\ (forall k', k' <> k ->
        dict_get Z.eqb (GameLogic._balls g') k' = dict_get Z.eqb (GameLogic._balls g) k')
  /\ GameLogic.list_balls g'
     = filter (fun b => negb (Ball.ball_id b =? k)%Z) (GameLogic.list_balls g)
  /\ (dict_get Z.eqb (GameLogic._balls g) k = None -> g' = g)
  /\ GameLogic.remove_ball g' k = g'
  /\ GameLogic.inventory g' = GameLogic.inventory g.
Proof.
  intros Hr. destruct (reachable_ids_unique g Hr) as [[Hnd Hkey] _].
  assert (Hkeys : NoDup (dict_keys (GameLogic._balls g)))
    by (now apply NoDup_app_remove_r in Hnd).
  cbv zeta.
  assert (Hnone : dict_get Z.eqb (GameLogic._balls (GameLogic.remove_ball g k)) k = None).
  { rewrite remove_ball_balls, dict_pop_filter by exact Hkeys.
    apply dict_get_None. intros Hin. apply in_map_iff in Hin as ([k0 b0] & E & Hin).
    apply filter_In in Hin as [_ Hf]. simpl in E, Hf. subst k0.
    now rewrite Z.eqb_refl in Hf. }
  split; [exact Hnone|]. split; [|split; [|split; [|split]]].
  - intros k' Hk'. rewrite remove_ball_balls. now apply dict_pop_get_other.
  - unfold GameLogic.list_balls. rewrite remove_ball_balls, dict_pop_filter by exact Hkeys.
    unfold dict_values. clear Hnd Hkeys Hnone.
    induction Hkey as [|[k0 b0] d Hk0 _ IH]; simpl; [reflexivity|].
    simpl in Hk0. subst k0. destruct (Ball.ball_id b0 =? k)%Z; simpl; now rewrite IH.
  - intros H. unfold GameLogic.remove_ball, dict_mem. now rewrite H.
  - unfold GameLogic.remove_ball at 1. unfold dict_mem. now rewrite Hnone.
  - unfold GameLogic.remove_ball. now destruct (dict_mem _ _ _).
Qed.

(** The theorem at the world [__init__] builds from three balls, for the
    id 2. *)
Lemma remove_ball_removes_witness :
  reachable started_world
  /\ dict_get Z.eqb (GameLogic._balls (GameLogic.remove_ball started_world 2)) 2%Z
     = None
  /\ GameLogic.remove_ball (GameLogic.remove_ball started_world 2) 2
     = GameLogic.remove_ball started_world 2.
Proof.
  split; [exact started_world_reachable|].
  pose proof (remove_ball_removes started_world 2 started_world_reachable)
    as (H1 & _ & _ & _ & H5 & _).
  split; assumption.
Defined.

(** ** The simulation step *)

Lemma filter_filter_and {A : Type} (f g : A -> bool) (l : list A) :
  filter f (filter g l) = filter (fun x => g x && f x) l.
Proof.
  induction l as [|a l IH]; simpl; [reflexivity|].
  destruct (g a); simpl; [destruct (f a)|]; now rewrite IH.
Qed.

Lemma filter_snd {A B : Type} (f : B -> bool) (l : list (A * B)) :
  map snd (filter (fun kb => f (snd kb)) l) = filter f (map snd l).
Proof.
  induction l as [|a l IH]; simpl; [reflexivity|].
  destruct (f (snd a)); simpl; now rewrite IH.
Qed.

Lemma fold_pop_filter (ks : list Z) :
  forall d : dict Z Ball.t,
    NoDup (dict_keys d) ->
    fold_left (dict_pop Z.eqb) ks d
    = filter (fun kb => negb (existsb (Z.eqb (fst kb)) ks)) d.
Proof.
  induction ks as [|k ks IH]; intros d Hnd; simpl.
  - induction d as [|kb d IHd]; simpl; [reflexivity|].
    inversion Hnd; subst. now rewrite <- IHd.
  - rewrite dict_pop_filter by exact Hnd.
    rewrite IH by now apply filter_keys_NoDup.
    rewrite filter_filter_and. apply filter_ext. intros kb.
    destruct (fst kb =? k)%Z; simpl; [reflexivity|].
    now destruct (existsb _ ks).
Qed.

Lemma fold_remove_ball_balls (ks : list Z) :
  forall g : GameLogic.t,
    GameLogic._balls (fold_left GameLogic.remove_ball ks g)
    = fold_left (dict_pop Z.eqb) ks (GameLogic._balls g).
Proof.
  induction ks as [|k ks IH]; intros g; simpl; [reflexivity|].
  now rewrite IH, remove_ball_balls.
Qed.

(** With unique ids, the deletion zone removes the balls it holds, and
    those only. *)
Lemma cull_balls (g : GameLogic.t) :
  ids_unique g ->
  GameLogic._balls (GameLogic.cull g)
  = filter (fun kb => negb (in_zone g (Ball.position (snd kb)))) (GameLogic._balls g).
Proof.
  intros [Hnd Hkey].
  assert (Hkeys : NoDup (dict_keys (GameLogic._balls g)))
    by (now apply NoDup_app_remove_r in Hnd).
  unfold GameLogic.cull, in_zone.
  destruct (GameLogic.deletion_zone g) as [zone|].
  - rewrite fold_remove_ball_balls, fold_pop_filter by exact Hkeys.
    apply filter_ext_in. intros [k b] Hin. simpl. f_equal.
    rewrite Forall_forall in Hkey.
    destruct (Rect.contains zone (Ball.position b)) eqn:Ec.
    + apply existsb_exists. exists (Ball.ball_id b). split.
      * apply in_map. apply filter_In. split; [|exact Ec].
        change b with (snd (k, b)). now apply in_map.
      * apply Z.eqb_eq. exact (Hkey _ Hin).
    + destruct (existsb _ _) eqn:Ee; [|reflexivity].
      apply existsb_exists in Ee as (id & Hid & Heq).
      apply Z.eqb_eq in Heq. simpl in Heq. subst id.
      apply in_map_iff in Hid as (b' & Hb' & Hf).
      apply filter_In in Hf as [Hf Hc].
      apply in_map_iff in Hf as ([k' b''] & E & Hin'). simpl in E. subst b''.
      pose proof (Hkey _ Hin') as Hk'. simpl in Hk'.
      assert (b' = b).
      { assert (k' = k) by congruence. subst k'.
        apply (In_pair_dict_get _ _ _ Hkeys) in Hin, Hin'. congruence. }
      subst b'. congruence.
  - clear. induction (GameLogic._balls g) as [|kb d IH]; simpl; [reflexivity|].
    f_equal. exact IH.
Qed.

Lemma integrate_all_moved (g : GameLogic.t) (dt : R) (balls balls' : dict Z Ball.t) :
  GameLogic.integrate_all g dt balls = Ok balls' ->
  balls' = map (fun kb => (fst kb, moved g dt (snd kb))) balls.
Proof.
  revert balls'. induction balls as [|[k b] balls IH]; simpl; intros balls' E.
  - now injection E as <-.
  - unfold GameLogic.integrate, float_mod in E.
    destruct (Reqb (GameLogic.width g) 0); [discriminate|].
    destruct (Reqb (GameLogic.height g) 0); [discriminate|].
    cbn [bind] in E.
    destruct (GameLogic.integrate_all g dt balls) as [rest|]; [|discriminate].
    cbn [bind] in E. injection E as <-. now rewrite (IH rest).
Qed.

(** An [update] that returns, for [dt > 0], returns the integrated world
    with, at most, other colors. *)
Lemma update_Ok_frame (g g' : GameLogic.t) (dt : R) :
  0 < dt -> GameLogic.update g dt = Ok g' ->
  exists balls',
    g' = GameLogic.set_balls (integrated g dt) balls'
    /\ same_but_colors (GameLogic._balls (integrated g dt)) balls'.
Proof.
  intros Hdt E. unfold GameLogic.update in E. rewrite Rleb_false in E by lra.
  destruct (GameLogic.integrate_all g dt (GameLogic._balls g)) as [balls1|] eqn:E1;
    [|discriminate].
  cbn [bind] in E. apply integrate_all_moved in E1. subst balls1.
  pose proof (_apply_color_mixing_frame True (integrated g dt) (fun _ _ => or_intror I))
    as H.
  unfold integrated in H at 1. rewrite E in H. exact H.
Qed.

Lemma moved_same_ids (g : GameLogic.t) (dt : R) (balls : dict Z Ball.t) :
  same_ids balls (map (fun kb => (fst kb, moved g dt (snd kb))) balls).
Proof.
  induction balls as [|kb balls IH]; simpl; constructor; [now split | exact IH].
Qed.

Lemma cull_same (g : GameLogic.t) :
  GameLogic.inventory (GameLogic.cull g) = GameLogic.inventory g
  /\ GameLogic._rng (GameLogic.cull g) = GameLogic._rng g
  /\ same_settings g (GameLogic.cull g).
Proof.
  unfold GameLogic.cull. destruct (GameLogic.deletion_zone g) as [zone|] eqn:Ez;
    [|now repeat split].
  revert Ez.
  generalize (map Ball.ball_id
    (filter (fun ball => Rect.contains zone (Ball.position ball))
       (dict_values (GameLogic._balls g)))).
  intros ids. revert g. induction ids as [|k ids IH]; simpl; intros g Ez;
    [now repeat split|].
  assert (Hstep : GameLogic.inventory (GameLogic.remove_ball g k) = GameLogic.inventory g
                  /\ GameLogic._rng (GameLogic.remove_ball g k) = GameLogic._rng g
                  /\ same_settings g (GameLogic.remove_ball g k)).
  { unfold GameLogic.remove_ball. destruct (dict_mem _ _ _); now repeat split. }
  destruct Hstep as (Hi & Hr & Hw & Hh & Hn & Hc & Hz).
  destruct (IH (GameLogic.remove_ball g k)) as (Hi' & Hr' & Hw' & Hh' & Hn' & Hc' & Hz').
  { now rewrite Hz. }
  unfold same_settings. repeat split; congruence.
Qed.

Lemma integrated_balls (g : GameLogic.t) (dt : R) :
  ids_unique g /\ ids_below_next g ->
  GameLogic._balls (integrated g dt)
  = filter (fun kb => negb (in_zone g (Ball.position (snd kb))))
           (map (fun kb => (fst kb, moved g dt (snd kb))) (GameLogic._balls g)).
Proof.
  intros Hu. unfold integrated.
  rewrite cull_balls
    by exact (proj1 (set_balls_well_identified g _ (moved_same_ids g dt _) Hu)).
  reflexivity.
Qed.

Lemma integrated_zone (g : GameLogic.t) (dt : R) :
  GameLogic.deletion_zone (integrated g dt) = GameLogic.deletion_zone g.
Proof.
  unfold integrated.
  destruct (cull_same
              (GameLogic.set_balls g
                 (map (fun kb => (fst kb, moved g dt (snd kb))) (GameLogic._balls g))))
    as (_ & _ & _ & _ & _ & _ & Hz).
  exact Hz.
Qed.

(** X4: in a world the operations produce, an [update(dt)] with [dt > 0]
    that returns leaves live exactly the balls whose wrapped position is
    outside the deletion zone, in their order, each moved by
    [velocity * dt] and wrapped; no live ball is in the deletion zone
    afterwards. *)
Theorem update_culls_the_zone (g g' : GameLogic.t) (dt : R) :
  reachable g -> 0 < dt -> GameLogic.update g dt = Ok g' ->
  map shape (GameLogic.list_balls g')
  = map shape
      (filter (fun b => negb (in_zone g (Ball.position b)))
              (map (moved g dt) (GameLogic.list_balls g)))
  /\ (forall b', In b' (GameLogic.list_balls g') ->
        in_zone g' (Ball.position b') = false).
Proof.
  intros Hr Hdt E. pose proof (reachable_ids_unique g Hr) as Hu.
  destruct (update_Ok_frame g g' dt Hdt E) as (balls' & -> & Hsame).
  assert (Hshape : map shape (dict_values balls')
                   = map shape
                       (filter (fun b => negb (in_zone g (Ball.position b)))
                               (map (moved g dt) (GameLogic.list_balls g)))).
  { rewrite (same_but_colors_shapes _ _ Hsame). f_equal.
    rewrite (integrated_balls g dt Hu). unfold dict_values.
    rewrite (filter_snd (fun b => negb (in_zone g (Ball.position b)))).
    unfold GameLogic.list_balls, dict_values. now rewrite !map_map. }
  split; [exact Hshape|].
  intros b' Hb'. unfold GameLogic.list_balls in Hb'. simpl in Hb'.
  assert (Hz : in_zone (GameLogic.set_balls (integrated g dt) balls') (Ball.position b')
               = in_zone g (Ball.position b')).
  { unfold in_zone. simpl. now rewrite integrated_zone. }
  rewrite Hz.
  assert (Hin : In (shape b') (map shape (dict_values balls'))) by now apply in_map.
  rewrite Hshape in Hin. apply in_map_iff in Hin as (b & Eb & Hb).
  apply filter_In in Hb as [_ Hf].
  assert (Ball.position b' = Ball.position b) by (unfold shape in Eb; congruence).
  rewrite H. now destruct (in_zone g (Ball.position b)).
Qed.

Lemma zone_world_reachable : reachable zone_world.
Proof.
  apply (reach_set_deletion_zone
           (GameLogic.mk 100 100
              [(1%Z, ball_at 1 55 55 0 0); (2%Z, ball_at 2 40 40 0 0)]
              3 None [] None rng_half)
           (Some (Rect.mk 50 50 10 10))).
  apply (reach_init 100 100 (Some [ball_at 1 55 55 0 0; ball_at 2 40 40 0 0])
           None rng_half).
  reflexivity.
Qed.

Lemma zone_world_updates : exists g', GameLogic.update zone_world 1 = Ok g'.
Proof.
  apply update_returns; [simpl; lra | simpl; lra |].
  intros b [<-|[<-|[]]]; apply red_is_valid.
Qed.

(** The theorem at the world of the deletion-zone scenario, for
    [dt = 1]. *)
Lemma update_culls_the_zone_witness :
  reachable zone_world /\ 0 < 1
  /\ exists g',
       GameLogic.update zone_world 1 = Ok g'
       /\ map shape (GameLogic.list_balls g')
          = map shape
              (filter (fun b => negb (in_zone zone_world (Ball.position b)))
                      (map (moved zone_world 1) (GameLogic.list_balls zone_world)))
       /\ (forall b', In b' (GameLogic.list_balls g') ->
             in_zone g' (Ball.position b') = false).
Proof.
  assert (H1 : 0 < 1) by lra.
  destruct zone_world_updates as [g' E].
  repeat (split; [first [exact zone_world_reachable | exact H1]|]).
  exists g'. split; [exact E|].
  exact (update_culls_the_zone zone_world g' 1 zone_world_reachable H1 E).
Defined.

(** X5: an [update] that returns leaves the inventory, the generator, the
    dimensions, the next id, the capacity and the deletion zone as they
    were; every ball live afterwards was live before, with the same id,
    velocity and radius, at the position the move and the wrap give it;
    and for [dt <= 0] the world is returned as it was. *)
Theorem update_keeps_the_rest (g g' : GameLogic.t) (dt : R) :
  GameLogic.update g dt = Ok g' ->
  GameLogic.inventory g' = GameLogic.inventory g
  /\ GameLogic._rng g' = GameLogic._rng g
  /\ same_settings g g'
  /\ (forall b', In b' (GameLogic.list_balls g') ->
        exists b, In b (GameLogic.list_balls g)
                  /\ Ball.ball_id b' = Ball.ball_id b
                  /\ Ball.velocity b' = Ball.velocity b
                  /\ Ball.radius b' = Ball.radius b
                  /\ (0 < dt -> Ball.position b' = Ball.position (moved g dt b)))
  /\ (dt <= 0 -> g' = g).
Proof.
  intros E. destruct (Rle_dec dt 0) as [Hle|Hgt].
  - unfold GameLogic.update in E. rewrite Rleb_true in E by exact Hle.
    injection E as <-. repeat split.
    intros b Hb. exists b. repeat split; [exact Hb|]. intros Hdt. lra.
  - assert (Hdt : 0 < dt) by lra.
    destruct (update_Ok_frame g g' dt Hdt E) as (balls' & -> & Hsame).
    set (g1 := GameLogic.set_balls g
                 (map (fun kb => (fst kb, moved g dt (snd kb))) (GameLogic._balls g))).
    destruct (cull_same g1) as (Hi & Hr & Hw & Hh & Hn & Hc & Hz).
    unfold integrated. fold g1. simpl.
    split; [exact Hi|]. split; [exact Hr|].
    split; [unfold same_settings; simpl; now repeat split|].
    split; [|intros; lra].
    intros b' Hb'. unfold GameLogic.list_balls in Hb'. simpl in Hb'.
    destruct (same_but_colors_In _ _ _ Hsame Hb') as (b1 & Hb1 & Hrec).
    destruct (integrated_values g dt b1 Hb1) as (b & Hb & ->).
    exists b. split; [exact Hb|]. unfold recolored in Hrec. rewrite <- Hrec.
    now repeat split.
Qed.

(** The theorem at the world of the deletion-zone scenario, for
    [dt = 1]. *)
Lemma update_keeps_the_rest_witness :
  exists g',
    GameLogic.update zone_world 1 = Ok g'
    /\ GameLogic.inventory g' = GameLogic.inventory zone_world
    /\ GameLogic._rng g' = GameLogic._rng zone_world
    /\ same_settings zone_world g'
    /\ (forall b', In b' (GameLogic.list_balls g') ->
          exists b, In b (GameLogic.list_balls zone_world)
                    /\ Ball.ball_id b' = Ball.ball_id b
                    /\ Ball.velocity b' = Ball.velocity b
                    /\ Ball.radius b' = Ball.radius b
                    /\ (0 < 1 -> Ball.position b' = Ball.position (moved zone_world 1 b)))
    /\ (1 <= 0 -> g' = zone_world).
Proof.
  destruct zone_world_updates as [g' E].
  exists g'. split; [exact E|].
  exact (update_keeps_the_rest zone_world g' 1 E).
Defined.

(** X6: [update(dt)] with [dt > 0] raises [ZeroDivisionError] when a ball
    is live and the width or the height is zero: the wrap takes the
    position modulo the dimension. *)
Theorem update_raises_on_zero_dimension (g : GameLogic.t) (dt : R) :
  0 < dt -> GameLogic._balls g <> [] ->
  GameLogic.width g = 0 \/ GameLogic.height g = 0 ->
  GameLogic.update g dt = Raise ZeroDivisionError.
Proof.
  intros Hdt Hne Hdim. unfold GameLogic.update. rewrite Rleb_false by lra.
  destruct (GameLogic._balls g) as [|[k b] rest]; [contradiction|].
  cbn [GameLogic.integrate_all]. unfold GameLogic.integrate, float_mod.
  destruct (Req_dec (GameLogic.width g) 0) as [Hw|Hw].
  - rewrite (Reqb_true _ _ Hw). reflexivity.
  - rewrite (Reqb_false _ _ Hw). cbn [bind].
    destruct Hdim as [Hw'|Hh]; [contradiction|].
    rewrite (Reqb_true _ _ Hh). reflexivity.
Qed.

(** The theorem at a world of height zero with one ball. *)
Lemma update_raises_on_zero_dimension_witness :
  0 < 1
  /\ GameLogic._balls (world_of 100 0 [(1%Z, ball_at 1 10 0 0 0)] 2) <> []
  /\ (GameLogic.width (world_of 100 0 [(1%Z, ball_at 1 10 0 0 0)] 2) = 0
      \/ GameLogic.height (world_of 100 0 [(1%Z, ball_at 1 10 0 0 0)] 2) = 0)
  /\ GameLogic.update (world_of 100 0 [(1%Z, ball_at 1 10 0 0 0)] 2) 1
     = Raise ZeroDivisionError.
Proof.
  assert (H1 : 0 < 1) by lra.
  assert (Hne : GameLogic._balls (world_of 100 0 [(1%Z, ball_at 1 10 0 0 0)] 2) <> [])
    by discriminate.
  assert (Hdim : GameLogic.width (world_of 100 0 [(1%Z, ball_at 1 10 0 0 0)] 2) = 0
                 \/ GameLogic.height (world_of 100 0 [(1%Z, ball_at 1 10 0 0 0)] 2) = 0)
    by (right; reflexivity).
  repeat (split; [assumption|]).
  exact (update_raises_on_zero_dimension _ 1 H1 Hne Hdim).
Defined.

Lemma _apply_color_mixing_valid (g : GameLogic.t) :
  (forall b, In b (GameLogic.list_balls g) -> Color.valid (Ball.color b)) ->
  exists g',
    GameLogic._apply_color_mixing g = Ok g'
    /\ forall b', In b' (GameLogic.list_balls g') -> Color.valid (Ball.color b').
Proof.
  intros Hcol. unfold GameLogic._apply_color_mixing.
  set (P := fun balls : dict Z Ball.t =>
              forall b, In b (dict_values balls) -> Color.valid (Ball.color b)).
  assert (H : holds P False
                (fold_left
                   (GameLogic.mix_cell
                      (GameLogic.build_grid (GameLogic.cell_size g) (GameLogic._balls g)))
                   (GameLogic.build_grid (GameLogic.cell_size g) (GameLogic._balls g))
                   (Ok (GameLogic._balls g)))).
  { apply mix_cells_holds.
    - intros balls k a m Hv Ha Hm b Hb.
      apply dict_set_values in Hb as [->|Hb]; [exact Hm | now apply Hv].
    - intros balls k a Hv Ha. left. apply Hv. eapply dict_get_In. exact Ha.
    - exact Hcol. }
  destruct (fold_left _ _ _) as [balls'|e]; simpl in *; [|destruct H].
  eexists. split; [reflexivity|]. exact H.
Qed.

(** X7: an [update] keeps the colors in range: when every live ball has
    its color components in [0, 1] and [update(dt)] returns, every live
    ball has them in [0, 1] afterwards, mixed or not. *)
Theorem update_keeps_colors_valid (g g' : GameLogic.t) (dt : R) :
  GameLogic.update g dt = Ok g' ->
  (forall b, In b (GameLogic.list_balls g) -> Color.valid (Ball.color b)) ->
  forall b', In b' (GameLogic.list_balls g') -> Color.valid (Ball.color b').
Proof.
  intros E Hcol. unfold GameLogic.update in E.
  destruct (Rleb dt 0); [now injection E as <-|].
  destruct (GameLogic.integrate_all g dt (GameLogic._balls g)) as [balls1|] eqn:E1;
    [|discriminate].
  cbn [bind] in E. apply integrate_all_moved in E1. subst balls1.
  destruct (_apply_color_mixing_valid (integrated g dt)) as (g'' & Emix & Hvalid).
  - intros b1 Hb1. destruct (integrated_values g dt b1 Hb1) as (b & Hb & ->).
    exact (Hcol b Hb).
  - unfold integrated in Emix. rewrite E in Emix. injection Emix as <-. exact Hvalid.
Qed.

(** The theorem at the world of the mixing scenario, for [dt = 1]: the
    call returns, and the two balls, which touch, are mixed. *)
Lemma update_keeps_colors_valid_witness :
  (forall b, In b (GameLogic.list_balls touching_world) -> Color.valid (Ball.color b))
  /\ exists g',
       GameLogic.update touching_world 1 = Ok g'
       /\ forall b', In b' (GameLogic.list_balls g') -> Color.valid (Ball.color b').
Proof.
  assert (Hcol : forall b, In b (GameLogic.list_balls touching_world) ->
                           Color.valid (Ball.color b)).
  { intros b [<-|[<-|[]]]; [apply red_is_valid | apply blue_is_valid]. }
  split; [exact Hcol|].
  destruct (update_returns touching_world 1) as [g' E];
    [simpl; lra | simpl; lra | exact Hcol |].
  exists g'. split; [exact E|].
  exact (update_keeps_colors_valid touching_world g' 1 E Hcol).
Defined.

(** ** Colors *)

Lemma min_le_max_component (c : Color.t) : min_component c <= max_component c.
Proof.
  unfold min_component, max_component.
  pose proof (Rmin_l (Rmin (Color.r c) (Color.g c)) (Color.b c)).
  pose proof (Rmin_l (Color.r c) (Color.g c)).
  pose proof (Rmax_l (Rmax (Color.r c) (Color.g c)) (Color.b c)).
  pose proof (Rmax_l (Color.r c) (Color.g c)).
  lra.
Qed.

(** X8: [to_hsv] raises [ZeroDivisionError] exactly on the colors whose
    largest component is zero and whose smallest is negative; on every
    other color, valid or not, it returns a hue in [[0, 1]], the largest
    component as value, and a saturation [s] with
    [s * value = largest - smallest]. *)
Theorem to_hsv_raises_iff (c : Color.t) :
  (Color.to_hsv c = Raise ZeroDivisionError
   <-> max_component c = 0 /\ min_component c < 0)
  /\ (forall h s v,
        Color.to_hsv c = Ok (h, s, v) ->
        0 <= h <= 1 /\ v = max_component c
        /\ s * v = max_component c - min_component c).
Proof.
  pose proof (min_le_max_component c) as Hle.
  unfold Color.to_hsv, rgb_to_hsv.
  fold (max_component c). fold (min_component c).
  destruct (Req_dec (min_component c) (max_component c)) as [Heq|Hne].
  - rewrite (Reqb_true _ _ Heq). split.
    + split; [discriminate | intros [H0 H]; lra].
    + intros h s v E. injection E as <- <- <-. repeat split; lra.
  - rewrite (Reqb_false _ _ Hne). unfold float_div.
    destruct (Req_dec (max_component c) 0) as [H0|H0].
    + rewrite (Reqb_true _ _ H0). cbn [bind]. split.
      * split; [intros _; split; lra | reflexivity].
      * intros h s v E. discriminate.
    + rewrite (Reqb_false _ _ H0). cbn [bind]. split.
      * split; [discriminate | intros [H _]; contradiction].
      * intros h s v E. injection E as <- <- <-.
        match goal with |- context [pymod ?a 1] =>
          pose proof (pymod_bounds a 1 Rlt_0_1) as Hhue end.
        split; [lra|]. split; [reflexivity|].
        field. exact H0.
Qed.

(** X9: [clamp] puts every color in [0, 1], leaves exactly the colors
    that are there already unchanged, and clamping twice is clamping
    once. *)
Theorem clamp_projects (c : Color.t) :
  Color.valid (Color.clamp c)
  /\ Color.clamp (Color.clamp c) = Color.clamp c
  /\ (Color.clamp c = c <-> Color.valid c).
Proof.
  pose proof (clamp_valid c) as Hv. split; [exact Hv|].
  split; [exact (clamp_id _ Hv)|]. split.
  - intros E. rewrite <- E. exact Hv.
  - apply clamp_id.
Qed.

Lemma atan_nonpos (x : R) : x <= 0 -> atan x <= 0.
Proof.
  intros [H | ->]; [|rewrite atan_0; lra].
  pose proof (atan_increasing x 0 H) as Hi. rewrite atan_0 in Hi. lra.
Qed.

(** [math.atan2] has its values in [(-PI, PI]]. *)
Lemma atan2_range (b a : R) : - PI < atan2 b a <= PI.
Proof.
  pose proof PI_RGT_0 as Hpi. unfold atan2.
  destruct (Rlt_dec 0 a) as [Ha|Ha].
  { rewrite (Rltb_true _ _ Ha). pose proof (atan_bound (b / a)). lra. }
  rewrite Rltb_false by lra.
  destruct (Rlt_dec a 0) as [Ha'|Ha'].
  - rewrite (Rltb_true _ _ Ha').
    pose proof (atan_bound (b / a)) as Hb.
    destruct (Rle_dec 0 b) as [Hb0|Hb0].
    + rewrite (Rleb_true _ _ Hb0).
      assert (b / a <= 0).
      { unfold Rdiv. assert (/ a < 0) by now apply Rinv_lt_0_compat. nra. }
      pose proof (atan_nonpos _ H). lra.
    + rewrite Rleb_false by lra.
      assert (0 < b / a).
      { unfold Rdiv. assert (/ a < 0) by now apply Rinv_lt_0_compat. nra. }
      pose proof (atan_increasing _ _ H) as Hi. rewrite atan_0 in Hi. lra.
  - rewrite Rltb_false by lra.
    destruct (Rlt_dec 0 b) as [Hb|Hb]; [rewrite (Rltb_true _ _ Hb); lra|].
    rewrite Rltb_false by lra.
    destruct (Rlt_dec b 0) as [Hb'|Hb']; [rewrite (Rltb_true _ _ Hb'); lra|].
    rewrite Rltb_false by lra. lra.
Qed.

(** The angle brought to [[0, 2 PI)] and divided by the turn. *)
Lemma wrapped_angle_range (angle : R) :
  - PI < angle <= PI ->
  0 <= (if Rltb angle 0 then angle + 2 * PI else angle) / (2 * PI) < 1.
Proof.
  intros Hrange. pose proof PI_RGT_0 as Hpi.
  destruct (Rlt_dec angle 0) as [Hneg|Hpos].
  - rewrite (Rltb_true _ _ Hneg). apply quotient_bounds; lra.
  - rewrite Rltb_false by lra. apply quotient_bounds; lra.
Qed.

(** X10: [_circular_mean_hue] returns a hue in [[0, 1]], whatever the
    hues and the weights, and however many of each there are; it is 0
    when there is no hue; and the mean of one hue in [[0, 1)], of a
    weight that is at least [1e-9], is that hue. *)
Theorem _circular_mean_hue_range (hues weights : list R) :
  0 <= _circular_mean_hue hues weights <= 1
  /\ _circular_mean_hue [] weights = 0
  /\ (forall h w, 0 <= h < 1 -> 1e-9 <= w -> _circular_mean_hue [h] [w] = h).
Proof.
  pose proof PI_RGT_0 as Hpi. split; [|split].
  - unfold _circular_mean_hue. destruct hues as [|h hues]; [lra|].
    match goal with |- context [atan2 ?y ?x] =>
      pose proof (wrapped_angle_range _ (atan2_range y x)) as Hr end.
    lra.
  - reflexivity.
  - intros h w Hh Hw. unfold _circular_mean_hue, sum. simpl.
    rewrite Rmax_right by lra.
    replace ((0 + cos (h * 2 * PI) * w) / (0 + w)) with (cos (h * 2 * PI))
      by (field; lra).
    replace ((0 + sin (h * 2 * PI) * w) / (0 + w)) with (sin (h * 2 * PI))
      by (field; lra).
    rewrite atan2_sin_cos by nra.
    field. lra.
Qed.

Lemma _circular_mean_hue_bounds (hues weights : list R) :
  0 <= _circular_mean_hue hues weights < 1.
Proof.
  unfold _circular_mean_hue. destruct hues as [|h hues]; [lra|].
  apply wrapped_angle_range. apply atan2_range.
Qed.

Lemma mix_saturation_bounds (s1 s2 : R) :
  0 <= s1 <= 1 -> 0 <= s2 <= 1 ->
  s1 <= mix_saturation s1 s2 <= 1 /\ s2 <= mix_saturation s1 s2.
Proof.
  intros H1 H2. unfold mix_saturation.
  assert (0 <= (1 - s1) * s2) by nra.
  assert (0 <= (1 - s2) * s1) by nra.
  assert (0 <= (1 - s1) * (1 - s2) <= 1) by nra.
  rewrite Rmax_right by nra.
  destruct (Rle_dec 1 ((1 - (1 - s1) * (1 - s2)) * 1.05)) as [Hle|Hgt].
  - rewrite Rmin_left by exact Hle. lra.
  - rewrite Rmin_right by lra. nra.
Qed.

Lemma mix_value_bounds (v1 v2 : R) :
  0 <= v1 -> 0 <= v2 ->
  mix_value v1 v2 * mix_value v1 v2 = v1 * v2
  /\ Rmin v1 v2 <= mix_value v1 v2 <= Rmax v1 v2.
Proof.
  intros H1 H2. unfold mix_value. rewrite !Rmax_right by assumption.
  assert (Hsq : sqrt (v1 * v2) * sqrt (v1 * v2) = v1 * v2) by (apply sqrt_sqrt; nra).
  pose proof (sqrt_pos (v1 * v2)) as Hpos.
  split; [exact Hsq|].
  destruct (Rle_dec v1 v2) as [Hle|Hgt].
  - rewrite Rmin_left, Rmax_right by lra. split; nra.
  - rewrite Rmin_right, Rmax_left by lra. split; nra.
Qed.

(** X11: the blend of two colors with components in [0, 1] is the color
    of an HSV triple whose hue is in [[0, 1)], whose saturation is at
    least the saturation of either color (and at most 1), and whose value
    is the geometric mean of the two values, hence between them: the
    final [clamp] changes nothing. *)
Theorem mix_colors_vivid (c1 c2 : Color.t) :
  Color.valid c1 -> Color.valid c2 ->
  exists h1 s1 v1 h2 s2 v2 h s v,
    Color.to_hsv c1 = Ok (h1, s1, v1)
    /\ Color.to_hsv c2 = Ok (h2, s2, v2)
    /\ mix_colors c1 c2 = Ok (Color.from_hsv h s v)
    /\ 0 <= h < 1
    /\ Rmax s1 s2 <= s <= 1
    /\ Rmin v1 v2 <= v <= Rmax v1 v2
    /\ v * v = v1 * v2.
Proof.
  intros Hc1 Hc2.
  destruct (to_hsv_valid c1 Hc1) as (h1 & s1 & v1 & E1 & Hh1 & Hs1 & Hv1).
  destruct (to_hsv_valid c2 Hc2) as (h2 & s2 & v2 & E2 & Hh2 & Hs2 & Hv2).
  exists h1, s1, v1, h2, s2, v2.
  exists (_circular_mean_hue [h1; h2] [s1 * v1 + 1e-6; s2 * v2 + 1e-6]).
  exists (mix_saturation s1 s2), (mix_value v1 v2).
  pose proof (_circular_mean_hue_bounds [h1; h2] [s1 * v1 + 1e-6; s2 * v2 + 1e-6]) as Hh.
  destruct (mix_saturation_bounds s1 s2 Hs1 Hs2) as [Hs Hs'].
  destruct (mix_value_bounds v1 v2 (proj1 Hv1) (proj1 Hv2)) as [Hsq Hv].
  split; [exact E1|]. split; [exact E2|]. split.
  { unfold mix_colors. rewrite E1, E2. cbn [bind]. rewrite clamp_id; [reflexivity|].
    apply from_hsv_valid; [lra | lra |].
    destruct (Rle_dec v1 v2) as [Hle|Hgt].
    - rewrite Rmin_left, Rmax_right in Hv by lra. lra.
    - rewrite Rmin_right, Rmax_left in Hv by lra. lra. }
  split; [exact Hh|]. split; [|split; [exact Hv | exact Hsq]].
  split; [apply Rmax_lub; lra | lra].
Qed.

(** The theorem at red and blue. *)
Lemma mix_colors_vivid_witness :
  Color.valid red /\ Color.valid blue
  /\ exists h1 s1 v1 h2 s2 v2 h s v,
       Color.to_hsv red = Ok (h1, s1, v1)
       /\ Color.to_hsv blue = Ok (h2, s2, v2)
       /\ mix_colors red blue = Ok (Color.from_hsv h s v)
       /\ 0 <= h < 1
       /\ Rmax s1 s2 <= s <= 1
       /\ Rmin v1 v2 <= v <= Rmax v1 v2
       /\ v * v = v1 * v2.
Proof.
  split; [exact red_is_valid|]. split; [exact blue_is_valid|].
  exact (mix_colors_vivid red blue red_is_valid blue_is_valid).
Defined.

Lemma to_hsv_of_max_r (M g b : R) :
  g <= M -> b <= M -> Rmin g b < M -> 0 < M ->
  Color.to_hsv (Color.mk M g b)
  = Ok (pymod (((M - b) / (M - Rmin g b) - (M - g) / (M - Rmin g b)) / 6) 1,
        (M - Rmin g b) / M, M).
Proof.
  intros Hg Hb Hm HM. unfold Color.to_hsv, rgb_to_hsv. cbn [Color.r Color.g Color.b].
  rewrite (Rmax_left M g), (Rmax_left M b) by lra.
  assert (Emin : Rmin (Rmin M g) b = Rmin g b) by (now rewrite (Rmin_right M g)).
  rewrite Emin. rewrite (Reqb_false (Rmin g b) M) by lra.
  unfold float_div. rewrite (Reqb_false M 0) by lra. cbn [bind].
  rewrite (Reqb_true M M) by reflexivity. reflexivity.
Qed.

Lemma to_hsv_of_max_g (r M b : R) :
  r < M -> b <= M -> 0 < M ->
  Color.to_hsv (Color.mk r M b)
  = Ok (pymod ((2 + (M - r) / (M - Rmin r b) - (M - b) / (M - Rmin r b)) / 6) 1,
        (M - Rmin r b) / M, M).
Proof.
  intros Hr Hb HM. unfold Color.to_hsv, rgb_to_hsv. cbn [Color.r Color.g Color.b].
  rewrite (Rmax_right r M), (Rmax_left M b) by lra.
  assert (Emin : Rmin (Rmin r M) b = Rmin r b) by (now rewrite (Rmin_left r M) by lra).
  rewrite Emin.
  assert (Rmin r b < M) by (pose proof (Rmin_l r b); lra).
  rewrite (Reqb_false (Rmin r b) M) by lra.
  unfold float_div. rewrite (Reqb_false M 0) by lra. cbn [bind].
  rewrite (Reqb_false r M) by lra. rewrite (Reqb_true M M) by reflexivity.
  reflexivity.
Qed.

Lemma to_hsv_of_max_b (r g M : R) :
  r < M -> g < M -> 0 < M ->
  Color.to_hsv (Color.mk r g M)
  = Ok (pymod ((4 + (M - g) / (M - Rmin r g) - (M - r) / (M - Rmin r g)) / 6) 1,
        (M - Rmin r g) / M, M).
Proof.
  intros Hr Hg HM. unfold Color.to_hsv, rgb_to_hsv. cbn [Color.r Color.g Color.b].
  assert (Rmax r g < M) by (apply Rmax_lub_lt; lra).
  rewrite (Rmax_right (Rmax r g) M) by lra.
  assert (Rmin r g < M) by (pose proof (Rmin_l r g); lra).
  rewrite (Rmin_left (Rmin r g) M) by lra.
  rewrite (Reqb_false (Rmin r g) M) by lra.
  unfold float_div. rewrite (Reqb_false M 0) by lra. cbn [bind].
  rewrite (Reqb_false r M), (Reqb_false g M) by lra.
  reflexivity.
Qed.

Lemma triple_of_hue (x h s v : R) :
  0 <= h < 1 -> x = h \/ x = h - 1 ->
  @Ok (R * R * R) (pymod x 1, s, v) = Ok (h, s, v).
Proof.
  intros Hh [-> | ->].
  - now rewrite pymod_small.
  - rewrite pymod_unit_neg by lra. do 3 f_equal. lra.
Qed.

(** X12: [to_hsv] undoes [from_hsv] on a hue in [[0, 1)] with a positive
    saturation and a positive value; a triple of saturation 0 or of value
    0 comes back as hue 0, saturation 0 and its value, so its hue is
    lost. *)
Theorem to_hsv_from_hsv (h s v : R) :
  0 <= h < 1 -> 0 <= s -> 0 <= v ->
  (0 < s -> 0 < v -> Color.to_hsv (Color.from_hsv h s v) = Ok (h, s, v))
  /\ (s = 0 \/ v = 0 -> Color.to_hsv (Color.from_hsv h s v) = Ok (0, 0, v)).
Proof.
  intros Hh Hs0 Hv0.
  set (k := floor (h * 6)).
  pose proof (floor_bounds (h * 6)) as Hk. fold k in Hk.
  assert (Hk05 : (0 <= k <= 5)%Z).
  { split.
    - apply Z.lt_succ_r. apply lt_IZR. rewrite succ_IZR. lra.
    - apply Z.lt_succ_r. apply lt_IZR. rewrite succ_IZR.
      replace (IZR 5 + 1) with 6 by lra. lra. }
  assert (Hcases : k = 0%Z \/ k = 1%Z \/ k = 2%Z \/ k = 3%Z \/ k = 4%Z \/ k = 5%Z)
    by lia.
  split.
  - intros Hs Hv. unfold Color.from_hsv.
    rewrite (hsv_to_rgb_sector h s v k) by (first [lra | assumption]).
    cbv zeta.
    assert (Hf : 0 <= h * 6 - IZR k < 1) by lra.
    assert (Hp : v * (1 - s) < v) by nra.
    assert (Hq : v * (1 - s) < v * (1 - s * (h * 6 - IZR k)) <= v) by nra.
    assert (Ht : v * (1 - s) <= v * (1 - s * (1 - (h * 6 - IZR k))) < v) by nra.
    assert (Es : (v - v * (1 - s)) / v = s) by (field; lra).
    destruct Hcases as [E|[E|[E|[E|[E|E]]]]]; rewrite E in *; cbn [Z.eqb Pos.eqb].
    + rewrite to_hsv_of_max_r by (rewrite ?Rmin_right; lra).
      rewrite Rmin_right by lra. rewrite Es.
      apply triple_of_hue; [exact Hh|]. left. field. lra.
    + destruct (Req_dec (v * (1 - s * (h * 6 - 1))) v) as [Eq|Nq].
      * rewrite Eq. rewrite to_hsv_of_max_r by (rewrite ?Rmin_right; lra).
        rewrite Rmin_right by lra. rewrite Es.
        assert (h * 6 - 1 = 0) by nra.
        apply triple_of_hue; [exact Hh|]. left.
        replace h with (1 / 6) by lra. field. lra.
      * rewrite to_hsv_of_max_g by lra.
        rewrite Rmin_right by lra. rewrite Es.
        apply triple_of_hue; [exact Hh|]. left. field. lra.
    + rewrite to_hsv_of_max_g by lra.
      rewrite Rmin_left by lra. rewrite Es.
      apply triple_of_hue; [exact Hh|]. left. field. lra.
    + destruct (Req_dec (v * (1 - s * (h * 6 - 3))) v) as [Eq|Nq].
      * rewrite Eq. rewrite to_hsv_of_max_g by lra.
        rewrite Rmin_left by lra. rewrite Es.
        assert (h * 6 - 3 = 0) by nra.
        apply triple_of_hue; [exact Hh|]. left.
        replace h with (3 / 6) by lra. field. lra.
      * rewrite to_hsv_of_max_b by lra.
        rewrite Rmin_left by lra. rewrite Es.
        apply triple_of_hue; [exact Hh|]. left. field. lra.
    + rewrite to_hsv_of_max_b by lra.
      rewrite Rmin_right by lra. rewrite Es.
      apply triple_of_hue; [exact Hh|]. left. field. lra.
    + rewrite to_hsv_of_max_r by (rewrite ?Rmin_left; lra).
      rewrite Rmin_left by lra. rewrite Es.
      apply triple_of_hue; [exact Hh|]. right. field. lra.
  - intros Hdeg. unfold Color.from_hsv, hsv_to_rgb.
    assert (Hgray : forall x, Color.to_hsv (Color.mk x x x) = Ok (0, 0, x)).
    { intros x. unfold Color.to_hsv, rgb_to_hsv. cbn [Color.r Color.g Color.b].
      rewrite !(Rmax_left x x), !(Rmin_left x x) by lra. now rewrite Reqb_true. }
    destruct (Req_dec s 0) as [Es|Es].
    + rewrite (Reqb_true _ _ Es). apply Hgray.
    + rewrite (Reqb_false _ _ Es). destruct Hdeg as [?|Ev]; [contradiction|].
      subst v. cbv zeta. rewrite !Rmult_0_l.
      repeat destruct (_ =? _)%Z; apply Hgray.
Qed.

(** The theorem at the hue 1/2, the saturation 1/2 and the value 1. *)
Lemma to_hsv_from_hsv_witness :
  0 <= 1 / 2 < 1 /\ 0 <= 1 / 2 /\ 0 <= 1
  /\ (0 < 1 / 2 -> 0 < 1 ->
      Color.to_hsv (Color.from_hsv (1 / 2) (1 / 2) 1) = Ok (1 / 2, 1 / 2, 1))
  /\ (1 / 2 = 0 \/ 1 = 0 ->
      Color.to_hsv (Color.from_hsv (1 / 2) (1 / 2) 1) = Ok (0, 0, 1)).
Proof.
  assert (Hh : 0 <= 1 / 2 < 1) by lra.
  assert (Hs : 0 <= 1 / 2) by lra.
  assert (Hv : 0 <= 1) by lra.
  repeat (split; [assumption|]).
  exact (to_hsv_from_hsv (1 / 2) (1 / 2) 1 Hh Hs Hv).
Defined.

(** ** Vectors *)

(** X13: [normalized] scaled by the length gives the vector back; its
    result has length 1, or 0 for the zero vector, the only vector of
    length 0; normalizing twice is normalizing once. *)
Theorem normalized_unit (d : Vector2.t) :
  Vector2.mul (Vector2.normalized d) (Vector2.length d) = d
  /\ Vector2.length (Vector2.normalized d)
     = (if Reqb (Vector2.length d) 0 then 0 else 1)
  /\ (Vector2.length d = 0 <-> d = Vector2.mk 0 0)
  /\ Vector2.normalized (Vector2.normalized d) = Vector2.normalized d.
Proof.
  destruct d as [x y].
  assert (Hsq : 0 <= x * x + y * y) by nra.
  pose proof (sqrt_sqrt _ Hsq) as HLL. pose proof (sqrt_pos (x * x + y * y)) as HL.
  assert (Hzero : Vector2.length (Vector2.mk x y) = 0 <-> Vector2.mk x y = Vector2.mk 0 0).
  { unfold Vector2.length, hypot. cbn [Vector2.x Vector2.y]. split.
    - intros E. rewrite E in HLL. f_equal; nra.
    - intros E. injection E as -> ->.
      replace (0 * 0 + 0 * 0) with 0 by lra. apply sqrt_0. }
  unfold Vector2.normalized.
  destruct (Req_dec (Vector2.length (Vector2.mk x y)) 0) as [E|NE].
  - rewrite (Reqb_true _ _ E).
    pose proof (proj1 Hzero E) as E0. injection E0 as -> ->.
    split; [|split; [|split]].
    + unfold Vector2.mul. cbn [Vector2.x Vector2.y]. f_equal; lra.
    + apply length_of_zero.
    + exact Hzero.
    + now rewrite length_of_zero, Reqb_true.
  - rewrite (Reqb_false _ _ NE).
    unfold Vector2.length, hypot in *. cbn [Vector2.x Vector2.y] in *.
    set (L := sqrt (x * x + y * y)) in *.
    assert (Hunit : sqrt (x / L * (x / L) + y / L * (y / L)) = 1).
    { apply hypot_eq; [lra|].
      replace (x / L * (x / L) + y / L * (y / L)) with ((x * x + y * y) / (L * L))
        by (field; exact NE).
      rewrite HLL. field. nra. }
    split; [unfold Vector2.mul; cbn [Vector2.x Vector2.y]; f_equal; field; exact NE|].
    split; [exact Hunit|]. split; [exact Hzero|].
    rewrite Hunit. rewrite Reqb_false by lra. f_equal; field; exact NE.
Qed.

(** ** Capture and release *)

Lemma candidates_eq (g : GameLogic.t) (point : Vector2.t) (radius : R) :
  GameLogic.candidates g point radius
  = map (fun b => (distance point b, b))
        (filter (in_reach point radius) (GameLogic.list_balls g)).
Proof.
  unfold GameLogic.candidates, GameLogic.list_balls.
  induction (dict_values (GameLogic._balls g)) as [|b l IH]; [reflexivity|].
  cbn [flat_map filter]. rewrite IH. unfold in_reach at 2.
  destruct (Rleb _ _); reflexivity.
Qed.

Lemma insert_by_key_sorted {A : Type} (t : R * A) (l : list (R * A)) :
  StronglySorted (fun u w => fst u <= fst w) l ->
  StronglySorted (fun u w => fst u <= fst w) (insert_by_key t l).
Proof.
  induction 1 as [|u l Hs IH Hall]; simpl.
  - constructor; constructor.
  - destruct (Rlt_dec (fst t) (fst u)) as [Hlt|Hge].
    + rewrite (Rltb_true _ _ Hlt). constructor.
      * now constructor.
      * constructor; [lra|]. eapply Forall_impl; [|exact Hall].
        intros w Hw. simpl in Hw. lra.
    + rewrite Rltb_false by lra. constructor; [exact IH|].
      apply Forall_forall. intros w Hw.
      apply (Permutation_in _ (insert_by_key_perm t l)) in Hw.
      destruct Hw as [<-|Hw]; [lra|].
      rewrite Forall_forall in Hall. now apply Hall.
Qed.

Lemma sort_by_key_sorted {A : Type} (l : list (R * A)) :
  StronglySorted (fun u w => fst u <= fst w) (sort_by_key l).
Proof.
  unfold sort_by_key.
  assert (H : forall acc : list (R * A),
            StronglySorted (fun u w => fst u <= fst w) acc ->
            StronglySorted (fun u w => fst u <= fst w)
              (fold_left (fun acc t => insert_by_key t acc) l acc)).
  { induction l as [|t l IH]; intros acc Hacc; simpl; [exact Hacc|].
    apply IH. now apply insert_by_key_sorted. }
  apply H. constructor.
Qed.

Lemma sorted_by_distance (point : Vector2.t) (l : list (R * Ball.t)) :
  Forall (fun t => fst t = distance point (snd t)) l ->
  StronglySorted (fun u w => fst u <= fst w) l ->
  StronglySorted (fun a b => distance point a <= distance point b) (map snd l).
Proof.
  intros Hd Hs. induction Hs as [|u l Hs IH Hall]; simpl; constructor.
  - apply IH. now inversion Hd.
  - inversion Hd as [|? ? Eu Hd']; subst.
    apply Forall_map. rewrite Forall_forall in *. intros w Hw.
    rewrite <- Eu, <- (Hd' w Hw). now apply Hall.
Qed.

Lemma quota_step (limit : option Z) (used n : nat) :
  match limit with
  | Some m => (m <=? Z.of_nat used)%Z
  | None => false
  end = false ->
  quota limit used (S n) = S (quota limit (S used) n).
Proof.
  unfold quota. destruct limit as [m|]; [|reflexivity].
  intros H. apply Z.leb_gt in H.
  replace (Z.to_nat (m - Z.of_nat used)) with (S (Z.to_nat (m - Z.of_nat (S used))))
    by lia.
  reflexivity.
Qed.

Lemma quota_full (limit : option Z) (used n : nat) :
  match limit with
  | Some m => (m <=? Z.of_nat used)%Z
  | None => false
  end = true ->
  quota limit used n = 0%nat.
Proof.
  unfold quota. destruct limit as [m|]; [|discriminate].
  intros H. apply Z.leb_le in H.
  replace (Z.to_nat (m - Z.of_nat used)) with 0%nat by lia.
  apply Nat.min_0_r.
Qed.

Lemma quota_0 (limit : option Z) (used : nat) : quota limit used 0 = 0%nat.
Proof. unfold quota. now destruct limit. Qed.

Lemma suck_loop_count (max_count : option Z) (cands : list (R * Ball.t)) :
  forall (g : GameLogic.t) (sucked : list Ball.t),
    length (fst (GameLogic.suck_loop max_count cands g sucked))
    = (length sucked
       + quota max_count (length sucked)
           (quota (GameLogic.inventory_capacity g)
                  (length (GameLogic.inventory g)) (length cands)))%nat.
Proof.
  induction cands as [|[d b] cands IH]; intros g sucked; simpl.
  - rewrite !quota_0. lia.
  - destruct (match max_count with
              | Some m => (m <=? Z.of_nat (length sucked))%Z
              | None => false
              end) eqn:Em.
    + simpl. rewrite (quota_full max_count) by exact Em. lia.
    + destruct (match GameLogic.inventory_capacity g with
                | Some c => (c <=? Z.of_nat (length (GameLogic.inventory g)))%Z
                | None => false
                end) eqn:Ec.
      * simpl. rewrite (quota_full (GameLogic.inventory_capacity g)) by exact Ec.
        rewrite quota_0. lia.
      * rewrite IH. cbn [GameLogic.inventory_capacity GameLogic.inventory].
        rewrite !length_app. cbn [length].
        rewrite (quota_step (GameLogic.inventory_capacity g)) by exact Ec.
        rewrite (quota_step max_count) by exact Em.
        rewrite !Nat.add_1_r. lia.
Qed.

(** X14: [suck_into_inventory] captures the nearest balls: the balls
    captured, followed by the candidates left behind, are the live balls
    within [radius] of [point] in ascending order of their distance to
    it; the number captured is what [max_count] and the room left in the
    inventory allow, out of the candidates. *)
Theorem suck_takes_nearest (g : GameLogic.t) (point : Vector2.t) (radius : R)
    (max_count : option Z) :
  let out := GameLogic.suck_into_inventory g point radius max_count in
  exists rest,
    Permutation (fst out ++ rest)
                (filter (in_reach point radius) (GameLogic.list_balls g))
    /\ StronglySorted (fun a b => distance point a <= distance point b)
                      (fst out ++ rest)
    /\ length (fst out)
       = quota max_count 0
           (quota (GameLogic.inventory_capacity g)
                  (length (GameLogic.inventory g))
                  (length (fst out ++ rest))).
Proof.
  cbv zeta.
  destruct (suck_into_inventory_spec g point radius max_count) as (rest & _ & Hsplit & _).
  exists rest. rewrite <- Hsplit.
  pose proof (sort_by_key_perm (GameLogic.candidates g point radius)) as Hperm.
  split; [|split].
  - rewrite (Permutation_map snd Hperm), candidates_eq, map_map. simpl.
    now rewrite map_id.
  - apply sorted_by_distance; [|apply sort_by_key_sorted].
    apply Forall_forall. intros t Ht.
    apply (Permutation_in _ Hperm) in Ht. rewrite candidates_eq in Ht.
    apply in_map_iff in Ht as (b & <- & _). reflexivity.
  - unfold GameLogic.suck_into_inventory. rewrite suck_loop_count.
    now rewrite length_map.
Qed.

(** X15: [suck_into_inventory] captures nothing and changes nothing when
    [max_count] is zero or negative, when the inventory is at its
    capacity or beyond, or when no live ball is within [radius] of
    [point]. *)
Theorem suck_nothing (g : GameLogic.t) (point : Vector2.t) (radius : R)
    (max_count : option Z) :
  (exists m, max_count = Some m /\ (m <= 0)%Z)
  \/ (exists c, GameLogic.inventory_capacity g = Some c
                /\ (c <= Z.of_nat (length (GameLogic.inventory g)))%Z)
  \/ (forall b, In b (GameLogic.list_balls g) -> in_reach point radius b = false) ->
  GameLogic.suck_into_inventory g point radius max_count = ([], g).
Proof.
  intros Hcase. unfold GameLogic.suck_into_inventory.
  destruct (sort_by_key (GameLogic.candidates g point radius)) as [|[d b] rest] eqn:Es;
    [reflexivity|].
  destruct Hcase as [(m & -> & Hm)|[(c & Ec & Hc)|Hnone]]; simpl.
  - apply Z.leb_le in Hm. now rewrite Hm.
  - rewrite Ec. apply Z.leb_le in Hc. rewrite Hc.
    now destruct (match max_count with Some m => _ | None => _ end).
  - exfalso.
    assert (Hin : In (d, b) (GameLogic.candidates g point radius)).
    { apply (Permutation_in _ (sort_by_key_perm _)). rewrite Es. now left. }
    rewrite candidates_eq in Hin. apply in_map_iff in Hin as (b' & _ & Hb').
    apply filter_In in Hb' as [Hb' Hr]. rewrite (Hnone b' Hb') in Hr. discriminate.
Qed.

(** The theorem at a world of three balls, for [max_count = 0]. *)
Lemma suck_nothing_witness :
  ((exists m, Some 0%Z = Some m /\ (m <= 0)%Z)
   \/ (exists c, GameLogic.inventory_capacity started_world = Some c
                 /\ (c <= Z.of_nat (length (GameLogic.inventory started_world)))%Z)
   \/ (forall b, In b (GameLogic.list_balls started_world) ->
                 in_reach (Vector2.mk 10 10) 100 b = false))
  /\ GameLogic.suck_into_inventory started_world (Vector2.mk 10 10) 100 (Some 0%Z)
     = ([], started_world).
Proof.
  assert (H : (exists m, Some 0%Z = Some m /\ (m <= 0)%Z)
              \/ (exists c, GameLogic.inventory_capacity started_world = Some c
                  /\ (c <= Z.of_nat (length (GameLogic.inventory started_world)))%Z)
              \/ (forall b, In b (GameLogic.list_balls started_world) ->
                            in_reach (Vector2.mk 10 10) 100 b = false)).
  { left. exists 0%Z. split; [reflexivity | lia]. }
  split; [exact H|].
  exact (suck_nothing started_world (Vector2.mk 10 10) 100 (Some 0%Z) H).
Defined.

Lemma fold_pop_ids (new : list Ball.t) :
  forall d : dict Z Ball.t,
    fold_left (fun d b => dict_pop Z.eqb d (Ball.ball_id b)) new d
    = fold_left (dict_pop Z.eqb) (map Ball.ball_id new) d.
Proof.
  induction new as [|b new IH]; intros d; simpl; [reflexivity | apply IH].
Qed.

(** X16: in a world the operations produce, [suck_into_inventory] takes
    out of the live balls exactly the balls it returns and keeps the
    others in their order; the generator, the dimensions, the next id,
    the capacity and the deletion zone are unchanged. *)
Theorem suck_leaves_the_rest (g : GameLogic.t) (point : Vector2.t) (radius : R)
    (max_count : option Z) :
  reachable g ->
  let out := GameLogic.suck_into_inventory g point radius max_count in
  GameLogic._balls (snd out)
  = filter (fun kb => negb (existsb (Z.eqb (fst kb)) (map Ball.ball_id (fst out))))
           (GameLogic._balls g)
  /\ GameLogic._rng (snd out) = GameLogic._rng g
  /\ same_settings g (snd out).
Proof.
  intros Hr. cbv zeta.
  destruct (reachable_ids_unique g Hr) as [[Hnd _] _].
  apply NoDup_app_remove_r in Hnd.
  destruct (suck_into_inventory_spec g point radius max_count) as (rest & -> & _ & _).
  unfold captured. cbn [GameLogic._balls GameLogic._rng].
  split; [|split; [reflexivity | now repeat split]].
  rewrite fold_pop_ids. now apply fold_pop_filter.
Qed.

(** The theorem at a world of three balls, for a suck of at most two
    balls around (10, 10). *)
Lemma suck_leaves_the_rest_witness :
  reachable started_world
  /\ GameLogic._balls
       (snd (GameLogic.suck_into_inventory started_world (Vector2.mk 10 10) 15
               (Some 2%Z)))
     = filter
         (fun kb =>
            negb (existsb (Z.eqb (fst kb))
                    (map Ball.ball_id
                       (fst (GameLogic.suck_into_inventory started_world
                               (Vector2.mk 10 10) 15 (Some 2%Z))))))
         (GameLogic._balls started_world).
Proof.
  split; [exact started_world_reachable|].
  exact (proj1 (suck_leaves_the_rest started_world (Vector2.mk 10 10) 15 (Some 2%Z)
                  started_world_reachable)).
Defined.

Lemma list_pop_None {A : Type} (l : list A) : list_pop l = None -> l = [].
Proof.
  unfold list_pop. destruct (rev l) as [|a r] eqn:E; [|discriminate].
  intros _. rewrite <- (rev_involutive l), E. reflexivity.
Qed.

Lemma spit_loop_appends (point : Vector2.t) (dn : option Vector2.t) (bs sd : R)
    (n : nat) :
  forall (g : GameLogic.t) (emitted : list Ball.t),
    ids_unique g -> (n <= length (GameLogic.inventory g))%nat ->
    exists new,
      fst (GameLogic.spit_loop n point dn bs sd g emitted) = emitted ++ new
      /\ length new = n
      /\ GameLogic._balls (snd (GameLogic.spit_loop n point dn bs sd g emitted))
         = GameLogic._balls g ++ map (fun e => (Ball.ball_id e, e)) new
      /\ GameLogic._rng (snd (GameLogic.spit_loop n point dn bs sd g emitted))
         = rng_skip (2 * n) (GameLogic._rng g).
Proof.
  induction n as [|n IH]; intros g emitted Hu Hn; simpl.
  { exists []. rewrite !app_nil_r. change (rng_skip 0 ?r) with (rng_skip 0 r).
    now rewrite rng_skip_0. }
  destruct (list_pop (GameLogic.inventory g)) as [[b inv']|] eqn:Ep.
  2:{ apply list_pop_None in Ep. rewrite Ep in Hn. simpl in Hn. lia. }
  apply list_pop_spec in Ep.
  pose proof (spit_angle_cursor dn sd (GameLogic._rng g)) as Hcur.
  destruct (GameLogic.spit_angle dn sd (GameLogic._rng g)) as [angle rng1].
  simpl in Hcur. subst rng1. simpl.
  assert (Hn' : (n <= length inv')%nat).
  { rewrite Ep, length_app in Hn. simpl in Hn. lia. }
  match goal with
  | |- context [GameLogic.spit_loop n point dn bs sd
                  (GameLogic.mk ?w ?h (dict_set ?eq ?d ?k ?b1) ?nx ?cap ?iv ?z ?r1) ?em] =>
    destruct (spit_step_conserves g b b1 inv' r1 Hu Ep eq_refl)
      as (_ & Hballs & _ & Hu1);
      set (g1 := GameLogic.mk w h (dict_set eq d k b1) nx cap iv z r1);
      destruct (IH g1 em Hu1 Hn') as (new & Hfst & Hlen & Hb & Hrng);
      exists (b1 :: new)
  end.
  rewrite Hfst, Hb, Hrng. subst g1. simpl in Hballs |- *.
  rewrite Hballs, <- !app_assoc.
  repeat split; [now rewrite Hlen|]. unfold rng_skip. simpl. f_equal. lia.
Qed.

(** X17: in a world the operations produce, [spit_from_inventory] emits
    [min(count, len(inventory))] balls (none for a negative count),
    appends them to the live balls in the order of emission, each under
    its id, and takes two draws from the generator for each of them; the
    dimensions, the next id, the capacity and the deletion zone are
    unchanged. *)
Theorem spit_appends (g : GameLogic.t) (point : Vector2.t)
    (direction : option Vector2.t) (count : Z) (base_speed spread_degrees : R) :
  reachable g ->
  let out :=
    GameLogic.spit_from_inventory g point direction count base_speed spread_degrees in
  length (fst out) = spit_turns g count
  /\ GameLogic._balls (snd out)
     = GameLogic._balls g ++ map (fun e => (Ball.ball_id e, e)) (fst out)
  /\ GameLogic._rng (snd out) = rng_skip (2 * spit_turns g count) (GameLogic._rng g)
  /\ same_settings g (snd out).
Proof.
  intros Hr. cbv zeta. destruct (reachable_ids_unique g Hr) as [Hu _].
  unfold GameLogic.spit_from_inventory. fold (direction_norm direction).
  fold (spit_turns g count).
  assert (Hn : (spit_turns g count <= length (GameLogic.inventory g))%nat)
    by (unfold spit_turns; lia).
  destruct (spit_loop_appends point (direction_norm direction) base_speed
              spread_degrees (spit_turns g count) g [] Hu Hn)
    as (new & Hfst & Hlen & Hb & Hrng).
  simpl in Hfst.
  destruct (spit_loop_spec point (direction_norm direction) base_speed
              spread_degrees (spit_turns g count) g [] Hn)
    as (new' & g' & E & _ & _ & Hsame).
  rewrite Hfst, Hb, Hrng. rewrite E. simpl.
  repeat split; try exact Hlen; apply Hsame.
Qed.

(** The theorem at a world with two balls in the inventory, for a count
    of 5. *)
Lemma spit_appends_witness :
  reachable (run_call started_world (Suck (Vector2.mk 10 10) 15 (Some 2%Z)))
  /\ length
       (fst (GameLogic.spit_from_inventory
               (run_call started_world (Suck (Vector2.mk 10 10) 15 (Some 2%Z)))
               (Vector2.mk 50 50) None 5 200 20))
     = spit_turns (run_call started_world (Suck (Vector2.mk 10 10) 15 (Some 2%Z))) 5.
Proof.
  assert (Hr : reachable
                 (run_call started_world (Suck (Vector2.mk 10 10) 15 (Some 2%Z))))
    by (apply reach_call; exact started_world_reachable).
  split; [exact Hr|].
  exact (proj1 (spit_appends _ (Vector2.mk 50 50) None 5 200 20 Hr)).
Defined.

(** X18: the speed of an emitted ball is [|base_speed| * (0.85 + 0.30 * u)]
    for the second draw [u] of its turn, so it lies within 15 percent of
    [|base_speed|], whatever the direction and the spread. *)
Theorem spit_speed_range (g : GameLogic.t) (point : Vector2.t)
    (direction : option Vector2.t) (count : Z) (base_speed spread_degrees : R)
    (i : nat) (e : Ball.t) :
  nth_error
    (fst (GameLogic.spit_from_inventory g point direction count base_speed
            spread_degrees)) i = Some e ->
  Rng.well_formed (GameLogic._rng g) ->
  let u := Rng.draws (GameLogic._rng g) (S (2 * i + Rng.cursor (GameLogic._rng g))) in
  Vector2.length (Ball.velocity e) = Rabs base_speed * (0.85 + 0.30 * u)
  /\ 0.85 * Rabs base_speed <= Vector2.length (Ball.velocity e)
     <= 1.15 * Rabs base_speed.
Proof.
  intros He Hwf u.
  pose proof (spit_loop_velocity point (direction_norm direction) base_speed
                spread_degrees _ g [] i e He) as Hv.
  unfold emission in Hv.
  pose proof (spit_angle_cursor (direction_norm direction) spread_degrees
                (rng_skip (2 * i) (GameLogic._rng g))) as Hcur.
  destruct (GameLogic.spit_angle (direction_norm direction) spread_degrees
              (rng_skip (2 * i) (GameLogic._rng g))) as [angle rng1].
  cbn [snd] in Hcur. subst rng1.
  cbn [Rng.random Rng.draws Rng.cursor rng_skip] in Hv. fold u in Hv.
  pose proof (Hwf (S (2 * i + Rng.cursor (GameLogic._rng g)))) as Hu. fold u in Hu.
  pose proof (Rabs_pos base_speed) as Habs.
  assert (Hlen : Vector2.length (Ball.velocity e) = Rabs base_speed * (0.85 + 0.30 * u)).
  { rewrite Hv. unfold Vector2.length. cbn [Vector2.x Vector2.y].
    apply hypot_eq; [nra|].
    generalize (0.85 + 0.30 * u). intros w.
    pose proof (sin2_cos2 angle) as Hsc. unfold Rsqr in Hsc.
    replace (cos angle * (base_speed * w) * (cos angle * (base_speed * w))
             + sin angle * (base_speed * w) * (sin angle * (base_speed * w)))
      with ((sin angle * sin angle + cos angle * cos angle)
            * (base_speed * base_speed) * (w * w)) by ring.
    rewrite Hsc.
    replace (Rabs base_speed * w * (Rabs base_speed * w))
      with (Rabs base_speed * Rabs base_speed * (w * w)) by ring.
    assert (Rabs base_speed * Rabs base_speed = base_speed * base_speed).
    { unfold Rabs. destruct (Rcase_abs base_speed); ring. }
    rewrite H. ring. }
  split; [exact Hlen|]. rewrite Hlen. nra.
Qed.

(** The theorem at the first ball a world releases with no direction. *)
Lemma spit_speed_range_witness :
  nth_error
    (fst (GameLogic.spit_from_inventory loaded_world (Vector2.mk 5 5) None 1 200 20))
    0 = Some spat_ball
  /\ Rng.well_formed (GameLogic._rng loaded_world)
  /\ Vector2.length (Ball.velocity spat_ball) = Rabs 200 * (0.85 + 0.30 * (1 / 2)).
Proof.
  assert (He : nth_error
                 (fst (GameLogic.spit_from_inventory loaded_world (Vector2.mk 5 5)
                         None 1 200 20)) 0 = Some spat_ball) by reflexivity.
  split; [exact He|]. split; [exact rng_half_well_formed|].
  exact (proj1 (spit_speed_range loaded_world (Vector2.mk 5 5) None 1 200 20 0
                  spat_ball He rng_half_well_formed)).
Defined.

(** ** The mixing pass *)

Lemma Rleb_le (a b : R) : Rleb a b = true -> a <= b.
Proof. unfold Rleb. destruct (Rle_dec a b); [tauto | discriminate]. Qed.

Lemma same_but_colors_get (balls0 balls : dict Z Ball.t) (k : Z) (b : Ball.t) :
  same_but_colors balls0 balls -> dict_get Z.eqb balls k = Some b ->
  exists b0, dict_get Z.eqb balls0 k = Some b0 /\ recolored b0 b.
Proof.
  unfold same_but_colors.
  induction 1 as [|[k0 b0] [k1 b1] l l' [Hk Hb] H IH]; simpl; [discriminate|].
  simpl in Hk, Hb. subst k1.
  destruct (Z.eqb k k0); [|exact IH].
  intros E. injection E as <-. now exists b0.
Qed.

Lemma overlap_recolored (a a' b b' : Ball.t) :
  recolored a a' -> recolored b b' -> overlap a' b' -> overlap a b.
Proof.
  unfold recolored, overlap. intros <- <-. simpl. tauto.
Qed.

Lemma overlap_sym (a b : Ball.t) : overlap a b -> overlap b a.
Proof. unfold overlap. cbv zeta. intros H. nra. Qed.

Section Isolated.

Variable balls0 : dict Z Ball.t.
Variable k0 : Z.
Variable b0 : Ball.t.
Hypothesis isolated :
  forall k b, k <> k0 -> dict_get Z.eqb balls0 k = Some b -> ~ overlap b0 b.

Lemma mix_pair_spares (ka kb : Z) (acc : result (dict Z Ball.t)) :
  holds (spared balls0 k0 b0) True acc ->
  holds (spared balls0 k0 b0) True (GameLogic.mix_pair ka acc kb).
Proof.
  destruct acc as [balls|e]; simpl; [|trivial]. intros [Hs Hk].
  destruct (dict_get Z.eqb balls ka) as [a|] eqn:Ea; [|now split].
  destruct (dict_get Z.eqb balls kb) as [b|] eqn:Eb; [|now split].
  destruct (Ball.ball_id b <=? Ball.ball_id a)%Z eqn:Eid; [now split|].
  unfold GameLogic._maybe_mix. rewrite Ea, Eb.
  destruct (Rleb _ _) eqn:Eov; [|now split]. apply Rleb_le in Eov.
  assert (Hov : overlap a b) by exact Eov.
  destruct (same_but_colors_get _ _ _ _ Hs Ea) as (a' & Ea' & Hra).
  destruct (same_but_colors_get _ _ _ _ Hs Eb) as (b' & Eb' & Hrb).
  assert (Hrefl : recolored b0 b0) by (unfold recolored; now destruct b0).
  assert (Hab : kb <> ka).
  { intros ->. assert (b = a) by congruence. subst b. apply Z.leb_gt in Eid. lia. }
  assert (Hka : ka <> k0).
  { intros ->. assert (a = b0) by congruence. subst a.
    apply (isolated kb b' Hab Eb').
    exact (overlap_recolored _ _ _ _ Hrefl Hrb Hov). }
  assert (Hkb : kb <> k0).
  { intros ->. assert (b = b0) by congruence. subst b.
    apply (isolated ka a'); [congruence | exact Ea' |].
    apply (overlap_recolored _ _ _ _ Hrefl Hra). now apply overlap_sym. }
  destruct (mix_colors (Ball.color a) (Ball.color b)) as [m|e]; simpl; [|trivial].
  split.
  - apply same_but_colors_set; [now apply same_but_colors_set|].
    rewrite dict_get_set. destruct (Z.eqb_spec kb ka); [contradiction | exact Eb].
  - rewrite !dict_get_set.
    destruct (Z.eqb_spec k0 kb); [congruence|].
    destruct (Z.eqb_spec k0 ka); [congruence | exact Hk].
Qed.

Lemma mix_row_spares (ka : Z) (nbrs : list Z) :
  forall acc : result (dict Z Ball.t),
    holds (spared balls0 k0 b0) True acc ->
    holds (spared balls0 k0 b0) True (fold_left (GameLogic.mix_pair ka) nbrs acc).
Proof.
  induction nbrs as [|kb nbrs IH]; intros acc H; simpl; [exact H|].
  apply IH. now apply mix_pair_spares.
Qed.

Lemma mix_bucket_spares (nbrs bucket : list Z) :
  forall acc : result (dict Z Ball.t),
    holds (spared balls0 k0 b0) True acc ->
    holds (spared balls0 k0 b0) True
      (fold_left (fun acc ka => fold_left (GameLogic.mix_pair ka) nbrs acc)
                 bucket acc).
Proof.
  induction bucket as [|ka bucket IH]; intros acc H; simpl; [exact H|].
  apply IH. now apply mix_row_spares.
Qed.

Lemma mix_cells_spare (grid cells : dict (Z * Z) (list Z)) :
  forall acc : result (dict Z Ball.t),
    holds (spared balls0 k0 b0) True acc ->
    holds (spared balls0 k0 b0) True (fold_left (GameLogic.mix_cell grid) cells acc).
Proof.
  induction cells as [|[c bucket] cells IH]; intros acc H; simpl; [exact H|].
  apply IH. unfold GameLogic.mix_cell. now apply mix_bucket_spares.
Qed.

End Isolated.

(** X19: the mixing pass leaves alone every ball that overlaps no other
    live ball: it is stored under its key afterwards as it was before,
    color included. *)
Theorem mixing_spares_isolated (g g' : GameLogic.t) (k : Z) (b : Ball.t) :
  GameLogic._apply_color_mixing g = Ok g' ->
  dict_get Z.eqb (GameLogic._balls g) k = Some b ->
  (forall k' b', k' <> k -> dict_get Z.eqb (GameLogic._balls g) k' = Some b' ->
                 ~ overlap b b') ->
  dict_get Z.eqb (GameLogic._balls g') k = Some b.
Proof.
  intros E Hb Hiso. unfold GameLogic._apply_color_mixing in E.
  pose proof (mix_cells_spare (GameLogic._balls g) k b Hiso
                (GameLogic.build_grid (GameLogic.cell_size g) (GameLogic._balls g))
                (GameLogic.build_grid (GameLogic.cell_size g) (GameLogic._balls g))
                (Ok (GameLogic._balls g))
                (conj (same_but_colors_refl _) Hb)) as H.
  destruct (fold_left _ _ _) as [balls'|e]; [|discriminate].
  cbn [bind] in E. injection E as <-. apply H.
Qed.

Lemma zone_world_mixes :
  exists g', GameLogic._apply_color_mixing zone_world = Ok g'.
Proof.
  destruct (_apply_color_mixing_valid zone_world) as (g' & E & _).
  - intros b [<-|[<-|[]]]; apply red_is_valid.
  - now exists g'.
Qed.

(** The theorem at two balls of radius 10 whose centers are 15 apart in
    both directions. *)
Lemma mixing_spares_isolated_witness :
  exists g',
    GameLogic._apply_color_mixing zone_world = Ok g'
    /\ dict_get Z.eqb (GameLogic._balls zone_world) 1%Z = Some (ball_at 1 55 55 0 0)
    /\ (forall k' b', k' <> 1%Z ->
          dict_get Z.eqb (GameLogic._balls zone_world) k' = Some b' ->
          ~ overlap (ball_at 1 55 55 0 0) b')
    /\ dict_get Z.eqb (GameLogic._balls g') 1%Z = Some (ball_at 1 55 55 0 0).
Proof.
  destruct zone_world_mixes as [g' E].
  assert (Hb : dict_get Z.eqb (GameLogic._balls zone_world) 1%Z
               = Some (ball_at 1 55 55 0 0)) by reflexivity.
  assert (Hiso : forall k' b', k' <> 1%Z ->
            dict_get Z.eqb (GameLogic._balls zone_world) k' = Some b' ->
            ~ overlap (ball_at 1 55 55 0 0) b').
  { intros k' b' Hk. cbn [zone_world GameLogic._balls dict_get].
    destruct (Z.eqb_spec k' 1); [contradiction|].
    destruct (k' =? 2)%Z; [|discriminate].
    intros H. injection H as <-. unfold overlap, ball_at.
    cbn [Ball.position Ball.radius Vector2.x Vector2.y]. lra. }
  exists g'. split; [exact E|]. split; [exact Hb|]. split; [exact Hiso|].
  exact (mixing_spares_isolated zone_world g' 1%Z (ball_at 1 55 55 0 0) E Hb Hiso).
Defined.

(** *** The grid *)

Lemma cell_eqb_spec (c1 c2 : Z * Z) : reflect (c1 = c2) (cell_eqb c1 c2).
Proof.
  destruct c1 as [x1 y1], c2 as [x2 y2]. unfold cell_eqb. simpl.
  destruct (Z.eqb_spec x1 x2), (Z.eqb_spec y1 y2); constructor; congruence.
Qed.

Lemma grid_get_set (grid : dict (Z * Z) (list Z)) (c c' : Z * Z) (v : list Z) :
  dict_get cell_eqb (dict_set cell_eqb grid c v) c'
  = if cell_eqb c' c then Some v else dict_get cell_eqb grid c'.
Proof.
  induction grid as [|[c0 v0] grid IH]; simpl; [reflexivity|].
  destruct (cell_eqb_spec c c0) as [->|Hc]; simpl.
  - destruct (cell_eqb c' c0); reflexivity.
  - destruct (cell_eqb_spec c' c0) as [->|Hc'].
    + destruct (cell_eqb_spec c0 c); [congruence | reflexivity].
    + exact IH.
Qed.

Lemma grid_set_keys_in (grid : dict (Z * Z) (list Z)) (c x : Z * Z) (v : list Z) :
  In x (dict_keys (dict_set cell_eqb grid c v)) -> x = c \/ In x (dict_keys grid).
Proof.
  induction grid as [|[c0 v0] grid IH]; simpl.
  - intros [<-|[]]. now left.
  - destruct (cell_eqb_spec c c0) as [->|Hc]; simpl; [tauto|].
    intros [<-|H]; [tauto|]. destruct (IH H); tauto.
Qed.

Lemma grid_set_NoDup (grid : dict (Z * Z) (list Z)) (c : Z * Z) (v : list Z) :
  NoDup (dict_keys grid) -> NoDup (dict_keys (dict_set cell_eqb grid c v)).
Proof.
  induction grid as [|[c0 v0] grid IH]; simpl; intros Hnd.
  - constructor; [tauto | constructor].
  - inversion Hnd as [|? ? Hnotin Hnd']; subst.
    destruct (cell_eqb_spec c c0) as [->|Hc]; simpl; constructor; auto.
    intros Hin. apply grid_set_keys_in in Hin as [->|Hin]; [congruence | contradiction].
Qed.

Lemma grid_add_NoDup (grid : dict (Z * Z) (list Z)) (c : Z * Z) (k : Z) :
  NoDup (dict_keys grid) -> NoDup (dict_keys (GameLogic.grid_add grid c k)).
Proof.
  intros Hnd. unfold GameLogic.grid_add.
  destruct (dict_get cell_eqb grid c); now apply grid_set_NoDup.
Qed.

Lemma grid_add_concat (grid : dict (Z * Z) (list Z)) (c : Z * Z) (k : Z) :
  Permutation (concat (dict_values (GameLogic.grid_add grid c k)))
              (k :: concat (dict_values grid)).
Proof.
  unfold GameLogic.grid_add.
  induction grid as [|[c0 b0] grid IH]; simpl; [reflexivity|].
  destruct (cell_eqb c c0); simpl.
  - rewrite <- app_assoc. simpl. symmetry. apply Permutation_middle.
  - destruct (dict_get cell_eqb grid c); simpl in *;
      (etransitivity; [apply Permutation_app_head; exact IH|]);
      symmetry; apply Permutation_middle.
Qed.

Lemma grid_add_get (grid : dict (Z * Z) (list Z)) (c : Z * Z) (k : Z) :
  (exists bucket,
     dict_get cell_eqb (GameLogic.grid_add grid c k) c = Some bucket /\ In k bucket)
  /\ (forall c' b,
        dict_get cell_eqb grid c' = Some b ->
        exists b',
          dict_get cell_eqb (GameLogic.grid_add grid c k) c' = Some b' /\ incl b b').
Proof.
  unfold GameLogic.grid_add. split.
  - destruct (dict_get cell_eqb grid c) as [bucket|]; rewrite grid_get_set;
      destruct (cell_eqb_spec c c); try congruence; eexists; split; try reflexivity.
    + apply in_app_iff. right. now left.
    + now left.
  - intros c' b Hb.
    destruct (dict_get cell_eqb grid c) as [bucket|] eqn:Ec; rewrite grid_get_set;
      destruct (cell_eqb_spec c' c) as [->|Hc].
    + assert (bucket = b) by congruence. subst bucket.
      eexists. split; [reflexivity|]. now apply incl_appl, incl_refl.
    + exists b. split; [exact Hb | apply incl_refl].
    + congruence.
    + exists b. split; [exact Hb | apply incl_refl].
Qed.

Lemma build_grid_fold (cs : R) (balls : dict Z Ball.t) :
  forall grid : dict (Z * Z) (list Z),
    NoDup (dict_keys grid) ->
    let grid' :=
      fold_left (fun grid '(k, ball) => GameLogic.grid_add grid (GameLogic.cell_of cs ball) k)
                balls grid in
    Permutation (concat (dict_values grid'))
                (concat (dict_values grid) ++ dict_keys balls)
    /\ NoDup (dict_keys grid')
    /\ (forall c b,
          dict_get cell_eqb grid c = Some b ->
          exists b', dict_get cell_eqb grid' c = Some b' /\ incl b b')
    /\ (forall k ball,
          In (k, ball) balls ->
          exists bucket,
            dict_get cell_eqb grid' (GameLogic.cell_of cs ball) = Some bucket
            /\ In k bucket).
Proof.
  induction balls as [|[k ball] balls IH]; intros grid Hnd; simpl.
  - rewrite app_nil_r. repeat split; auto.
    + intros c b Hb. exists b. split; [exact Hb | apply incl_refl].
    + intros k ball [].
  - destruct (IH _ (grid_add_NoDup grid (GameLogic.cell_of cs ball) k Hnd))
      as (Hperm & Hnd' & Hmono & Hin).
    destruct (grid_add_get grid (GameLogic.cell_of cs ball) k) as [Hk Hkeep].
    split; [|split; [exact Hnd'|split]].
    + rewrite Hperm, grid_add_concat. simpl. apply Permutation_middle.
    + intros c b Hb. destruct (Hkeep c b Hb) as (b1 & Hb1 & Hi1).
      destruct (Hmono c b1 Hb1) as (b2 & Hb2 & Hi2).
      exists b2. split; [exact Hb2|]. eapply incl_tran; eauto.
    + intros k' ball' [E|Hin'].
      * injection E as <- <-. destruct Hk as (b1 & Hb1 & Hk1).
        destruct (Hmono _ b1 Hb1) as (b2 & Hb2 & Hi2).
        exists b2. split; [exact Hb2 | now apply Hi2].
      * now apply Hin.
Qed.

(** X20: the grid of the mixing pass partitions the live balls: its
    buckets, put end to end, hold every key of the store once for each
    time the store holds it; no cell has two buckets; and every ball is
    in the bucket of its own cell. *)
Theorem build_grid_partitions (cs : R) (balls : dict Z Ball.t) :
  Permutation (concat (dict_values (GameLogic.build_grid cs balls))) (dict_keys balls)
  /\ NoDup (dict_keys (GameLogic.build_grid cs balls))
  /\ (forall k ball,
        In (k, ball) balls ->
        exists bucket,
          dict_get cell_eqb (GameLogic.build_grid cs balls) (GameLogic.cell_of cs ball)
          = Some bucket
          /\ In k bucket).
Proof.
  destruct (build_grid_fold cs balls [] (NoDup_nil _)) as (Hperm & Hnd & _ & Hin).
  unfold GameLogic.build_grid. repeat split; assumption.
Qed.

(** ** Construction *)

Lemma find_app {A : Type} (f : A -> bool) (l1 l2 : list A) :
  find f (l1 ++ l2) = match find f l1 with Some x => Some x | None => find f l2 end.
Proof.
  induction l1 as [|a l1 IH]; simpl; [reflexivity|]. now destruct (f a).
Qed.

Lemma init_fold (l : list Ball.t) :
  forall (d : dict Z Ball.t) (n : Z),
    let out :=
      fold_left
        (fun '(d, n) b =>
           (dict_set Z.eqb d (Ball.ball_id b) b, Z.max n (Ball.ball_id b + 1)%Z))
        l (d, n) in
    (forall k,
       dict_get Z.eqb (fst out) k
       = match find (fun b => (Ball.ball_id b =? k)%Z) (rev l) with
         | Some b => Some b
         | None => dict_get Z.eqb d k
         end)
    /\ (n <= snd out)%Z
    /\ (forall b, In b l -> (Ball.ball_id b < snd out)%Z)
    /\ (snd out = n \/ exists b, In b l /\ snd out = (Ball.ball_id b + 1)%Z).
Proof.
  induction l as [|b l IH]; intros d n; simpl.
  - repeat split; [lia | tauto | now left].
  - destruct (IH (dict_set Z.eqb d (Ball.ball_id b) b) (Z.max n (Ball.ball_id b + 1)))
      as (Hget & Hle & Hlt & Hnext).
    split; [|split; [lia|split]].
    + intros k. rewrite Hget, find_app. simpl.
      destruct (find _ (rev l)); [reflexivity|].
      rewrite dict_get_set, Z.eqb_sym. now destruct (Ball.ball_id b =? k)%Z.
    + intros b' [<-|Hb']; [lia | now apply Hlt].
    + destruct Hnext as [E|(b' & Hb' & E)].
      * rewrite E. destruct (Z.max_spec n (Ball.ball_id b + 1)) as [[_ ->]|[_ ->]].
        -- right. exists b. split; [now left | reflexivity].
        -- now left.
      * right. exists b'. split; [now right | exact E].
Qed.

(** X21: [GameLogic(...)] stores each initial ball under its id, the
    last one given when several have the same id; [_next_id] is 1 or the
    successor of the id of an initial ball, and above every id given; the
    inventory is empty, there is no deletion zone, and the capacity is
    the one given. *)
Theorem init_store (width height : R) (initial_balls : option (list Ball.t))
    (capacity : option Z) (rng : Rng.t) :
  exists g,
    GameLogic.__init__ width height initial_balls capacity rng = Ok g
    /\ (forall k,
          dict_get Z.eqb (GameLogic._balls g) k
          = find (fun b => (Ball.ball_id b =? k)%Z)
                 (rev (match initial_balls with Some l => l | None => [] end)))
    /\ (forall b,
          In b (match initial_balls with Some l => l | None => [] end) ->
          (Ball.ball_id b < GameLogic._next_id g)%Z)
    /\ (1 <= GameLogic._next_id g)%Z
    /\ (GameLogic._next_id g = 1%Z
        \/ exists b,
             In b (match initial_balls with Some l => l | None => [] end)
             /\ GameLogic._next_id g = (Ball.ball_id b + 1)%Z)
    /\ GameLogic.inventory g = []
    /\ GameLogic.deletion_zone g = None
    /\ GameLogic.inventory_capacity g = capacity
    /\ GameLogic._rng g = rng.
Proof.
  unfold GameLogic.__init__.
  pose proof (init_fold (match initial_balls with Some l => l | None => [] end) [] 1)
    as H. cbv zeta in H.
  destruct (fold_left _ _ _) as [balls next_id]. simpl in H.
  destruct H as (Hget & Hle & Hlt & Hnext).
  eexists. split; [reflexivity|]. simpl.
  split; [|repeat split; assumption].
  intros k. rewrite Hget. now destruct (find _ _).
Qed.

(** ** The application *)

Lemma polar_length (a sp : R) :
  Vector2.length (Vector2.mk (cos a * sp) (sin a * sp)) = Rabs sp.
Proof.
  unfold Vector2.length. cbn [Vector2.x Vector2.y].
  apply hypot_eq; [apply Rabs_pos|].
  pose proof (sin2_cos2 a) as Hsc. unfold Rsqr in Hsc.
  replace (cos a * sp * (cos a * sp) + sin a * sp * (sin a * sp))
    with ((sin a * sin a + cos a * cos a) * (sp * sp)) by ring.
  rewrite Hsc. unfold Rabs. destruct (Rcase_abs sp); ring.
Qed.

Lemma rng_skip_well_formed (n : nat) (rng : Rng.t) :
  Rng.well_formed rng -> Rng.well_formed (rng_skip n rng).
Proof. intros H k. apply H. Qed.

Lemma spawn_ball_spec (rng : Rng.t) (logic : GameLogic.t) :
  Rng.well_formed rng ->
  exists position velocity radius color ball logic',
    Gui.spawn_ball rng logic = Ok (rng_skip 8 rng, logic')
    /\ GameLogic.create_ball logic position velocity radius color = Ok (ball, logic')
    /\ spawned ball.
Proof.
  intros Hwf. destruct rng as [draws cursor].
  pose proof (Hwf cursor) as H0.
  pose proof (Hwf (S cursor)) as H1.
  pose proof (Hwf (S (S cursor))) as H2.
  pose proof (Hwf (S (S (S (S cursor))))) as H4.
  pose proof (Hwf (S (S (S (S (S cursor)))))) as H5.
  pose proof (Hwf (S (S (S (S (S (S cursor))))))) as H6.
  pose proof (Hwf (S (S (S (S (S (S (S cursor)))))))) as H7.
  cbn [Rng.draws] in H0, H1, H2, H4, H5, H6, H7.
  cbv beta iota zeta delta
    [Gui.spawn_ball Rng.uniform Rng.random Rng.draws Rng.cursor
     GameLogic.create_ball bind rng_skip Init.Nat.add].
  do 6 eexists. split; [reflexivity|]. split; [reflexivity|].
  unfold spawned, Gui.WINDOW_WIDTH, Gui.WINDOW_HEIGHT.
  cbn [Ball.position Ball.velocity Ball.radius Ball.color Vector2.x Vector2.y].
  rewrite polar_length.
  split; [nra|]. split; [nra|]. split; [rewrite Rabs_pos_eq; nra|]. split; [nra|].
  apply from_hsv_valid; nra.
Qed.

Lemma create_ball_appends (g g' : GameLogic.t) (position velocity : Vector2.t)
    (radius : R) (color : Color.t) (ball : Ball.t) :
  reachable g ->
  GameLogic.create_ball g position velocity radius color = Ok (ball, g') ->
  reachable g'
  /\ GameLogic._balls g' = GameLogic._balls g ++ [(Ball.ball_id ball, ball)]
  /\ Ball.ball_id ball = GameLogic._next_id g
  /\ GameLogic._next_id g' = (GameLogic._next_id g + 1)%Z
  /\ GameLogic.inventory g' = GameLogic.inventory g
  /\ same_settings_but_next g g'.
Proof.
  intros Hr E. split; [exact (reach_create_ball _ _ _ _ _ _ _ Hr E)|].
  destruct (reachable_ids_unique g Hr) as [_ Hlt].
  assert (Hout : ~ In (GameLogic._next_id g) (dict_keys (GameLogic._balls g))).
  { intros Hin. assert (Hin' : In (GameLogic._next_id g) (all_ids g))
      by (unfold all_ids; apply in_or_app; now left).
    specialize (Hlt _ Hin'). lia. }
  unfold GameLogic.create_ball in E. injection E as <- <-.
  cbn [Ball.ball_id GameLogic._balls GameLogic._next_id GameLogic.inventory].
  split; [now apply dict_set_fresh|]. now repeat split.
Qed.

Lemma spawn_loop_spec (n : nat) :
  forall (rng : Rng.t) (logic : GameLogic.t),
    Rng.well_formed rng -> reachable logic ->
    exists logic' new,
      Gui.spawn_loop n rng logic = Ok (rng_skip (8 * n) rng, logic')
      /\ reachable logic'
      /\ GameLogic._balls logic'
         = GameLogic._balls logic ++ map (fun b => (Ball.ball_id b, b)) new
      /\ map Ball.ball_id new
         = map (fun i => (GameLogic._next_id logic + Z.of_nat i)%Z) (seq 0 n)
      /\ Forall spawned new
      /\ GameLogic._next_id logic' = (GameLogic._next_id logic + Z.of_nat n)%Z
      /\ GameLogic.inventory logic' = GameLogic.inventory logic
      /\ same_settings_but_next logic logic'.
Proof.
  induction n as [|n IH]; intros rng logic Hwf Hr.
  - exists logic, []. simpl. rewrite rng_skip_0, app_nil_r.
    repeat split; auto. lia.
  - destruct (spawn_ball_spec rng logic Hwf)
      as (p & v & r & c & ball & logic1 & E1 & Ec & Hsp).
    destruct (create_ball_appends _ _ _ _ _ _ _ Hr Ec)
      as (Hr1 & Hb1 & Hid & Hnext & Hinv & Hw & Hh & Hc & Hz & Hrng).
    destruct (IH (rng_skip 8 rng) logic1 (rng_skip_well_formed 8 rng Hwf) Hr1)
      as (logic' & new & E & Hr' & Hb & Hids & Hall & Hnext' & Hinv'
          & Hw' & Hh' & Hc' & Hz' & Hrng').
    exists logic', (ball :: new).
    split; [|split; [exact Hr'|split; [|split; [|split; [|split; [lia|split]]]]]].
    + cbn [Gui.spawn_loop]. rewrite E1. cbn [bind]. rewrite E. do 2 f_equal.
      unfold rng_skip. cbn [Rng.draws Rng.cursor]. f_equal. lia.
    + rewrite Hb, Hb1, <- app_assoc. reflexivity.
    + cbn [map seq]. rewrite Hids, Hid, <- seq_shift, map_map. f_equal.
      * now rewrite Z.add_0_r.
      * apply map_ext. intros i. rewrite Hnext. lia.
    + now constructor.
    + congruence.
    + unfold same_settings_but_next. repeat split; congruence.
Qed.

(** X22: [_spawn_initial_balls(count)], on a generator whose draws are in
    [[0, 1)] and in a world the operations produce, returns; it appends
    [count] balls to the live balls (none for a negative count), with the
    next ids in order, each at least 30 inside the window, of speed in
    [[30, 120)], of radius in [[7, 14)] and of a color with components in
    [0, 1]; the inventory and the settings of the world are unchanged. *)
Theorem spawn_initial_balls_spec (logic : GameLogic.t) (count : Z) (rng : Rng.t) :
  reachable logic -> Rng.well_formed rng ->
  exists logic' new,
    Gui._spawn_initial_balls logic count rng = Ok logic'
    /\ reachable logic'
    /\ length new = Z.to_nat count
    /\ GameLogic.list_balls logic' = GameLogic.list_balls logic ++ new
    /\ map Ball.ball_id new
       = map (fun i => (GameLogic._next_id logic + Z.of_nat i)%Z)
             (seq 0 (Z.to_nat count))
    /\ Forall spawned new
    /\ GameLogic._next_id logic' = (GameLogic._next_id logic + Z.max 0 count)%Z
    /\ GameLogic.inventory logic' = GameLogic.inventory logic
    /\ same_settings_but_next logic logic'.
Proof.
  intros Hr Hwf.
  destruct (spawn_loop_spec (Z.to_nat count) rng logic Hwf Hr)
    as (logic' & new & E & Hr' & Hb & Hids & Hall & Hnext & Hinv & Hsame).
  exists logic', new. unfold Gui._spawn_initial_balls. rewrite E. cbn [bind].
  assert (Hlen : length new = Z.to_nat count).
  { rewrite <- (length_map Ball.ball_id), Hids, length_map. apply length_seq. }
  split; [reflexivity|]. split; [exact Hr'|]. split; [exact Hlen|].
  split.
  { unfold GameLogic.list_balls, dict_values. rewrite Hb, map_app, map_map. simpl.
    now rewrite map_id. }
  split; [exact Hids|]. split; [exact Hall|]. split; [lia | now split].
Qed.

(** The theorem at a world of three balls, for two more. *)
Lemma spawn_initial_balls_spec_witness :
  reachable started_world /\ Rng.well_formed rng_half
  /\ exists logic' new,
       Gui._spawn_initial_balls started_world 2 rng_half = Ok logic'
       /\ reachable logic'
       /\ length new = Z.to_nat 2
       /\ GameLogic.list_balls logic' = GameLogic.list_balls started_world ++ new.
Proof.
  split; [exact started_world_reachable|]. split; [exact rng_half_well_formed|].
  destruct (spawn_initial_balls_spec started_world 2 rng_half started_world_reachable
              rng_half_well_formed) as (logic' & new & E & Hr & Hlen & Hb & _).
  exists logic', new. repeat split; assumption.
Defined.

Lemma Forall2_In_l {A B : Type} (R : A -> B -> Prop) (l : list A) (l' : list B)
    (x : A) :
  Forall2 R l l' -> In x l -> exists y, In y l' /\ R x y.
Proof.
  induction 1 as [|x0 y0 l l' HR _ IH]; simpl; [tauto|].
  intros [<-|Hx].
  - exists y0. auto.
  - destruct (IH Hx) as (y & Hy & Hxy). exists y. auto.
Qed.

Lemma fold_pop_values (new : list Ball.t) :
  forall (d : dict Z Ball.t) (b : Ball.t),
    In b (dict_values (fold_left (fun d b => dict_pop Z.eqb d (Ball.ball_id b)) new d)) ->
    In b (dict_values d).
Proof.
  induction new as [|a new IH]; intros d b; simpl; [tauto|].
  intros H. apply IH in H. eapply dict_pop_values. exact H.
Qed.

Lemma dict_pop_length (d : dict Z Ball.t) (k : Z) :
  (length (dict_pop Z.eqb d k) <= length d)%nat.
Proof.
  induction d as [|[k0 v0] d IH]; simpl; [lia|].
  destruct (Z.eqb k k0); simpl; lia.
Qed.

Lemma cull_length (g : GameLogic.t) :
  (length (GameLogic._balls (GameLogic.cull g)) <= length (GameLogic._balls g))%nat.
Proof.
  unfold GameLogic.cull. destruct (GameLogic.deletion_zone g) as [zone|]; [|lia].
  rewrite fold_remove_ball_balls.
  generalize (map Ball.ball_id
    (filter (fun ball => Rect.contains zone (Ball.position ball))
       (dict_values (GameLogic._balls g)))).
  intros ids. generalize (GameLogic._balls g).
  induction ids as [|k ids IH]; intros d; simpl; [lia|].
  etransitivity; [apply IH | apply dict_pop_length].
Qed.

Lemma app_world_count (g g' : GameLogic.t) :
  Permutation (all_ids g) (all_ids g') ->
  (live_count g' + inventory_count g' = live_count g + inventory_count g)%nat.
Proof.
  intros H. rewrite <- !all_ids_length. symmetry. now apply Permutation_length.
Qed.

Lemma suck_app_world (g : GameLogic.t) (point : Vector2.t) (radius : R)
    (max_count : option Z) :
  app_world g ->
  app_world (snd (GameLogic.suck_into_inventory g point radius max_count)).
Proof.
  intros (Hr & Hw & Hh & Hz & Hc & Hballs & Hcount).
  pose proof (reach_call g (Suck point radius max_count) Hr) as Hr'.
  destruct (run_call_conserves g (Suck point radius max_count)
              (proj1 (reachable_ids_unique g Hr))) as [Hperm _].
  pose proof (app_world_count _ _ Hperm) as Hn.
  cbn [run_call] in Hr', Hn.
  destruct (suck_into_inventory_spec g point radius max_count) as (rest & E & Hsplit & _).
  split; [exact Hr'|]. rewrite E in Hn |- *. unfold captured at 1 2 3 4 5 6.
  cbn [GameLogic.width GameLogic.height GameLogic.deletion_zone
       GameLogic.inventory_capacity GameLogic.inventory GameLogic.list_balls
       GameLogic._balls].
  repeat (split; [assumption|]). split; [|lia].
  assert (Hnew : forall b,
            In b (fst (GameLogic.suck_into_inventory g point radius max_count)) ->
            In b (GameLogic.list_balls g)).
  { intros b Hb.
    assert (Hin : In b (map snd (sort_by_key (GameLogic.candidates g point radius)))).
    { rewrite Hsplit. apply in_or_app. now left. }
    apply in_map_iff in Hin as (t & <- & Ht).
    apply (Permutation_in _ (sort_by_key_perm _)) in Ht.
    rewrite candidates_eq in Ht. apply in_map_iff in Ht as (b' & <- & Hb').
    apply filter_In in Hb'. apply Hb'. }
  intros b [Hb|Hb]; apply Hballs.
  - left. eapply fold_pop_values. exact Hb.
  - apply in_app_iff in Hb as [Hb|Hb]; [now right | left; now apply Hnew].
Qed.

Lemma spit_app_world (g : GameLogic.t) (point : Vector2.t)
    (direction : option Vector2.t) (count : Z) (bs sd : R) :
  app_world g ->
  app_world (snd (GameLogic.spit_from_inventory g point direction count bs sd)).
Proof.
  intros (Hr & Hw & Hh & Hz & Hc & Hballs & Hcount).
  pose proof (reach_call g (Spit point direction count bs sd) Hr) as Hr'.
  pose proof (reachable_ids_unique g Hr) as [Hu _].
  destruct (run_call_conserves g (Spit point direction count bs sd) Hu) as [Hperm _].
  pose proof (app_world_count _ _ Hperm) as Hn.
  cbn [run_call] in Hr', Hn.
  split; [exact Hr'|].
  revert Hn. unfold GameLogic.spit_from_inventory. fold (direction_norm direction).
  fold (spit_turns g count). intros Hn.
  assert (Hle : (spit_turns g count <= length (GameLogic.inventory g))%nat)
    by (unfold spit_turns; lia).
  destruct (spit_loop_appends point (direction_norm direction) bs sd
              (spit_turns g count) g [] Hu Hle) as (new & Hfst & _ & Hb & _).
  destruct (spit_loop_spec point (direction_norm direction) bs sd
              (spit_turns g count) g [] Hle)
    as (new' & g' & E & Hrel & Hinv & Hw' & Hh' & _ & Hc' & Hz').
  rewrite E in Hfst, Hb, Hn |- *. cbn [fst snd app] in *. subst new'.
  split; [congruence|]. split; [congruence|]. split; [congruence|].
  split; [congruence|]. split; [|lia].
  intros b [Hin|Hin].
  - unfold GameLogic.list_balls, dict_values in Hin.
    rewrite Hb, map_app, map_map in Hin. apply in_app_iff in Hin as [Hin|Hin].
    + apply Hballs. now left.
    + simpl in Hin. rewrite map_id in Hin.
      destruct (Forall2_In_l _ _ _ _ Hrel Hin) as (b0 & Hb0 & _ & Hrad & Hcol & _).
      assert (Hq : app_ball b0).
      { apply Hballs. right. apply in_rev.
        rewrite <- (firstn_skipn (spit_turns g count) (rev (GameLogic.inventory g))).
        apply in_or_app. now left. }
      unfold app_ball in *. now rewrite Hrad, Hcol.
  - apply Hballs. right. apply in_rev.
    rewrite <- (firstn_skipn (spit_turns g count) (rev (GameLogic.inventory g))).
    apply in_or_app. right. rewrite <- Hinv. now apply in_rev in Hin.
Qed.

Lemma update_app_world (g : GameLogic.t) (dt : R) :
  app_world g -> 0 < dt ->
  exists g',
    GameLogic.update g dt = Ok g'
    /\ app_world g'
    /\ GameLogic.inventory g' = GameLogic.inventory g
    /\ (forall b, In b (GameLogic.list_balls g') ->
          wrapped g' b /\ in_zone g' (Ball.position b) = false).
Proof.
  intros (Hr & Hw & Hh & Hz & Hc & Hballs & Hcount) Hdt.
  assert (Hw0 : GameLogic.width g <> 0) by (rewrite Hw; unfold Gui.WINDOW_WIDTH; lra).
  assert (Hh0 : GameLogic.height g <> 0) by (rewrite Hh; unfold Gui.WINDOW_HEIGHT; lra).
  pose proof (reachable_ids_unique g Hr) as Hu.
  assert (Hvalid : forall b, In b (GameLogic.list_balls (integrated g dt)) ->
                             Color.valid (Ball.color b)).
  { intros b1 Hb1. destruct (integrated_values g dt b1 Hb1) as (b & Hb & ->).
    apply (Hballs b). now left. }
  destruct (_apply_color_mixing_valid (integrated g dt) Hvalid) as (g' & Emix & Hcol).
  assert (E : GameLogic.update g dt = Ok g').
  { unfold GameLogic.update. rewrite Rleb_false by lra.
    rewrite integrate_all_ok by assumption. exact Emix. }
  exists g'. split; [exact E|].
  destruct (update_Ok_frame g g' dt Hdt E) as (balls' & Eg' & Hsame).
  destruct (cull_same
              (GameLogic.set_balls g
                 (map (fun kb => (fst kb, moved g dt (snd kb))) (GameLogic._balls g))))
    as (Hi1 & _ & Hw1 & Hh1 & _ & Hc1 & Hz1).
  fold (integrated g dt) in Hi1, Hw1, Hh1, Hc1, Hz1. simpl in Hi1, Hw1, Hh1, Hc1, Hz1.
  assert (Hlive : forall b', In b' (GameLogic.list_balls g') ->
            exists b, In b (GameLogic.list_balls g)
                      /\ Ball.radius b' = Ball.radius b
                      /\ Ball.position b' = Ball.position (moved g dt b)
                      /\ in_zone g (Ball.position b') = false).
  { intros b' Hb'. rewrite Eg' in Hb'. unfold GameLogic.list_balls in Hb'. simpl in Hb'.
    destruct (same_but_colors_In _ _ _ Hsame Hb') as (b1 & Hb1 & Hrec).
    assert (Hz1' : in_zone g (Ball.position b1) = false).
    { rewrite (integrated_balls g dt Hu) in Hb1.
      apply in_map_iff in Hb1 as (kb & <- & Hkb). apply filter_In in Hkb as [_ Hf].
      now destruct (in_zone g (Ball.position (snd kb))). }
    destruct (integrated_values g dt b1 Hb1) as (b & Hb & Eb1).
    exists b. unfold recolored in Hrec. rewrite <- Hrec. subst b1.
    repeat split; [exact Hb | exact Hz1']. }
  assert (Hzone' : forall p, in_zone g' p = in_zone g p).
  { intros p. unfold in_zone. rewrite Eg'. simpl. now rewrite Hz1. }
  assert (Hdims : GameLogic.width g' = GameLogic.width g
                  /\ GameLogic.height g' = GameLogic.height g).
  { rewrite Eg'. simpl. now split. }
  destruct Hdims as [Hw' Hh'].
  split; [|split].
  - split; [exact (reach_update g dt g' Hr E)|].
    split; [congruence|]. split; [congruence|].
    split; [rewrite Eg'; simpl; congruence|].
    split; [rewrite Eg'; simpl; congruence|]. split.
    + intros b' [Hb'|Hb'].
      * destruct (Hlive b' Hb') as (b & Hb & Hrad & _).
        split; [rewrite Hrad; apply (Hballs b); now left | now apply Hcol].
      * apply Hballs. right. rewrite Eg' in Hb'. simpl in Hb'. now rewrite Hi1 in Hb'.
    + assert (Hlen : (live_count g' <= live_count g)%nat).
      { unfold live_count. rewrite Eg'. simpl.
        rewrite <- (Forall2_length Hsame). unfold integrated.
        etransitivity; [apply cull_length|]. simpl. now rewrite length_map. }
      assert (Hinv : inventory_count g' = inventory_count g).
      { unfold inventory_count. rewrite Eg'. simpl. now rewrite Hi1. }
      lia.
  - rewrite Eg'. simpl. exact Hi1.
  - intros b' Hb'. destruct (Hlive b' Hb') as (b & Hb & _ & Hpos & Hzf).
    split; [|now rewrite Hzone'].
    unfold wrapped. rewrite Hpos, Hw', Hh'. unfold moved.
    cbn [Ball.position Ball.set_position Vector2.x Vector2.y].
    assert (Hwpos : 0 < GameLogic.width g) by (rewrite Hw; unfold Gui.WINDOW_WIDTH; lra).
    assert (Hhpos : 0 < GameLogic.height g)
      by (rewrite Hh; unfold Gui.WINDOW_HEIGHT; lra).
    pose proof (pymod_bounds
                  (Vector2.x (Ball.position b) + Vector2.x (Ball.velocity b) * dt)
                  (GameLogic.width g) Hwpos).
    pose proof (pymod_bounds
                  (Vector2.y (Ball.position b) + Vector2.y (Ball.velocity b) * dt)
                  (GameLogic.height g) Hhpos).
    lra.
Qed.

Lemma tick_suck_spec (self : Gui.t) :
  app_world (Gui.logic self) ->
  app_world (Gui.tick_suck self)
  /\ exists sucked,
       GameLogic.inventory (Gui.tick_suck self)
       = GameLogic.inventory (Gui.logic self) ++ sucked
       /\ (length sucked <= 4)%nat
       /\ (Gui.is_sucking self = false \/ Gui.mouse_pos self = None -> sucked = []).
Proof.
  intros Hw. unfold Gui.tick_suck.
  destruct (Gui.is_sucking self) eqn:Es.
  2:{ split; [exact Hw|]. exists []. rewrite app_nil_r. repeat split; auto. }
  destruct (Gui.mouse_pos self) as [[mx my]|] eqn:Em.
  2:{ split; [exact Hw|]. exists []. rewrite app_nil_r. repeat split; auto. }
  split; [now apply suck_app_world|].
  exists (fst (GameLogic.suck_into_inventory (Gui.logic self) (Vector2.mk mx my) 60
                 (Some 4%Z))).
  destruct (suck_into_inventory_spec (Gui.logic self) (Vector2.mk mx my) 60 (Some 4%Z))
    as (rest & E & _ & _).
  split; [now rewrite E|]. split.
  - unfold GameLogic.suck_into_inventory. rewrite suck_loop_count.
    unfold quota at 1. simpl. lia.
  - intros [H|H]; discriminate.
Qed.

(** X23: a [_tick] of the application that returns, from a state its
    events lead to, leaves the mouse state alone, captures at most 4
    balls, and none unless the left button is held over a known position;
    after it every live ball has [0 <= x <= 900] and [0 <= y <= 600] and
    is outside the deletion zone, and the state is again one the events
    lead to. *)
Theorem tick_spec (self self' : Gui.t) :
  app_world (Gui.logic self) ->
  Gui._tick self = Ok self' ->
  app_world (Gui.logic self')
  /\ Gui.mouse_pos self' = Gui.mouse_pos self
  /\ Gui.is_sucking self' = Gui.is_sucking self
  /\ (forall b, In b (GameLogic.list_balls (Gui.logic self')) ->
        wrapped (Gui.logic self') b
        /\ in_zone (Gui.logic self') (Ball.position b) = false)
  /\ exists sucked,
       GameLogic.inventory (Gui.logic self')
       = GameLogic.inventory (Gui.logic self) ++ sucked
       /\ (length sucked <= 4)%nat
       /\ (Gui.is_sucking self = false \/ Gui.mouse_pos self = None -> sucked = []).
Proof.
  intros Hw Etick.
  destruct (tick_suck_spec self Hw) as (Hw1 & sucked & Hinv & Hlen & Hnone).
  assert (Hdt : 0 < 1 / Gui.TARGET_FPS) by (unfold Gui.TARGET_FPS; lra).
  destruct (update_app_world (Gui.tick_suck self) _ Hw1 Hdt)
    as (g' & E & Hw' & Hinv' & Hlive).
  unfold Gui._tick in Etick. rewrite E in Etick. cbn [bind] in Etick.
  injection Etick as <-. cbn [Gui.logic Gui.mouse_pos Gui.is_sucking].
  split; [exact Hw'|]. split; [reflexivity|]. split; [reflexivity|].
  split; [exact Hlive|].
  exists sucked. rewrite Hinv'. auto.
Qed.

Lemma init_world_reachable (rng : Rng.t) :
  reachable
    (GameLogic.set_deletion_zone
       (GameLogic.mk Gui.WINDOW_WIDTH Gui.WINDOW_HEIGHT [] 1 None [] None rng)
       (Some Gui.DELETION_ZONE)).
Proof.
  apply reach_set_deletion_zone.
  now apply (reach_init Gui.WINDOW_WIDTH Gui.WINDOW_HEIGHT None None rng).
Qed.

Lemma spawned_app_world (rng42 rng7 : Rng.t) :
  Rng.well_formed rng7 ->
  exists logic,
    Gui._spawn_initial_balls
      (GameLogic.set_deletion_zone
         (GameLogic.mk Gui.WINDOW_WIDTH Gui.WINDOW_HEIGHT [] 1 None [] None rng42)
         (Some Gui.DELETION_ZONE))
      Gui.INITIAL_BALLS rng7 = Ok logic
    /\ app_world logic.
Proof.
  intros Hwf.
  destruct (spawn_loop_spec (Z.to_nat Gui.INITIAL_BALLS) rng7 _ Hwf
              (init_world_reachable rng42))
    as (logic & new & E & Hr & Hb & Hids & Hall & _ & Hinv & Hw & Hh & Hc & Hz & _).
  exists logic. unfold Gui._spawn_initial_balls. rewrite E. cbn [bind].
  split; [reflexivity|]. simpl in Hb, Hinv, Hw, Hh, Hc, Hz.
  assert (Hlen : length new = Z.to_nat Gui.INITIAL_BALLS).
  { rewrite <- (length_map Ball.ball_id), Hids, length_map. apply length_seq. }
  repeat (split; [assumption|]). split.
  - intros b [Hin|Hin]; [|now rewrite Hinv in Hin].
    unfold GameLogic.list_balls, dict_values in Hin.
    rewrite Hb, map_map in Hin. simpl in Hin. rewrite map_id in Hin.
    rewrite Forall_forall in Hall. destruct (Hall b Hin) as (_ & _ & _ & Hrad & Hcol).
    now split.
  - unfold live_count, inventory_count. rewrite Hb, Hinv, length_map, Hlen. simpl. lia.
Qed.

Lemma handle_app_world (self : Gui.t) (e : Gui.event) :
  app_world (Gui.logic self) ->
  exists self', Gui.handle self e = Ok self' /\ app_world (Gui.logic self').
Proof.
  intros Hw. destruct e as [x y|x y| |x y|]; cbn [Gui.handle].
  - eexists. split; [reflexivity | exact Hw].
  - eexists. split; [reflexivity | exact Hw].
  - eexists. split; [reflexivity | exact Hw].
  - eexists. split; [reflexivity|]. cbn [Gui._on_mouse_down_right Gui.logic].
    now apply spit_app_world.
  - destruct (tick_suck_spec self Hw) as [Hw1 _].
    assert (Hdt : 0 < 1 / Gui.TARGET_FPS) by (unfold Gui.TARGET_FPS; lra).
    destruct (update_app_world (Gui.tick_suck self) _ Hw1 Hdt) as (g' & E & Hw' & _).
    eexists. unfold Gui._tick. rewrite E. cbn [bind]. split; [reflexivity | exact Hw'].
Qed.

(** X24: the application never raises: with a generator of seed 7 whose
    draws are in [[0, 1)], [BallGameApp(root)] returns, and so does every
    sequence of mouse events and ticks after it; throughout, the world
    is 900 by 600 with its deletion zone and no capacity, every ball,
    live or in the inventory, has a radius in [[7, 14)] and a color with
    components in [0, 1], ids are unique, and there are at most 50
    balls. *)
Theorem app_runs (rng42 rng7 : Rng.t) (events : list Gui.event) :
  Rng.well_formed rng7 ->
  exists self0 self,
    Gui.__init__ rng42 rng7 = Ok self0
    /\ Gui.run self0 events = Ok self
    /\ app_world (Gui.logic self0)
    /\ app_world (Gui.logic self)
    /\ NoDup (all_ids (Gui.logic self)).
Proof.
  intros Hwf.
  destruct (spawned_app_world rng42 rng7 Hwf) as (logic & Espawn & Hw).
  destruct (handle_app_world (Gui.mk logic None false) Gui.Timer Hw)
    as (self0 & E0 & Hw0).
  exists self0.
  assert (Hinit : Gui.__init__ rng42 rng7 = Ok self0).
  { unfold Gui.__init__, GameLogic.__init__. cbn [fold_left bind].
    rewrite Espawn. cbn [bind]. exact E0. }
  assert (Hrun : forall self, app_world (Gui.logic self) ->
            exists self', Gui.run self events = Ok self' /\ app_world (Gui.logic self')).
  { induction events as [|e events IH]; intros self Hs; cbn [Gui.run].
    - exists self. split; [reflexivity | exact Hs].
    - destruct (handle_app_world self e Hs) as (self1 & E1 & Hs1).
      rewrite E1. cbn [bind]. now apply IH. }
  destruct (Hrun self0 Hw0) as (self & Erun & Hs).
  exists self. repeat (split; [assumption|]).
  destruct Hs as (Hr & _). apply (reachable_ids_unique _ Hr).
Qed.

(** The theorem for a press of the left button, a tick, and a press of
    the right button. *)
Lemma app_runs_witness :
  Rng.well_formed rng_half
  /\ exists self0 self,
       Gui.__init__ rng_half rng_half = Ok self0
       /\ Gui.run self0 [Gui.ButtonPress1 100 100; Gui.Timer; Gui.ButtonPress3 120 100]
          = Ok self
       /\ app_world (Gui.logic self).
Proof.
  split; [exact rng_half_well_formed|].
  destruct (app_runs rng_half rng_half
              [Gui.ButtonPress1 100 100; Gui.Timer; Gui.ButtonPress3 120 100]
              rng_half_well_formed) as (self0 & self & E0 & E & _ & Hw & _).
  exists self0, self. split; [exact E0 | split; [exact E | exact Hw]].
Defined.

Lemma app_sample_ok : app_world app_sample.
Proof.
  split.
  { apply (reach_set_deletion_zone
             (GameLogic.mk Gui.WINDOW_WIDTH Gui.WINDOW_HEIGHT
                [(1%Z, ball_at 1 100 100 60 0); (2%Z, ball_at 2 719 50 120 0);
                 (3%Z, ball_at 3 899 300 120 0)]
                4 None [] None rng_half)
             (Some Gui.DELETION_ZONE)).
    apply (reach_init Gui.WINDOW_WIDTH Gui.WINDOW_HEIGHT
             (Some [ball_at 1 100 100 60 0; ball_at 2 719 50 120 0;
                    ball_at 3 899 300 120 0])
             None rng_half).
    reflexivity. }
  repeat (split; [reflexivity|]). split.
  - intros b [[<-|[<-|[<-|[]]]]|[]]; (split; [simpl; lra | apply red_is_valid]).
  - unfold live_count, inventory_count, Gui.INITIAL_BALLS. simpl. lia.
Qed.

(** The suck of a tick at the cursor captures the ball under it. *)
Lemma app_sample_suck :
  GameLogic.suck_into_inventory app_sample (Vector2.mk 100 100) 60 (Some 4%Z)
  = ([ball_at 1 100 100 60 0], app_loaded).
Proof.
  unfold GameLogic.suck_into_inventory.
  assert (Ec : GameLogic.candidates app_sample (Vector2.mk 100 100) 60
               = [(0, ball_at 1 100 100 60 0)]).
  { unfold GameLogic.candidates, app_sample, ball_at.
    cbn [GameLogic._balls dict_values map snd flat_map Ball.position Vector2.x
         Vector2.y app].
    rewrite (Rleb_true ((100 - 100) * (100 - 100) + (100 - 100) * (100 - 100))) by lra.
    rewrite (Rleb_false ((719 - 100) * (719 - 100) + (50 - 100) * (50 - 100))) by lra.
    rewrite (Rleb_false ((899 - 100) * (899 - 100) + (300 - 100) * (300 - 100))) by lra.
    rewrite (hypot_eq (100 - 100) (100 - 100) 0) by lra.
    reflexivity. }
  rewrite Ec. reflexivity.
Qed.

Lemma app_loaded_ok : app_world app_loaded.
Proof.
  pose proof (suck_app_world app_sample (Vector2.mk 100 100) 60 (Some 4%Z)
                app_sample_ok) as H.
  now rewrite app_sample_suck in H.
Qed.

(** The tick at [app_sample] with the left button held at (100, 100):
    ball 1 is captured, ball 2 moves to (721, 50), inside the deletion
    zone, and is removed, and ball 3 moves to 901 and is wrapped to 1. *)
Lemma app_sample_tick :
  exists g',
    Gui._tick (Gui.mk app_sample (Some (100, 100)) true)
    = Ok (Gui.mk g' (Some (100, 100)) true)
    /\ GameLogic.inventory g' = [ball_at 1 100 100 60 0]
    /\ map shape (GameLogic.list_balls g') = [shape (ball_at 3 1 300 120 0)].
Proof.
  assert (Hs : Gui.tick_suck (Gui.mk app_sample (Some (100, 100)) true) = app_loaded).
  { unfold Gui.tick_suck. cbn [Gui.is_sucking Gui.mouse_pos Gui.logic].
    now rewrite app_sample_suck. }
  assert (Hdt : 0 < 1 / Gui.TARGET_FPS) by (unfold Gui.TARGET_FPS; lra).
  destruct (update_app_world app_loaded _ app_loaded_ok Hdt) as (g' & E & _ & Hinv & _).
  exists g'. unfold Gui._tick. rewrite Hs, E. cbn [bind Gui.mouse_pos Gui.is_sucking].
  split; [reflexivity|]. split; [exact Hinv|].
  destruct (update_shapes app_loaded (1 / Gui.TARGET_FPS)) as (g'' & E' & Hshape).
  - exact Hdt.
  - unfold app_loaded, Gui.WINDOW_WIDTH. simpl. lra.
  - unfold app_loaded, Gui.WINDOW_HEIGHT. simpl. lra.
  - intros b [<-|[<-|[]]]; exact red_is_valid.
  - rewrite E in E'. injection E' as <-. rewrite Hshape. clear.
    assert (E2 : moved app_loaded (1 / Gui.TARGET_FPS) (ball_at 2 719 50 120 0)
                 = ball_at 2 721 50 120 0).
    { unfold moved, ball_at, Ball.set_position, app_loaded, Gui.TARGET_FPS,
        Gui.WINDOW_WIDTH, Gui.WINDOW_HEIGHT.
      cbn [Ball.position Ball.velocity Ball.ball_id Ball.radius Ball.color
           Vector2.x Vector2.y GameLogic.width GameLogic.height].
      replace (719 + 120 * (1 / 60)) with 721 by lra.
      replace (50 + 0 * (1 / 60)) with 50 by lra.
      rewrite !pymod_small by lra. reflexivity. }
    assert (E3 : moved app_loaded (1 / Gui.TARGET_FPS) (ball_at 3 899 300 120 0)
                 = ball_at 3 1 300 120 0).
    { unfold moved, ball_at, Ball.set_position, app_loaded, Gui.TARGET_FPS,
        Gui.WINDOW_WIDTH, Gui.WINDOW_HEIGHT.
      cbn [Ball.position Ball.velocity Ball.ball_id Ball.radius Ball.color
           Vector2.x Vector2.y GameLogic.width GameLogic.height].
      replace (899 + 120 * (1 / 60)) with 901 by lra.
      replace (300 + 0 * (1 / 60)) with 300 by lra.
      rewrite (pymod_small 300 600) by lra.
      unfold pymod. rewrite (floor_unique (901 / 900) 1) by lra.
      do 3 f_equal. lra. }
    unfold integrated. cbn [app_loaded GameLogic._balls map fst snd].
    fold app_loaded. rewrite E2, E3. unfold GameLogic.cull, app_loaded.
    cbn [GameLogic.set_balls GameLogic.deletion_zone GameLogic._balls dict_values map
         snd filter GameLogic.width GameLogic.height GameLogic._next_id
         GameLogic.inventory_capacity GameLogic.inventory GameLogic._rng].
    unfold Rect.contains, Gui.DELETION_ZONE, Gui.WINDOW_WIDTH.
    cbn [ball_at Ball.position Vector2.x Vector2.y Rect.x Rect.y
         Rect.width Rect.height].
    rdecide. reflexivity.
Qed.

(** The theorem at that tick. *)
Lemma tick_spec_witness :
  app_world (Gui.logic (Gui.mk app_sample (Some (100, 100)) true))
  /\ exists g',
       Gui._tick (Gui.mk app_sample (Some (100, 100)) true)
       = Ok (Gui.mk g' (Some (100, 100)) true)
       /\ GameLogic.inventory g' = [ball_at 1 100 100 60 0]
       /\ map shape (GameLogic.list_balls g') = [shape (ball_at 3 1 300 120 0)]
       /\ app_world g'
       /\ (forall b, In b (GameLogic.list_balls g') ->
             wrapped g' b /\ in_zone g' (Ball.position b) = false).
Proof.
  split; [exact app_sample_ok|].
  destruct app_sample_tick as (g' & E & Hinv & Hshape).
  destruct (tick_spec (Gui.mk app_sample (Some (100, 100)) true)
              (Gui.mk g' (Some (100, 100)) true) app_sample_ok E)
    as (Hw & _ & _ & Hlive & _).
  exists g'. split; [exact E|]. split; [exact Hinv|]. split; [exact Hshape|].
  split; [exact Hw | exact Hlive].
Defined.

Lemma emission_length (dn : option Vector2.t) (bs sd : R) (rng : Rng.t) :
  0 <= Rng.draws rng (S (Rng.cursor rng)) ->
  Vector2.length (emission dn bs sd rng)
  = Rabs bs * (0.85 + 0.30 * Rng.draws rng (S (Rng.cursor rng))).
Proof.
  intros Hu. unfold emission.
  pose proof (spit_angle_cursor dn sd rng) as Hcur.
  destruct (GameLogic.spit_angle dn sd rng) as [angle rng1].
  cbn [snd] in Hcur. subst rng1. cbn [Rng.random Rng.draws Rng.cursor].
  rewrite polar_length, Rabs_mult. f_equal. apply Rabs_pos_eq. lra.
Qed.

(** X25: a press of the right button at [(x, y)] releases the last
    [min(3, len(inventory))] balls of the inventory: they are appended to
    the live balls at [(x, y)] with a speed between 170 and 230, the
    inventory keeps the others, and the mouse state is unchanged. *)
Theorem right_click_spec (self : Gui.t) (x y : R) :
  app_world (Gui.logic self) ->
  Rng.well_formed (GameLogic._rng (Gui.logic self)) ->
  let self' := Gui._on_mouse_down_right self x y in
  exists emitted,
    length emitted = Nat.min 3 (length (GameLogic.inventory (Gui.logic self)))
    /\ GameLogic.list_balls (Gui.logic self')
       = GameLogic.list_balls (Gui.logic self) ++ emitted
    /\ GameLogic.inventory (Gui.logic self')
       = firstn (length (GameLogic.inventory (Gui.logic self)) - length emitted)
                (GameLogic.inventory (Gui.logic self))
    /\ Forall (fun e => Ball.position e = Vector2.mk x y
                        /\ 170 <= Vector2.length (Ball.velocity e) <= 230) emitted
    /\ Gui.mouse_pos self' = Gui.mouse_pos self
    /\ Gui.is_sucking self' = Gui.is_sucking self.
Proof.
  intros (Hr & _) Hwf. cbv zeta.
  destruct (reachable_ids_unique _ Hr) as [Hu _].
  unfold Gui._on_mouse_down_right. cbn [Gui.logic Gui.mouse_pos Gui.is_sucking].
  set (g := Gui.logic self).
  set (direction := BallGameApp.spit_direction (Gui.mouse_pos self) x y).
  set (point := Vector2.mk x y).
  pose proof (spit_loop_velocity point (direction_norm direction) 200 20
                (spit_turns g 3) g []) as Hvel.
  unfold GameLogic.spit_from_inventory. fold (direction_norm direction).
  fold (spit_turns g 3).
  assert (Hle : (spit_turns g 3 <= length (GameLogic.inventory g))%nat)
    by (unfold spit_turns; lia).
  destruct (spit_loop_appends point (direction_norm direction) 200 20
              (spit_turns g 3) g [] Hu Hle) as (new & Hfst & Hlen & Hb & _).
  destruct (spit_loop_spec point (direction_norm direction) 200 20
              (spit_turns g 3) g [] Hle) as (new' & g' & E & Hrel & Hinv & _).
  rewrite E in Hfst, Hb, Hvel |- *. cbn [fst snd app] in *. subst new'.
  exists new.
  assert (Hn : spit_turns g 3 = Nat.min 3 (length (GameLogic.inventory g)))
    by (unfold spit_turns; lia).
  split; [congruence|]. split; [|split; [|split; [|split; reflexivity]]].
  - unfold GameLogic.list_balls, dict_values. rewrite Hb, map_app, map_map. simpl.
    now rewrite map_id.
  - rewrite Hlen. rewrite <- (rev_involutive (GameLogic.inventory g')), Hinv.
    rewrite skipn_rev. apply rev_involutive.
  - apply Forall_forall. intros e He. split.
    + destruct (Forall2_In_l _ _ _ _ Hrel He) as (b0 & _ & _ & _ & _ & Hpos).
      exact Hpos.
    + apply In_nth_error in He as [i Hi].
      rewrite (Hvel i e Hi).
      assert (Hd : 0 <= Rng.draws (rng_skip (2 * i) (GameLogic._rng g))
                          (S (Rng.cursor (rng_skip (2 * i) (GameLogic._rng g)))) < 1)
        by exact (Hwf _).
      rewrite emission_length by lra.
      rewrite Rabs_pos_eq by lra. lra.
Qed.

(** The theorem at [app_loaded], whose inventory holds one ball, for a
    press at (120, 100) after a motion from (90, 100): the ball is
    released there. *)
Lemma right_click_spec_witness :
  app_world (Gui.logic (Gui.mk app_loaded (Some (90, 100)) false))
  /\ Rng.well_formed
       (GameLogic._rng (Gui.logic (Gui.mk app_loaded (Some (90, 100)) false)))
  /\ exists emitted,
       length emitted = 1%nat
       /\ GameLogic.list_balls
            (Gui.logic
               (Gui._on_mouse_down_right (Gui.mk app_loaded (Some (90, 100)) false)
                  120 100))
          = GameLogic.list_balls app_loaded ++ emitted
       /\ GameLogic.inventory
            (Gui.logic
               (Gui._on_mouse_down_right (Gui.mk app_loaded (Some (90, 100)) false)
                  120 100))
          = []
       /\ Forall (fun e => Ball.position e = Vector2.mk 120 100
                           /\ 170 <= Vector2.length (Ball.velocity e) <= 230) emitted.
Proof.
  split; [exact app_loaded_ok|]. split; [exact rng_half_well_formed|].
  destruct (right_click_spec (Gui.mk app_loaded (Some (90, 100)) false) 120 100
              app_loaded_ok rng_half_well_formed)
    as (emitted & Hlen & Hlive & Hinv & Hall & _).
  exists emitted. split; [exact Hlen|]. split; [exact Hlive|]. split; [|exact Hall].
  rewrite Hinv, Hlen. reflexivity.
Defined.
